(** * Parkrun milestone detector: a shallow embedding of [main.py]

    The development follows the source file top to bottom: the rows of the
    results table and the threshold constants, [generate_key],
    [check_milestone], [fetch_upcoming_milestones_from_event],
    [detect_milestones], [print_celebrants] and the main block.

    A row is what the program reads of a table row: the text of its
    attributes, each of which may be missing.  Python integers are
    unbounded, so they are [Z].  The accumulation dictionary keeps
    insertion order, so it is an association list.  The network is a
    function from URLs to responses; exceptions and the [logger.debug]
    records are threaded by a small monad.  Python's [int] on text is a
    parameter of the development. *)

From Stdlib Require Import ZArith List String Ascii Bool Lia Sorted Permutation.
From Stdlib Require Import Decimal DecimalString DecimalPos DecimalZ.
Import ListNotations.

Local Open Scope string_scope.
Local Open Scope list_scope.
Local Open Scope Z_scope.

(** ** Data model *)

(** [class LocationEnum(Enum)] with its two members and their [.value]. *)
Inductive LocationEnum : Set :=
| CYTADELA
| LAS_DEBINSKI.

Definition value (location : LocationEnum) : string :=
  match location with
  | CYTADELA => "poznan"
  | LAS_DEBINSKI => "lasdebinski"
  end.

(** A value the program stores or prints: an integer or a text. *)
Inductive cell : Set :=
| IntCell (n : Z)
| StrCell (s : string).

(** A row of the results table, through the four keys the program uses.
    The rows are parsed tags, so ["data-runs"], ["data-name"] and
    ["data-agegroup"] are the attribute texts of the page and any of them
    can be absent; ["data-event-id"] is whatever the row carries under
    that key, which is the integer the scanner assigns once it has stamped
    the row.  Rows are parsed anew from each page, so a row is a value
    here and the assignment to ["data-event-id"] yields the stamped row. *)
Record Parkrunner : Set := mkParkrunner {
  data_runs : option string;
  data_name : option string;
  data_agegroup : option string;
  data_event_id : option cell
}.

(** [celebrant["data-event-id"] = event_id] *)
Definition set_event_id (event_id : Z) (p : Parkrunner) : Parkrunner :=
  {| data_runs := data_runs p;
     data_name := data_name p;
     data_agegroup := data_agegroup p;
     data_event_id := Some (IntCell event_id) |}.

(** The three attribute texts a key is made of. *)
Definition attributes (p : Parkrunner)
  : option string * option string * option string :=
  (data_runs p, data_name p, data_agegroup p).

Definition PARKRUN_BASE_URL : string := "http://www.parkrun.pl/".

Definition LATEST_RESULTS_URL (location : LocationEnum) : string :=
  (PARKRUN_BASE_URL ++ value location ++ "/results/latestresults/")%string.

(** [str(n)] for a Python integer: decimal digits, a leading minus sign for
    negatives, ["0"] for zero. *)
Definition str_int (n : Z) : string :=
  NilZero.string_of_int (Z.to_int n).

Definition EVENT_RESULTS_URL (location : LocationEnum) (event_id : Z) : string :=
  (PARKRUN_BASE_URL ++ value location ++ "/results/"
     ++ str_int event_id ++ "/")%string.

Definition SUPPORTED_MILESTONES : list Z := [25; 50; 100; 250; 500].
Definition SUPPORTED_JUNIOR_MILESTONES : list Z := [10].

(** [x in s] for a set of integers. *)
Definition mem (x : Z) (s : list Z) : bool := existsb (Z.eqb x) s.

(** [not s] for a string. *)
Definition is_empty (s : string) : bool :=
  match s with
  | EmptyString => true
  | String _ _ => false
  end.

(** ** Exceptions, log records and the monad that threads them *)

Inductive exn : Set :=
| RequestException             (* [requests.get] itself raised *)
| AssertionError (status : Z)  (* [assert response.status_code == 200] *)
| AttributeError               (* [table] is [None] *)
| HeaderError                  (* the event number cannot be read off the header *)
| KeyError (key : string)      (* a row has no attribute of that name *)
| ValueError.                  (* [int] of a text that is no number *)

Inductive result (A : Type) : Type :=
| Ok (a : A)
| Raise (e : exn).
Arguments Ok {A} a.
Arguments Raise {A} e.

(** Sequencing of computations that only return or raise. *)
Definition and_then {A B : Type} (r : result A) (f : A -> result B) : result B :=
  match r with
  | Ok a => f a
  | Raise e => Raise e
  end.

(** [row[key]] for an attribute of a row. *)
Definition getitem (key : string) (attribute : option string) : result string :=
  match attribute with
  | Some text => Ok text
  | None => Raise (KeyError key)
  end.

(** One [logger.debug] call of the fetch: the event number it names
    ([None] for ["#LATEST"]) and the URL passed along. *)
Inductive log_record : Set :=
| Fetching (event_id : option Z) (url : string).

(** A computation yields the log records written so far and either a value
    or the exception that stopped it. *)
Definition M (A : Type) : Type := (list log_record * result A)%type.

Definition ret {A : Type} (a : A) : M A := ([], Ok a).

Definition raise {A : Type} (e : exn) : M A := ([], Raise e).

Definition bind {A B : Type} (m : M A) (f : A -> M B) : M B :=
  match m with
  | (log, Ok a) => let (log', r) := f a in (log ++ log', r)
  | (log, Raise e) => (log, Raise e)
  end.

(** A computation that writes no log record. *)
Definition lift {A : Type} (r : result A) : M A := ([], r).

Definition logger_debug (r : log_record) : M unit := ([r], Ok tt).

Declare Scope monad_scope.
Delimit Scope monad_scope with monad.
Notation "x <- m ;; k" := (bind m (fun x => k))
  (at level 61, m at next level, right associativity) : monad_scope.
Notation "m ;;; k" := (bind m (fun _ => k))
  (at level 61, right associativity) : monad_scope.
Notation "x <~ r ;; k" := (and_then r (fun x => k))
  (at level 61, r at next level, right associativity) : monad_scope.
Local Open Scope monad_scope.

Definition log_of {A : Type} (m : M A) : list log_record := fst m.
Definition outcome {A : Type} (m : M A) : result A := snd m.

Definition raises {A : Type} (m : M A) : Prop :=
  exists e, outcome m = Raise e.

(** ** The network *)

(** What the fetch reads off a page: the status code, the rows of the
    results table ([None] when [soup.find] finds no table) and the event
    number in the results header ([None] when the header expression
    raises). *)
Record Response : Set := mkResponse {
  status_code : Z;
  Results_table : option (list Parkrunner);
  Results_header : option Z
}.

(** The network: what [requests.get] answers for a URL, [None] when it
    raises. *)
Definition Http : Type := string -> option Response.

Definition requests_get (http : Http) (url : string) : M Response :=
  match http url with
  | Some response => ret response
  | None => raise RequestException
  end.

(** [if event_id:] is false for [None] and for [0]; the value is used only
    on the true branch. *)
Definition truthy (event_id : option Z) : option Z :=
  match event_id with
  | Some e => if e =? 0 then None else Some e
  | None => None
  end.

(** ** Sorting and the dictionary *)

(** The stable ascending sort by an integer key. *)
Fixpoint insert_by {A : Type} (key : A -> Z) (x : A) (l : list A) : list A :=
  match l with
  | [] => [x]
  | y :: l' =>
      if key x <=? key y then x :: y :: l'
      else y :: insert_by key x l'
  end.

Fixpoint sorted_by {A : Type} (key : A -> Z) (l : list A) : list A :=
  match l with
  | [] => []
  | x :: l' => insert_by key x (sorted_by key l')
  end.

(** The keys of [sorted(l, key=key)] are computed first, one call per
    element in the order of the list; an exception of [key] ends the
    sort. *)
Fixpoint decorate (key : Parkrunner -> result Z) (l : list Parkrunner)
  : result (list (Z * Parkrunner)) :=
  match l with
  | [] => Ok []
  | x :: l' =>
      k <~ key x ;;
      rest <~ decorate key l' ;;
      Ok ((k, x) :: rest)
  end.

(** [sorted(l, key=key)] *)
Definition sorted (key : Parkrunner -> result Z) (l : list Parkrunner)
  : result (list Parkrunner) :=
  decorated <~ decorate key l ;;
  Ok (map snd (sorted_by fst decorated)).

(** The insertion-ordered dictionary [all_celebrants]. *)
Definition dict : Set := list (string * Parkrunner).

(** [key in d] *)
Fixpoint contains (key : string) (d : dict) : bool :=
  match d with
  | [] => false
  | (k, _) :: d' => String.eqb k key || contains key d'
  end.

(** [d[key]] *)
Fixpoint lookup (key : string) (d : dict) : option Parkrunner :=
  match d with
  | [] => None
  | (k, v) :: d' => if String.eqb k key then Some v else lookup key d'
  end.

(** [d[key] = v]: replaces in place when the key is present, appends
    otherwise. *)
Fixpoint setitem (key : string) (v : Parkrunner) (d : dict) : dict :=
  match d with
  | [] => [(key, v)]
  | (k, v') :: d' =>
      if String.eqb k key then (k, v) :: d'
      else (k, v') :: setitem key v d'
  end.

(** [list(d.values())] *)
Definition values (d : dict) : list Parkrunner := map snd d.

(** ** Concrete rows, pages and a parser, used to exercise the statements *)

(** A parser for plain decimal text, with an optional minus sign and any
    leading zeros. *)
Definition decimal_int (text : string) : option Z :=
  option_map Z.of_int (NilZero.int_of_string text).

Definition row (runs name agegroup : string) : Parkrunner :=
  mkParkrunner (Some runs) (Some name) (Some agegroup) None.

Definition runner_A : Parkrunner := row "24" "A" "".
Definition runner_B : Parkrunner := row "49" "B" "SW30".
Definition runner_A_before : Parkrunner := row "23" "A" "".

Definition page (rows : list Parkrunner) (header : option Z) : option Response :=
  Some (mkResponse 200 (Some rows) header).

(** Event 10 is the latest, event 9 exists, nothing older can be loaded. *)
Definition http_example : Http := fun url =>
  if String.eqb url "http://www.parkrun.pl/poznan/results/latestresults/"
  then page [runner_A; runner_B] (Some 10)
  else if String.eqb url "http://www.parkrun.pl/poznan/results/9/"
  then page [runner_A_before] (Some 9)
  else None.

(** The same pages with the stamps a scan has left on their rows, and an
    unrelated page on top. *)
Definition http_example_again : Http := fun url =>
  if String.eqb url "http://www.parkrun.pl/lasdebinski/results/latestresults/"
  then page [] (Some 1)
  else if String.eqb url "http://www.parkrun.pl/poznan/results/latestresults/"
  then page [set_event_id 10 runner_A; set_event_id 10 runner_B] (Some 10)
  else http_example url.

(** Events 3, 2 and 1 exist. *)
Definition http_three : Http := fun url =>
  if String.eqb url "http://www.parkrun.pl/poznan/results/latestresults/"
  then page [runner_B] (Some 3)
  else if String.eqb url "http://www.parkrun.pl/poznan/results/2/"
  then page [runner_A] (Some 2)
  else if String.eqb url "http://www.parkrun.pl/poznan/results/1/"
  then page [] (Some 1)
  else None.

(** The header of the latest page reads 0; every page loads. *)
Definition http_from_zero : Http := fun url =>
  if String.eqb url "http://www.parkrun.pl/poznan/results/latestresults/"
  then page [] (Some 0)
  else page [] None.

(** The same row on two consecutive events, the newer of which is not the
    latest: events 9 and 8 list A, event 10 does not. *)
Definition http_stale : Http := fun url =>
  if String.eqb url "http://www.parkrun.pl/poznan/results/latestresults/"
  then page [runner_B] (Some 10)
  else if String.eqb url "http://www.parkrun.pl/poznan/results/9/"
  then page [runner_A] (Some 9)
  else if String.eqb url "http://www.parkrun.pl/poznan/results/8/"
  then page [runner_A] (Some 8)
  else None.

(** Two rows with different names and age groups whose keys read the
    same. *)
Definition runner_hyphen_name : Parkrunner := row "24" "A-B" "C".
Definition runner_hyphen_group : Parkrunner := row "24" "A" "B-C".

Definition http_collision : Http := fun url =>
  if String.eqb url "http://www.parkrun.pl/poznan/results/latestresults/"
  then page [runner_hyphen_name; runner_hyphen_group] (Some 10)
  else if String.eqb url "http://www.parkrun.pl/poznan/results/9/"
  then page [runner_hyphen_group] (Some 9)
  else None.

(** Two rows with the same run count, name and age group whose run counts
    are written differently. *)
Definition runner_A_zero : Parkrunner := row "024" "A" "".

Definition http_leading_zero : Http := fun url =>
  if String.eqb url "http://www.parkrun.pl/poznan/results/latestresults/"
  then page [runner_A] (Some 10)
  else if String.eqb url "http://www.parkrun.pl/poznan/results/9/"
  then page [runner_A_zero] (Some 9)
  else None.

(** A row without an age group on the page of event 8. *)
Definition runner_no_agegroup : Parkrunner :=
  mkParkrunner (Some "12") (Some "C") None None.

Definition http_bad_row : Http := fun url =>
  if String.eqb url "http://www.parkrun.pl/poznan/results/8/"
  then page [runner_no_agegroup] (Some 8)
  else http_example url.

Section Program.

(** Python's [int] on a text: the integer it denotes, or [None] where
    [int] raises [ValueError].  Nothing is assumed of it. *)
Variable py_int : string -> option Z.

Definition int (text : string) : result Z :=
  match py_int text with
  | Some n => Ok n
  | None => Raise ValueError
  end.

(** ** Key generation and classification *)

(** [f"{parkrunner['data-runs']}-{parkrunner['data-name']}-{parkrunner['data-agegroup']}"] *)
Definition generate_key (parkrunner : Parkrunner) : result string :=
  runs <~ getitem "data-runs" (data_runs parkrunner) ;;
  name <~ getitem "data-name" (data_name parkrunner) ;;
  agegroup <~ getitem "data-agegroup" (data_agegroup parkrunner) ;;
  Ok (runs ++ "-" ++ name ++ "-" ++ agegroup)%string.

(** The age group is looked up only when the run count is no senior
    milestone, as [or] does not evaluate its second operand otherwise. *)
Definition check_milestone (parkrunner : Parkrunner) : result bool :=
  runs <~ getitem "data-runs" (data_runs parkrunner) ;;
  n <~ int runs ;;
  let runs_count := n + 1 in
  if mem runs_count SUPPORTED_MILESTONES then Ok true
  else
    agegroup <~ getitem "data-agegroup" (data_agegroup parkrunner) ;;
    Ok ((String.prefix "J" agegroup || is_empty agegroup)
        && mem runs_count SUPPORTED_JUNIOR_MILESTONES).

(** ** The fetch *)

(** [[finisher for finisher in rows if check_milestone(finisher)]]: the
    rows are classified in page order and the first exception ends the
    comprehension. *)
Fixpoint milestone_rows (rows : list Parkrunner) : result (list Parkrunner) :=
  match rows with
  | [] => Ok []
  | finisher :: rows' =>
      accepted <~ check_milestone finisher ;;
      rest <~ milestone_rows rows' ;;
      Ok (if accepted then finisher :: rest else rest)
  end.

Definition fetch_upcoming_milestones_from_event
    (http : Http) (location : LocationEnum) (event_id : option Z)
  : M (list Parkrunner * Z) :=
  url <- match truthy event_id with
         | Some e =>
             let url := EVENT_RESULTS_URL location e in
             logger_debug (Fetching (Some e) url) ;;; ret url
         | None =>
             let url := LATEST_RESULTS_URL location in
             logger_debug (Fetching None url) ;;; ret url
         end ;;
  response <- requests_get http url ;;
  (if status_code response =? 200 then ret tt
   else raise (AssertionError (status_code response))) ;;;
  table <- match Results_table response with
           | Some rows => ret rows
           | None => raise AttributeError
           end ;;
  next_celebrants <- lift (milestone_rows table) ;;
  match truthy event_id with
  | Some e => ret (next_celebrants, e)
  | None =>
      match Results_header response with
      | Some e => ret (next_celebrants, e)
      | None => raise HeaderError
      end
  end.

(** ** The scanner *)

(** [lambda x: int(x["data-runs"])] *)
Definition runs_key (x : Parkrunner) : result Z :=
  runs <~ getitem "data-runs" (data_runs x) ;;
  int runs.

(** The body of the inner [for celebrant in sorted(...)] loop. *)
Definition add_celebrant (event_id : Z) (all_celebrants : dict)
    (celebrant : Parkrunner) : result dict :=
  parkrunner_key <~ generate_key celebrant ;;
  Ok (if negb (contains parkrunner_key all_celebrants)
      then setitem parkrunner_key (set_event_id event_id celebrant) all_celebrants
      else all_celebrants).

(** The inner loop over the celebrants in the order given. *)
Fixpoint add_each (event_id : Z) (celebrants : list Parkrunner)
    (all_celebrants : dict) : result dict :=
  match celebrants with
  | [] => Ok all_celebrants
  | celebrant :: celebrants' =>
      all_celebrants' <~ add_celebrant event_id all_celebrants celebrant ;;
      add_each event_id celebrants' all_celebrants'
  end.

(** The sort and the whole inner loop for one fetched event. *)
Definition add_celebrants (event_id : Z) (next_celebrants : list Parkrunner)
    (all_celebrants : dict) : result dict :=
  ordered <~ sorted runs_key next_celebrants ;;
  add_each event_id ordered all_celebrants.

(** [for _ in range(events_limit): ...] with the iterations still to run
    as the recursion argument; the [break] is the early [ret]. *)
Fixpoint scan_loop (http : Http) (location : LocationEnum) (n : nat)
    (event_id : option Z) (all_celebrants : dict) : M dict :=
  match n with
  | O => ret all_celebrants
  | S n' =>
      fetched <- fetch_upcoming_milestones_from_event http location event_id ;;
      let (next_celebrants, event_id) := fetched : list Parkrunner * Z in
      all_celebrants <- lift (add_celebrants event_id next_celebrants all_celebrants) ;;
      let event_id := event_id - 1 in
      if event_id =? 0 then ret all_celebrants
      else scan_loop http location n' (Some event_id) all_celebrants
  end.

Definition detect_milestones (http : Http) (location : LocationEnum)
    (events_limit : Z) : M (list Parkrunner) :=
  all_celebrants <- scan_loop http location (Z.to_nat events_limit) None [] ;;
  ret (values all_celebrants).

(** ** Reporting *)

(** The call [tabulate(table, headers=...)] whose text is printed. *)
Record tabulate_call : Set := mkTabulate {
  table : list (list cell);
  headers : list string
}.

(** One row of the list comprehension in [print_celebrants]. *)
Definition table_row (parkrunner : Parkrunner) : result (list cell) :=
  runs <~ getitem "data-runs" (data_runs parkrunner) ;;
  name <~ getitem "data-name" (data_name parkrunner) ;;
  agegroup <~ getitem "data-agegroup" (data_agegroup parkrunner) ;;
  match data_event_id parkrunner with
  | Some event_id => Ok [StrCell runs; StrCell name; StrCell agegroup; event_id]
  | None => Raise (KeyError "data-event-id")
  end.

Fixpoint table_rows (l : list Parkrunner) : result (list (list cell)) :=
  match l with
  | [] => Ok []
  | parkrunner :: l' =>
      r <~ table_row parkrunner ;;
      rs <~ table_rows l' ;;
      Ok (r :: rs)
  end.

(** [lambda x: -int(x["data-runs"])] *)
Definition neg_runs_key (x : Parkrunner) : result Z :=
  n <~ runs_key x ;;
  Ok (- n).

(** [print_celebrants], up to the text [tabulate] makes of its
    arguments: the outcome is the call made, or the exception of the sort
    or of the comprehension. *)
Definition print_celebrants (celebrants : list Parkrunner)
  : result tabulate_call :=
  ordered <~ sorted neg_runs_key celebrants ;;
  rows <~ table_rows ordered ;;
  Ok {| table := rows;
        headers := ["Events"; "Parkrunner"; "Age group"; "Last event ID"] |}.

(** The [__main__] block. *)
Definition LOCATION : LocationEnum := CYTADELA.
Definition EVENTS_LIMIT : Z := 5.

Definition main (http : Http) : M tabulate_call :=
  milestoners <- detect_milestones http LOCATION EVENTS_LIMIT ;;
  lift (print_celebrants milestoners).

(** ** Predicates used in the statements *)

(** The run count of a row, where it has one that [int] reads. *)
Definition runs_of (p : Parkrunner) : option Z :=
  match data_runs p with
  | Some text => py_int text
  | None => None
  end.

(** The participant triple of the specification: run count, name and age
    group, for a row that carries all three. *)
Definition triple (p : Parkrunner) : option (Z * string * string) :=
  match runs_of p, data_name p, data_agegroup p with
  | Some n, Some name, Some agegroup => Some (n, name, agegroup)
  | _, _, _ => None
  end.

(** A row that carries a run count [int] reads, a name and an age
    group. *)
Definition complete (p : Parkrunner) : Prop :=
  exists t, triple p = Some t.

(** The order of two rows by run count. *)
Definition runs_le (a b : Parkrunner) : Prop :=
  exists m n, runs_of a = Some m /\ runs_of b = Some n /\ m <= n.

(** The order of two rows by a key that may raise, and the test for a key
    value. *)
Definition key_le (key : Parkrunner -> result Z) (a b : Parkrunner) : Prop :=
  exists m n, key a = Ok m /\ key b = Ok n /\ m <= n.

Definition key_is (key : Parkrunner -> result Z) (k : Z) (r : Parkrunner) : bool :=
  match key r with
  | Ok n => n =? k
  | Raise _ => false
  end.

(** The classifier answers true on the row. *)
Definition accepts (c : Parkrunner) : bool :=
  match check_milestone c with
  | Ok true => true
  | _ => false
  end.

(** The row is stored under [key]. *)
Definition has_key (key : string) (r : Parkrunner) : bool :=
  match generate_key r with
  | Ok k => String.eqb k key
  | Raise _ => false
  end.

(** No ["-"] occurs in the text. *)
Fixpoint hyphen_free (s : string) : bool :=
  match s with
  | EmptyString => true
  | String c s' => negb (Ascii.eqb c "-") && hyphen_free s'
  end.

(** No ["/"] occurs in the text. *)
Fixpoint slash_free (s : string) : bool :=
  match s with
  | EmptyString => true
  | String c s' => negb (Ascii.eqb c "/") && slash_free s'
  end.

(** The URL a fetch asks for. *)
Definition request_url (location : LocationEnum) (event_id : option Z) : string :=
  match truthy event_id with
  | Some e => EVENT_RESULTS_URL location e
  | None => LATEST_RESULTS_URL location
  end.

(** The page behind [url] loads with status 200 and a results table holding
    [rows]. *)
Definition page_ok (http : Http) (url : string) (rows : list Parkrunner) : Prop :=
  exists response,
    http url = Some response
    /\ status_code response = 200
    /\ Results_table response = Some rows.

(** The latest-results page loads, holds [rows] and names event
    [event_id] in its header. *)
Definition latest_ok (http : Http) (location : LocationEnum)
    (rows : list Parkrunner) (event_id : Z) : Prop :=
  exists response,
    http (LATEST_RESULTS_URL location) = Some response
    /\ status_code response = 200
    /\ Results_table response = Some rows
    /\ Results_header response = Some event_id.

(** What makes the fetch of [event_id] fail, said of the page alone: the
    request raises, the status is not 200, there is no results table, the
    classifier raises on a row, or, for the latest page, the header cannot
    be read. *)
Definition page_fails (http : Http) (location : LocationEnum)
    (event_id : option Z) : Prop :=
  match http (request_url location event_id) with
  | None => True
  | Some response =>
      status_code response <> 200
      \/ Results_table response = None
      \/ (exists rows finisher ex,
            Results_table response = Some rows
            /\ In finisher rows
            /\ check_milestone finisher = Raise ex)
      \/ (truthy event_id = None /\ Results_header response = None)
  end.

(** The page fetched for [event_id] holds a row that the classifier
    accepts and whose key is [key]. *)
Definition page_holds (http : Http) (location : LocationEnum)
    (event_id : option Z) (key : string) : Prop :=
  exists rows c,
    page_ok http (request_url location event_id) rows
    /\ In c rows
    /\ check_milestone c = Ok true
    /\ generate_key c = Ok key.

(** The event number the fetch of [event_id] returns: the number given,
    or the one in the header of the latest page. *)
Definition resolves (http : Http) (location : LocationEnum)
    (event_id : option Z) (e : Z) : Prop :=
  match truthy event_id with
  | Some e' => e = e'
  | None =>
      exists response,
        http (LATEST_RESULTS_URL location) = Some response
        /\ Results_header response = Some e
  end.

(** Every entry sits under the key of its own row, and no key occurs
    twice. *)
Definition well_keyed (d : dict) : Prop :=
  NoDup (map fst d)
  /\ Forall (fun kv => generate_key (snd kv) = Ok (fst kv)) d.

(** A row as it is before any scan has stamped it. *)
Definition unstamp (p : Parkrunner) : Parkrunner :=
  {| data_runs := data_runs p;
     data_name := data_name p;
     data_agegroup := data_agegroup p;
     data_event_id := None |}.

Definition unstamp_response (response : Response) : Response :=
  {| status_code := status_code response;
     Results_table := option_map (map unstamp) (Results_table response);
     Results_header := Results_header response |}.

(** Two answers of the network that differ at most in what the rows carry
    under ["data-event-id"], such as the stamps of an earlier scan. *)
Definition same_answer (a b : option Response) : Prop :=
  option_map unstamp_response a = option_map unstamp_response b.

(** Two fetches with the same outcome up to such stamps. *)
Definition same_fetched (a b : result (list Parkrunner * Z)) : Prop :=
  match a, b with
  | Ok (rows1, e1), Ok (rows2, e2) =>
      map unstamp rows1 = map unstamp rows2 /\ e1 = e2
  | Raise ex1, Raise ex2 => ex1 = ex2
  | _, _ => False
  end.

(** The log records of [k] fetches for the events [e], [e - 1], ... *)
Definition event_log (location : LocationEnum) (e : Z) (k : nat) : list log_record :=
  map (fun i => Fetching (Some (e - Z.of_nat i))
                  (EVENT_RESULTS_URL location (e - Z.of_nat i)))
      (seq 0 k).

Definition url_of (r : log_record) : string :=
  match r with Fetching _ url => url end.

(** The order of the returned list: a row stamped with a newer event
    comes first; with the same event, the one with fewer runs. *)
Definition listed_before (a b : Parkrunner) : Prop :=
  match data_event_id a, data_event_id b with
  | Some (IntCell ea), Some (IntCell eb) =>
      eb < ea
      \/ (eb = ea
          /\ runs_le a b)
  | _, _ => False
  end.

(** The row comes from a page this fetch loaded: a row of the results
    table that the classifier accepts, stamped with the event number the
    fetch resolved. *)
Definition row_of_page (http : Http) (location : LocationEnum)
    (event_id : option Z) (r : Parkrunner) : Prop :=
  exists rows next e c,
    page_ok http (request_url location event_id) rows
    /\ outcome (fetch_upcoming_milestones_from_event http location event_id)
       = Ok (next, e)
    /\ In c rows
    /\ check_milestone c = Ok true
    /\ r = set_event_id e c.

(** * Properties *)

(** ** Text *)

(** Text without hyphens is cut off unambiguously by the first hyphen. *)
Lemma split_first_hyphen (a b x y : string) :
  hyphen_free a = true -> hyphen_free b = true ->
  (a ++ "-" ++ x)%string = (b ++ "-" ++ y)%string ->
  a = b /\ x = y.
Proof.
  revert b. induction a as [|c a IH]; intros [|c' b] Ha Hb E; simpl in *.
  - injection E as E. auto.
  - injection E as Ec E. subst c'. discriminate.
  - injection E as Ec E. subst c. discriminate.
  - injection E as Ec E. subst c'.
    apply andb_prop in Ha as [_ Ha]. apply andb_prop in Hb as [_ Hb].
    destruct (IH b Ha Hb E) as [-> ->]. auto.
Qed.

Lemma split_first_slash (a b x y : string) :
  slash_free a = true -> slash_free b = true ->
  (a ++ "/" ++ x)%string = (b ++ "/" ++ y)%string ->
  a = b /\ x = y.
Proof.
  revert b. induction a as [|c a IH]; intros [|c' b] Ha Hb E; simpl in *.
  - injection E as E. auto.
  - injection E as Ec E. subst c'. discriminate.
  - injection E as Ec E. subst c. discriminate.
  - injection E as Ec E. subst c'.
    apply andb_prop in Ha as [_ Ha]. apply andb_prop in Hb as [_ Hb].
    destruct (IH b Ha Hb E) as [-> ->]. auto.
Qed.

Lemma append_inj_l (a x y : string) :
  (a ++ x)%string = (a ++ y)%string -> x = y.
Proof.
  induction a as [|c a IH]; cbn [append]; [auto|].
  intros [= H]. auto.
Qed.

Lemma prefix_append (p s : string) : String.prefix p (p ++ s) = true.
Proof.
  induction p as [|c p IH]; cbn [String.prefix append]; [now destruct s|].
  destruct (ascii_dec c c) as [_|Hc]; [exact IH | contradiction].
Qed.

Lemma prefix_J (s : string) :
  String.prefix "J" s = true <-> exists rest, s = String "J" rest.
Proof.
  destruct s as [|c s]; cbn [String.prefix].
  - split; [discriminate | intros [rest H]; discriminate].
  - destruct (ascii_dec "J" c) as [<-|Hc].
    + split; [eauto | intros _; now destruct s].
    + split; [discriminate | intros [rest [= E _]]; congruence].
Qed.

Lemma is_empty_spec (s : string) : is_empty s = true <-> s = EmptyString.
Proof. destruct s; simpl; split; congruence. Qed.

Lemma mem_In (x : Z) (s : list Z) : mem x s = true <-> In x s.
Proof.
  unfold mem. rewrite existsb_exists. split.
  - intros (y & Hy & E). apply Z.eqb_eq in E. now subst.
  - intros H. exists x. split; [assumption | apply Z.eqb_refl].
Qed.

(** ** Decimal text of event numbers and the URLs *)

Lemma to_int_nonnil (a : Z) :
  Z.to_int a <> Pos Nil /\ Z.to_int a <> Neg Nil.
Proof.
  destruct a as [|p|p]; simpl; split; try discriminate;
    intros [= H]; exact (DecimalPos.Unsigned.to_uint_nonnil p H).
Qed.

Lemma str_int_inj (a b : Z) : str_int a = str_int b -> a = b.
Proof.
  unfold str_int. intros E.
  apply DecimalZ.to_int_inj.
  assert (H : NilZero.int_of_string (NilZero.string_of_int (Z.to_int a))
              = NilZero.int_of_string (NilZero.string_of_int (Z.to_int b)))
    by (now rewrite E).
  destruct (to_int_nonnil a) as [Ha1 Ha2].
  destruct (to_int_nonnil b) as [Hb1 Hb2].
  rewrite !NilZero.isi in H by assumption.
  now injection H.
Qed.

Lemma slash_free_uint (d : uint) :
  slash_free (NilEmpty.string_of_uint d) = true.
Proof. induction d; simpl; auto. Qed.

Lemma slash_free_str_int (n : Z) : slash_free (str_int n) = true.
Proof.
  unfold str_int. destruct (Z.to_int n) as [d|d]; cbn [NilZero.string_of_int];
    destruct d; try apply (slash_free_uint (_ _)); try reflexivity;
    cbn [slash_free NilZero.string_of_uint]; apply (slash_free_uint (_ _)).
Qed.

Lemma str_int_not_latestresults (n : Z) : str_int n <> "latestresults".
Proof.
  unfold str_int. intros H.
  destruct (to_int_nonnil n) as [H1 H2].
  pose proof (NilZero.isi (Z.to_int n) H1 H2) as Hisi.
  rewrite H in Hisi. discriminate Hisi.
Qed.

Lemma EVENT_RESULTS_URL_inj (location location' : LocationEnum) (e e' : Z) :
  EVENT_RESULTS_URL location e = EVENT_RESULTS_URL location' e' ->
  location = location' /\ e = e'.
Proof.
  unfold EVENT_RESULTS_URL. intros H. apply append_inj_l in H.
  destruct location, location'; cbn [value] in H; try discriminate H;
    apply append_inj_l, append_inj_l in H;
    apply (split_first_slash _ _ "" "") in H;
    try apply slash_free_str_int;
    destruct H as [H _]; apply str_int_inj in H; auto.
Qed.

Lemma LATEST_RESULTS_URL_not_EVENT (location location' : LocationEnum) (e : Z) :
  LATEST_RESULTS_URL location <> EVENT_RESULTS_URL location' e.
Proof.
  unfold LATEST_RESULTS_URL, EVENT_RESULTS_URL. intros H.
  apply append_inj_l in H.
  destruct location, location'; cbn [value] in H; try discriminate H;
    apply append_inj_l in H;
    change ("/results/latestresults/")
      with ("/results/" ++ "latestresults" ++ "/" ++ "")%string in H;
    apply append_inj_l in H;
    apply (split_first_slash "latestresults" _ "" "") in H;
    try apply slash_free_str_int; try reflexivity;
    destruct H as [H _]; symmetry in H;
    exact (str_int_not_latestresults e H).
Qed.

(** ** Computations that return or raise *)

Lemma and_then_Ok {A B : Type} (r : result A) (f : A -> result B) (b : B) :
  and_then r f = Ok b <-> exists a, r = Ok a /\ f a = Ok b.
Proof.
  destruct r as [a|ex]; cbn [and_then].
  - split; [eauto | intros (a' & [= <-] & H); exact H].
  - split; [discriminate | intros (a' & H & _); discriminate H].
Qed.

Lemma log_of_pair {A : Type} (log : list log_record) (r : result A) :
  log_of (log, r) = log.
Proof. reflexivity. Qed.

Lemma outcome_pair {A : Type} (log : list log_record) (r : result A) :
  outcome (log, r) = r.
Proof. reflexivity. Qed.

(** ** Keys *)

Lemma generate_key_Ok (p : Parkrunner) (key : string) :
  generate_key p = Ok key
  <-> exists runs name agegroup,
        data_runs p = Some runs
        /\ data_name p = Some name
        /\ data_agegroup p = Some agegroup
        /\ key = (runs ++ "-" ++ name ++ "-" ++ agegroup)%string.
Proof.
  unfold generate_key.
  destruct (data_runs p) as [runs|], (data_name p) as [name|],
    (data_agegroup p) as [agegroup|]; cbn [getitem and_then];
    (split; [intros [= <-]; eauto 8 | intros (r & n & a & H1 & H2 & H3 & H4)]);
    try discriminate.
  injection H1 as <-. injection H2 as <-. injection H3 as <-. now subst.
Qed.

Lemma generate_key_set_event_id (e : Z) (p : Parkrunner) :
  generate_key (set_event_id e p) = generate_key p.
Proof. reflexivity. Qed.

Lemma generate_key_attributes (p q : Parkrunner) :
  attributes p = attributes q -> generate_key p = generate_key q.
Proof.
  unfold attributes, generate_key. intros [= -> -> ->]. reflexivity.
Qed.

Lemma set_event_id_attributes (e : Z) (p q : Parkrunner) :
  attributes p = attributes q -> set_event_id e p = set_event_id e q.
Proof.
  unfold attributes, set_event_id. intros [= -> -> ->]. reflexivity.
Qed.

Lemma has_key_spec (key : string) (r : Parkrunner) :
  has_key key r = true <-> generate_key r = Ok key.
Proof.
  unfold has_key. destruct (generate_key r) as [k|ex].
  - rewrite String.eqb_eq. split; congruence.
  - split; discriminate.
Qed.

(** Rows whose run count texts and names hold no hyphen have the same key
    only when they have the same three attribute texts. *)
Lemma generate_key_inj_hyphen_free (p q : Parkrunner)
    (rp np rq nq : string) (key : string) :
  data_runs p = Some rp -> data_name p = Some np ->
  data_runs q = Some rq -> data_name q = Some nq ->
  hyphen_free rp = true -> hyphen_free np = true ->
  hyphen_free rq = true -> hyphen_free nq = true ->
  generate_key p = Ok key -> generate_key q = Ok key ->
  attributes p = attributes q.
Proof.
  intros Hrp Hnp Hrq Hnq Frp Fnp Frq Fnq Hp Hq.
  apply generate_key_Ok in Hp as (r1 & n1 & a1 & H1 & H2 & H3 & ->).
  apply generate_key_Ok in Hq as (r2 & n2 & a2 & H4 & H5 & H6 & E).
  unfold attributes. rewrite H1, H2, H3, H4, H5, H6.
  assert (r1 = rp) by congruence. assert (n1 = np) by congruence.
  assert (r2 = rq) by congruence. assert (n2 = nq) by congruence.
  subst r1 n1 r2 n2.
  apply split_first_hyphen in E as [-> E]; [|assumption|assumption].
  apply split_first_hyphen in E as [-> ->]; [|assumption|assumption].
  reflexivity.
Qed.

(** ** The classifier *)

Lemma check_milestone_complete (p : Parkrunner) (n : Z) (name agegroup : string) :
  triple p = Some (n, name, agegroup) ->
  check_milestone p
  = Ok (mem (n + 1) SUPPORTED_MILESTONES
        || ((String.prefix "J" agegroup || is_empty agegroup)
            && mem (n + 1) SUPPORTED_JUNIOR_MILESTONES)).
Proof.
  unfold triple, runs_of, check_milestone, int.
  destruct (data_runs p) as [runs|]; [|discriminate]. cbn [getitem and_then].
  destruct (py_int runs) as [m|]; [|discriminate]. cbn [and_then].
  destruct (data_name p); [|discriminate].
  destruct (data_agegroup p) as [ag|]; [|discriminate].
  intros [= -> _ ->]. cbn [getitem and_then].
  now destruct (mem (n + 1) SUPPORTED_MILESTONES).
Qed.

Lemma runs_key_runs_of (p : Parkrunner) (n : Z) :
  runs_key p = Ok n <-> runs_of p = Some n.
Proof.
  unfold runs_key, runs_of, int.
  destruct (data_runs p) as [runs|]; cbn [getitem and_then];
    [|split; discriminate].
  destruct (py_int runs); split; congruence.
Qed.

(** A row the classifier answers for has a run count. *)
Lemma check_milestone_runs (p : Parkrunner) (b : bool) :
  check_milestone p = Ok b -> exists n, runs_of p = Some n.
Proof.
  unfold check_milestone, runs_of, int.
  destruct (data_runs p) as [runs|]; cbn [getitem and_then]; [|discriminate].
  destruct (py_int runs) as [n|]; [eauto | discriminate].
Qed.

Lemma complete_generate_key (p : Parkrunner) :
  complete p -> exists key, generate_key p = Ok key.
Proof.
  unfold complete, triple, runs_of, generate_key. intros [t H].
  destruct (data_runs p); [|discriminate].
  destruct (py_int s); [|discriminate].
  destruct (data_name p); [|discriminate].
  destruct (data_agegroup p); [|discriminate].
  cbn [getitem and_then]. eauto.
Qed.

Lemma complete_check_milestone (p : Parkrunner) :
  complete p -> exists b, check_milestone p = Ok b.
Proof.
  intros [[[n name] agegroup] H].
  rewrite (check_milestone_complete p n name agegroup H). eauto.
Qed.

(** ** The dictionary *)

Lemma contains_In (key : string) (d : dict) :
  contains key d = true <-> In key (map fst d).
Proof.
  induction d as [|[k v] d IH]; simpl.
  - split; [discriminate | tauto].
  - rewrite orb_true_iff, String.eqb_eq, IH. tauto.
Qed.

Lemma contains_false_not_In (key : string) (d : dict) :
  contains key d = false <-> ~ In key (map fst d).
Proof.
  rewrite <- contains_In. destruct (contains key d); split; congruence.
Qed.

Lemma contains_app (key : string) (d d' : dict) :
  contains key (d ++ d') = contains key d || contains key d'.
Proof.
  induction d as [|[k v] d IH]; simpl; [reflexivity|].
  now rewrite IH, orb_assoc.
Qed.

Lemma contains_lookup (key : string) (d : dict) :
  contains key d = false <-> lookup key d = None.
Proof.
  induction d as [|[k v] d IH]; simpl; [tauto|].
  destruct (String.eqb k key); simpl; [split; discriminate | exact IH].
Qed.

Lemma setitem_absent (key : string) (v : Parkrunner) (d : dict) :
  contains key d = false -> setitem key v d = d ++ [(key, v)].
Proof.
  induction d as [|[k v'] d IH]; simpl; [reflexivity|].
  intros H. apply orb_false_elim in H as [Hk Hd].
  rewrite Hk, IH by assumption. reflexivity.
Qed.

Lemma lookup_app_Some (key : string) (v : Parkrunner) (d d' : dict) :
  lookup key d = Some v -> lookup key (d ++ d') = Some v.
Proof.
  induction d as [|[k w] d IH]; simpl; [discriminate|].
  destruct (String.eqb k key); auto.
Qed.

Lemma lookup_app_None (key : string) (d d' : dict) :
  lookup key d = None -> lookup key (d ++ d') = lookup key d'.
Proof.
  induction d as [|[k w] d IH]; simpl; [reflexivity|].
  destruct (String.eqb k key); [discriminate | exact IH].
Qed.

Lemma lookup_In (key : string) (v : Parkrunner) (d : dict) :
  lookup key d = Some v -> In (key, v) d.
Proof.
  induction d as [|[k w] d IH]; simpl; [discriminate|].
  destruct (String.eqb_spec k key) as [->|Hk].
  - intros [= ->]. now left.
  - intros H. right. auto.
Qed.

Lemma NoDup_snoc {A : Type} (x : A) (l : list A) :
  NoDup l -> ~ In x l -> NoDup (l ++ [x]).
Proof.
  induction l as [|y l IH]; simpl; intros Hnd Hx.
  - constructor; [tauto | constructor].
  - inversion Hnd as [|? ? Hy Hl]; subst. constructor.
    + rewrite in_app_iff. simpl. intuition congruence.
    + apply IH; tauto.
Qed.

(** In a dictionary without repeated keys an entry is found under its
    key. *)
Lemma In_lookup (key : string) (v : Parkrunner) (d : dict) :
  NoDup (map fst d) -> In (key, v) d -> lookup key d = Some v.
Proof.
  induction d as [|[k w] d IH]; simpl; [contradiction|].
  intros Hnd. inversion Hnd as [|? ? Hfresh Hnd']; subst.
  intros [[= -> ->]|Hin].
  - now rewrite String.eqb_refl.
  - destruct (String.eqb_spec k key) as [->|Hk]; [|auto].
    exfalso. apply Hfresh. apply in_map_iff. exists (key, v). auto.
Qed.

Lemma well_keyed_nil : well_keyed [].
Proof. split; constructor. Qed.

Lemma well_keyed_values (d : dict) :
  well_keyed d -> map generate_key (values d) = map (fun kv => Ok (fst kv)) d.
Proof.
  intros [_ Hk]. unfold values. rewrite map_map.
  apply map_ext_in. intros kv Hkv. rewrite Forall_forall in Hk.
  now apply Hk.
Qed.

(** In a well-keyed dictionary the rows stored under a key are the one
    entry under it. *)
Lemma filter_has_key_absent (key : string) (d : dict) :
  well_keyed d ->
  ~ In key (map fst d) ->
  filter (has_key key) (values d) = [].
Proof.
  induction d as [|[k v] d IH]; intros [Hnd Hk] Hnot; [reflexivity|].
  cbn in *. inversion Hnd; inversion Hk; subst. cbn in *.
  destruct (has_key key v) eqn:Hs.
  - apply has_key_spec in Hs. exfalso. apply Hnot. left. congruence.
  - apply IH; [split; assumption | tauto].
Qed.

Lemma filter_has_key_unique (key : string) (v : Parkrunner) (d : dict) :
  well_keyed d ->
  In (key, v) d ->
  filter (has_key key) (values d) = [v].
Proof.
  induction d as [|[k0 v0] d IH]; intros [Hnd Hk] Hin; [contradiction|].
  cbn in *. inversion Hnd as [|? ? Hfresh Hnd']; inversion Hk as [|? ? Hk0 Hk'];
    subst. cbn in *.
  destruct Hin as [[= -> ->]|Hin].
  - assert (Hs : has_key key v = true) by (now apply has_key_spec).
    rewrite Hs. f_equal. apply filter_has_key_absent; [split; assumption|].
    assumption.
  - destruct (has_key key v0) eqn:Hs.
    + apply has_key_spec in Hs.
      exfalso. apply Hfresh. replace k0 with key by congruence.
      apply in_map_iff. exists (key, v). auto.
    + apply IH; [split; assumption | assumption].
Qed.

(** ** One record of the inner loop *)

(** What one step of the inner loop does to the dictionary: nothing when
    the key is there, one entry at the end otherwise; it raises when the
    row has no key. *)
Lemma add_celebrant_eq (e : Z) (acc : dict) (c : Parkrunner) :
  add_celebrant e acc c
  = match generate_key c with
    | Ok key =>
        Ok (acc ++ (if contains key acc then []
                    else [(key, set_event_id e c)]))
    | Raise ex => Raise ex
    end.
Proof.
  unfold add_celebrant. destruct (generate_key c) as [key|ex];
    cbn [and_then]; [|reflexivity].
  destruct (contains key acc) eqn:H; cbn [negb].
  - now rewrite app_nil_r.
  - now rewrite setitem_absent.
Qed.

Lemma add_celebrant_present (e : Z) (acc : dict) (c : Parkrunner) (key : string) :
  generate_key c = Ok key ->
  contains key acc = true ->
  add_celebrant e acc c = Ok acc.
Proof.
  intros Hk Hc. rewrite add_celebrant_eq, Hk, Hc. now rewrite app_nil_r.
Qed.

Lemma well_keyed_snoc (acc : dict) (key : string) (v : Parkrunner) :
  well_keyed acc ->
  contains key acc = false ->
  generate_key v = Ok key ->
  well_keyed (acc ++ [(key, v)]).
Proof.
  intros [Hnd Hk] H Hv. apply contains_false_not_In in H. split.
  - rewrite map_app. simpl. now apply NoDup_snoc.
  - apply Forall_app. split; [assumption|].
    constructor; [exact Hv | constructor].
Qed.

Lemma listed_before_same_event (e : Z) (c c' : Parkrunner) :
  runs_le c c' ->
  listed_before (set_event_id e c) (set_event_id e c').
Proof. intros H. cbn. right. split; [reflexivity | exact H]. Qed.

(** The inner loop, from any dictionary: the entries it appends are
    stamped copies of rows it went through, in the order it went through
    them; the key of every row it went through is in the dictionary
    afterwards. *)
Lemma add_each_inv (e : Z) (l : list Parkrunner) :
  forall acc d : dict,
    add_each e l acc = Ok d ->
    exists added,
      d = acc ++ added
      /\ (forall k v, In (k, v) added ->
            exists c, In c l /\ generate_key c = Ok k /\ v = set_event_id e c)
      /\ (forall c, In c l ->
            exists k, generate_key c = Ok k /\ contains k d = true)
      /\ (well_keyed acc -> well_keyed d)
      /\ (StronglySorted runs_le l ->
          StronglySorted listed_before (map snd added)).
Proof.
  induction l as [|c l IH]; intros acc d; cbn [add_each].
  - intros [= <-]. exists []. rewrite app_nil_r. split; [reflexivity|].
    split; [intros k v []|]. split; [intros c []|].
    split; [auto | intros _; constructor].
  - rewrite add_celebrant_eq.
    destruct (generate_key c) as [key|ex] eqn:Hkey; cbn [and_then];
      [|discriminate].
    intros Hrest.
    destruct (IH _ _ Hrest) as (added & -> & Hnew & Hin & Hwk & Hord).
    set (one := if contains key acc then [] else [(key, set_event_id e c)]) in *.
    exists (one ++ added). rewrite app_assoc. split; [reflexivity|].
    assert (Hone : forall k v, In (k, v) one ->
              k = key /\ v = set_event_id e c /\ contains key acc = false).
    { subst one. intros k v. destruct (contains key acc); [intros []|].
      intros [[= <- <-]|[]]. auto. }
    split; [|split; [|split]].
    + intros k v Hkv. apply in_app_or in Hkv as [Hkv|Hkv].
      * destruct (Hone k v Hkv) as (-> & -> & _). exists c. cbn. auto.
      * destruct (Hnew k v Hkv) as (c' & Hc' & Hk & Hv). exists c'. cbn. auto.
    + intros c' [<-|Hc']; [|now apply Hin].
      exists key. split; [assumption|].
      rewrite contains_app. apply orb_true_iff. left.
      rewrite contains_app. subst one.
      destruct (contains key acc) eqn:Hc; [reflexivity|].
      cbn [contains]. now rewrite String.eqb_refl.
    + intros Hacc. apply Hwk. subst one.
      destruct (contains key acc) eqn:Hc; [now rewrite app_nil_r|].
      apply well_keyed_snoc; [assumption | assumption |].
      now rewrite generate_key_set_event_id.
    + intros Hs. inversion Hs as [|? ? Hs' Hall]; subst.
      rewrite map_app. subst one.
      destruct (contains key acc); [now apply Hord|].
      cbn [map snd app]. constructor; [now apply Hord|].
      apply Forall_forall. intros v Hv.
      apply in_map_iff in Hv as ([k v'] & Hsnd & Hkv). cbn in Hsnd. subst v'.
      destruct (Hnew k v Hkv) as (c' & Hc' & _ & ->).
      apply listed_before_same_event.
      rewrite Forall_forall in Hall. now apply Hall.
Qed.

Lemma add_each_total (e : Z) (l : list Parkrunner) :
  forall acc : dict,
    Forall (fun c => exists k, generate_key c = Ok k) l ->
    exists d, add_each e l acc = Ok d.
Proof.
  induction l as [|c l IH]; intros acc H; cbn [add_each]; [eauto|].
  inversion H as [|? ? [k Hk] Hl]; subst.
  rewrite add_celebrant_eq, Hk. cbn [and_then]. now apply IH.
Qed.

(** A row without a key stops the inner loop. *)
Lemma add_each_raises (e : Z) (l : list Parkrunner) :
  forall (acc : dict) (ex : exn),
    add_each e l acc = Raise ex ->
    exists c, In c l /\ generate_key c = Raise ex.
Proof.
  induction l as [|c l IH]; intros acc ex; cbn [add_each]; [discriminate|].
  rewrite add_celebrant_eq.
  destruct (generate_key c) as [key|ex'] eqn:Hkey; cbn [and_then].
  - intros H. destruct (IH _ _ H) as (c' & Hc' & Hex). exists c'. cbn. auto.
  - intros [= <-]. exists c. cbn. auto.
Qed.

(** ** Sorting *)

Lemma insert_by_Permutation {A : Type} (key : A -> Z) (x : A) (l : list A) :
  Permutation (insert_by key x l) (x :: l).
Proof.
  induction l as [|y l IH]; cbn [insert_by]; [reflexivity|].
  destruct (key x <=? key y); [reflexivity|].
  rewrite IH. apply perm_swap.
Qed.

Lemma sorted_by_Permutation {A : Type} (key : A -> Z) (l : list A) :
  Permutation (sorted_by key l) l.
Proof.
  induction l as [|x l IH]; cbn [sorted_by]; [reflexivity|].
  rewrite insert_by_Permutation. now constructor.
Qed.

Lemma insert_by_StronglySorted {A : Type} (key : A -> Z) (x : A) (l : list A) :
  StronglySorted (fun a b => key a <= key b) l ->
  StronglySorted (fun a b => key a <= key b) (insert_by key x l).
Proof.
  induction l as [|y l IH]; intros Hs; cbn [insert_by].
  - repeat constructor.
  - inversion Hs as [|? ? Hs' Hall]; subst.
    destruct (Z.leb_spec (key x) (key y)) as [Hle|Hgt].
    + constructor; [assumption|]. constructor; [exact Hle|].
      eapply Forall_impl; [|exact Hall]. cbn. intros a Ha. lia.
    + constructor; [now apply IH|].
      apply Forall_forall. intros a Ha.
      apply (Permutation_in _ (insert_by_Permutation key x l)) in Ha.
      destruct Ha as [<-|Ha]; [lia|].
      rewrite Forall_forall in Hall. now apply Hall.
Qed.

Lemma sorted_by_StronglySorted {A : Type} (key : A -> Z) (l : list A) :
  StronglySorted (fun a b => key a <= key b) (sorted_by key l).
Proof.
  induction l as [|x l IH]; cbn [sorted_by];
    [constructor | now apply insert_by_StronglySorted].
Qed.

Lemma insert_by_stable {A : Type} (key : A -> Z) (k : Z) (x : A) (l : list A) :
  filter (fun r => key r =? k) (insert_by key x l)
  = filter (fun r => key r =? k) (x :: l).
Proof.
  induction l as [|y l IH]; cbn [insert_by]; [reflexivity|].
  destruct (Z.leb_spec (key x) (key y)) as [Hle|Hgt]; [reflexivity|].
  cbn [filter] in *. rewrite IH.
  destruct (Z.eqb_spec (key y) k) as [Hy|Hy];
    destruct (Z.eqb_spec (key x) k) as [Hx|Hx]; try reflexivity.
  lia.
Qed.

Lemma sorted_by_stable {A : Type} (key : A -> Z) (k : Z) (l : list A) :
  filter (fun r => key r =? k) (sorted_by key l)
  = filter (fun r => key r =? k) l.
Proof.
  induction l as [|x l IH]; cbn [sorted_by]; [reflexivity|].
  rewrite insert_by_stable. cbn [filter]. now rewrite IH.
Qed.

Lemma decorate_inv (key : Parkrunner -> result Z) (l : list Parkrunner) :
  forall decorated,
    decorate key l = Ok decorated ->
    map snd decorated = l
    /\ Forall (fun kx => key (snd kx) = Ok (fst kx)) decorated.
Proof.
  induction l as [|x l IH]; intros decorated; cbn [decorate].
  - intros [= <-]. split; [reflexivity | constructor].
  - destruct (key x) as [k|ex] eqn:Hk; cbn [and_then]; [|discriminate].
    destruct (decorate key l) as [rest|ex]; cbn [and_then]; [|discriminate].
    intros [= <-]. destruct (IH rest eq_refl) as [Hm Hf].
    split; [cbn; now rewrite Hm | constructor; assumption].
Qed.

Lemma decorate_total (key : Parkrunner -> result Z) (l : list Parkrunner) :
  Forall (fun x => exists n, key x = Ok n) l ->
  exists decorated, decorate key l = Ok decorated.
Proof.
  induction l as [|x l IH]; intros H; cbn [decorate]; [eauto|].
  inversion H as [|? ? [n Hn] Hl]; subst.
  destruct (IH Hl) as [rest Hrest]. rewrite Hn, Hrest. cbn [and_then]. eauto.
Qed.

Lemma decorate_raises (key : Parkrunner -> result Z) (l : list Parkrunner)
    (ex : exn) :
  decorate key l = Raise ex -> exists x, In x l /\ key x = Raise ex.
Proof.
  induction l as [|x l IH]; cbn [decorate]; [discriminate|].
  destruct (key x) as [k|ex'] eqn:Hk; cbn [and_then].
  - destruct (decorate key l) as [rest|ex']; cbn [and_then]; [discriminate|].
    intros [= <-]. destruct (IH eq_refl) as (y & Hy & Hex). exists y. cbn. auto.
  - intros [= <-]. exists x. cbn. auto.
Qed.

Lemma filter_map_snd {A B : Type} (f : B -> bool) (l : list (A * B)) :
  filter f (map snd l) = map snd (filter (fun kx => f (snd kx)) l).
Proof.
  induction l as [|[k x] l IH]; cbn; [reflexivity|].
  destruct (f x); cbn; now rewrite IH.
Qed.

Lemma decorated_StronglySorted (key : Parkrunner -> result Z)
    (l : list (Z * Parkrunner)) :
  StronglySorted (fun a b => fst a <= fst b) l ->
  Forall (fun kx => key (snd kx) = Ok (fst kx)) l ->
  StronglySorted (key_le key) (map snd l).
Proof.
  induction 1 as [|kx rest Hs IH Hall]; intros Hf; cbn [map]; [constructor|].
  inversion Hf as [|? ? Hkx Hrest]; subst.
  constructor; [now apply IH|].
  apply Forall_forall. intros y Hy.
  apply in_map_iff in Hy as (ky & <- & Hky).
  rewrite Forall_forall in Hall, Hrest.
  exists (fst kx), (fst ky). split; [assumption|].
  split; [now apply Hrest | now apply Hall].
Qed.

(** [sorted] is the stable ascending sort: its result rearranges the
    input, is ordered by the key, and keeps rows with the same key in
    their order. *)
Lemma sorted_inv (key : Parkrunner -> result Z) (l ordered : list Parkrunner) :
  sorted key l = Ok ordered ->
  Permutation ordered l
  /\ StronglySorted (key_le key) ordered
  /\ (forall k, filter (key_is key k) ordered = filter (key_is key k) l).
Proof.
  unfold sorted.
  destruct (decorate key l) as [decorated|ex] eqn:Hd; cbn [and_then];
    [|discriminate].
  intros [= <-]. destruct (decorate_inv _ _ _ Hd) as [Hm Hf].
  pose proof (sorted_by_Permutation fst decorated) as Hperm.
  assert (Hf' : Forall (fun kx => key (snd kx) = Ok (fst kx))
                  (sorted_by fst decorated)).
  { apply Forall_forall. intros kx Hkx. rewrite Forall_forall in Hf.
    apply Hf. now apply (Permutation_in _ Hperm). }
  split; [|split].
  - rewrite <- Hm. now apply Permutation_map.
  - apply decorated_StronglySorted; [apply sorted_by_StronglySorted | exact Hf'].
  - intros k. rewrite <- Hm, !filter_map_snd. f_equal.
    rewrite (filter_ext_in (fun kx => key_is key k (snd kx))
               (fun kx => fst kx =? k) (sorted_by fst decorated)).
    + rewrite sorted_by_stable. apply filter_ext_in.
      intros kx Hkx. rewrite Forall_forall in Hf. unfold key_is.
      now rewrite (Hf kx Hkx).
    + intros kx Hkx. rewrite Forall_forall in Hf'. unfold key_is.
      now rewrite (Hf' kx Hkx).
Qed.

Lemma sorted_total (key : Parkrunner -> result Z) (l : list Parkrunner) :
  Forall (fun x => exists n, key x = Ok n) l ->
  exists ordered, sorted key l = Ok ordered.
Proof.
  intros H. destruct (decorate_total key l H) as [decorated Hd].
  unfold sorted. rewrite Hd. cbn [and_then]. eauto.
Qed.

Lemma sorted_raises (key : Parkrunner -> result Z) (l : list Parkrunner)
    (ex : exn) :
  sorted key l = Raise ex -> exists x, In x l /\ key x = Raise ex.
Proof.
  unfold sorted.
  destruct (decorate key l) as [decorated|ex'] eqn:Hd; cbn [and_then];
    [discriminate|].
  intros [= <-]. now apply decorate_raises.
Qed.

Lemma key_le_runs (a b : Parkrunner) : key_le runs_key a b <-> runs_le a b.
Proof.
  unfold key_le, runs_le. split; intros (m & n & Ha & Hb & Hle);
    exists m, n; (split; [|split]); try assumption;
    now apply runs_key_runs_of.
Qed.

(** ** One event of the scan *)

Lemma add_celebrants_inv (e : Z) (rows : list Parkrunner) (acc d : dict) :
  add_celebrants e rows acc = Ok d ->
  exists added,
    d = acc ++ added
    /\ (forall k v, In (k, v) added ->
          exists c, In c rows /\ generate_key c = Ok k /\ v = set_event_id e c)
    /\ (forall c, In c rows ->
          exists k, generate_key c = Ok k /\ contains k d = true)
    /\ (well_keyed acc -> well_keyed d)
    /\ StronglySorted listed_before (map snd added).
Proof.
  unfold add_celebrants.
  destruct (sorted runs_key rows) as [ordered|ex] eqn:Hs; cbn [and_then];
    [|discriminate].
  intros Hadd. destruct (sorted_inv _ _ _ Hs) as (Hperm & Hord & _).
  destruct (add_each_inv e ordered acc d Hadd)
    as (added & -> & Hnew & Hin & Hwk & Hsorted).
  exists added. split; [reflexivity|]. split; [|split; [|split]].
  - intros k v Hkv. destruct (Hnew k v Hkv) as (c & Hc & Hk & Hv).
    exists c. split; [now apply (Permutation_in _ Hperm) | auto].
  - intros c Hc. apply Hin. now apply (Permutation_in _ (Permutation_sym Hperm)).
  - exact Hwk.
  - apply Hsorted. clear -Hord.
    induction Hord as [|a l Hl IH Hall]; constructor; [assumption|].
    eapply Forall_impl; [|exact Hall]. intros b. apply key_le_runs.
Qed.

(** The inner loop goes through when every row has a run count and a
    key. *)
Lemma add_celebrants_total (e : Z) (rows : list Parkrunner) (acc : dict) :
  Forall (fun c => exists n, runs_of c = Some n) rows ->
  Forall (fun c => exists k, generate_key c = Ok k) rows ->
  exists d, add_celebrants e rows acc = Ok d.
Proof.
  intros Hruns Hkeys. unfold add_celebrants.
  destruct (sorted_total runs_key rows) as [ordered Hs].
  { eapply Forall_impl; [|exact Hruns]. intros c [n Hn]. exists n.
    now apply runs_key_runs_of. }
  rewrite Hs. cbn [and_then]. apply add_each_total.
  destruct (sorted_inv _ _ _ Hs) as (Hperm & _ & _).
  apply Forall_forall. intros c Hc. rewrite Forall_forall in Hkeys.
  apply Hkeys. now apply (Permutation_in _ Hperm).
Qed.

(** A later pass over rows whose keys are all in the dictionary changes
    nothing. *)
Lemma add_each_present (e : Z) (l : list Parkrunner) (d : dict) :
  (forall c, In c l -> exists k, generate_key c = Ok k /\ contains k d = true) ->
  add_each e l d = Ok d.
Proof.
  induction l as [|c l IH]; intros H; cbn [add_each]; [reflexivity|].
  destruct (H c) as (k & Hk & Hc); [now left|].
  rewrite (add_celebrant_present e d c k Hk Hc). cbn [and_then].
  apply IH. intros c' Hc'. apply H. now right.
Qed.

(** ** What the rows carry under ["data-event-id"] *)

Lemma add_celebrant_unstamp (e : Z) (acc : dict) (c : Parkrunner) :
  add_celebrant e acc (unstamp c) = add_celebrant e acc c.
Proof. reflexivity. Qed.

Lemma check_milestone_unstamp (c : Parkrunner) :
  check_milestone (unstamp c) = check_milestone c.
Proof. reflexivity. Qed.

Lemma runs_key_unstamp (c : Parkrunner) : runs_key (unstamp c) = runs_key c.
Proof. reflexivity. Qed.

Lemma decorate_unstamp (l : list Parkrunner) :
  decorate runs_key (map unstamp l)
  = match decorate runs_key l with
    | Ok decorated => Ok (map (fun kx => (fst kx, unstamp (snd kx))) decorated)
    | Raise ex => Raise ex
    end.
Proof.
  induction l as [|x l IH]; cbn [decorate map]; [reflexivity|].
  rewrite runs_key_unstamp. destruct (runs_key x) as [k|ex]; cbn [and_then];
    [|reflexivity].
  rewrite IH. now destruct (decorate runs_key l).
Qed.

Lemma insert_by_map {A B : Type} (f : A -> B) (key : A -> Z) (key' : B -> Z)
    (x : A) (l : list A) :
  (forall a, key' (f a) = key a) ->
  insert_by key' (f x) (map f l) = map f (insert_by key x l).
Proof.
  intros H. induction l as [|y l IH]; cbn [insert_by map]; [reflexivity|].
  rewrite !H. destruct (key x <=? key y); cbn [map]; [reflexivity|].
  now rewrite IH.
Qed.

Lemma sorted_by_map {A B : Type} (f : A -> B) (key : A -> Z) (key' : B -> Z)
    (l : list A) :
  (forall a, key' (f a) = key a) ->
  sorted_by key' (map f l) = map f (sorted_by key l).
Proof.
  intros H. induction l as [|x l IH]; cbn [sorted_by map]; [reflexivity|].
  now rewrite IH, (insert_by_map f key key').
Qed.

Lemma sorted_unstamp (l : list Parkrunner) :
  sorted runs_key (map unstamp l)
  = match sorted runs_key l with
    | Ok ordered => Ok (map unstamp ordered)
    | Raise ex => Raise ex
    end.
Proof.
  unfold sorted. rewrite decorate_unstamp.
  destruct (decorate runs_key l) as [decorated|ex]; cbn [and_then];
    [|reflexivity].
  f_equal.
  rewrite (sorted_by_map (fun kx : Z * Parkrunner => (fst kx, unstamp (snd kx)))
             fst fst) by reflexivity.
  rewrite !map_map. reflexivity.
Qed.

Lemma add_each_unstamp (e : Z) (l : list Parkrunner) (acc : dict) :
  add_each e (map unstamp l) acc = add_each e l acc.
Proof.
  revert acc. induction l as [|x l IH]; intros acc; cbn [add_each map];
    [reflexivity|].
  rewrite add_celebrant_unstamp.
  destruct (add_celebrant e acc x); cbn [and_then]; [apply IH | reflexivity].
Qed.

(** The inner loop never reads what a row carries under
    ["data-event-id"]. *)
Lemma add_celebrants_unstamp (e : Z) (rows : list Parkrunner) (acc : dict) :
  add_celebrants e (map unstamp rows) acc = add_celebrants e rows acc.
Proof.
  unfold add_celebrants. rewrite sorted_unstamp.
  destruct (sorted runs_key rows); cbn [and_then]; [|reflexivity].
  apply add_each_unstamp.
Qed.

Lemma milestone_rows_unstamp (rows : list Parkrunner) :
  milestone_rows (map unstamp rows)
  = match milestone_rows rows with
    | Ok next => Ok (map unstamp next)
    | Raise ex => Raise ex
    end.
Proof.
  induction rows as [|x rows IH]; cbn [milestone_rows map]; [reflexivity|].
  rewrite check_milestone_unstamp.
  destruct (check_milestone x) as [b|ex]; cbn [and_then]; [|reflexivity].
  rewrite IH. destruct (milestone_rows rows) as [next|ex]; cbn [and_then];
    [|reflexivity].
  now destruct b.
Qed.

(** ** The rows a fetch keeps *)

Lemma milestone_rows_In (rows next : list Parkrunner) (c : Parkrunner) :
  milestone_rows rows = Ok next ->
  (In c next <-> In c rows /\ check_milestone c = Ok true).
Proof.
  revert next. induction rows as [|x rows IH]; intros next;
    cbn [milestone_rows].
  - intros [= <-]. cbn. tauto.
  - destruct (check_milestone x) as [b|ex] eqn:Hx; cbn [and_then];
      [|discriminate].
    destruct (milestone_rows rows) as [rest|ex]; cbn [and_then];
      [|discriminate].
    intros [= <-]. specialize (IH rest eq_refl). destruct b; cbn [In].
    + rewrite IH. split.
      * intros [<-|[H1 H2]]; auto.
      * intros [[<-|H1] H2]; auto.
    + rewrite IH. split.
      * intros [H1 H2]. auto.
      * intros [[<-|H1] H2]; [congruence | auto].
Qed.

Lemma milestone_rows_classified (rows next : list Parkrunner) :
  milestone_rows rows = Ok next ->
  Forall (fun c => exists b, check_milestone c = Ok b) rows.
Proof.
  revert next. induction rows as [|x rows IH]; intros next;
    cbn [milestone_rows]; [constructor|].
  destruct (check_milestone x) as [b|ex] eqn:Hx; cbn [and_then];
    [|discriminate].
  destruct (milestone_rows rows) as [rest|ex]; cbn [and_then];
    [|discriminate].
  intros _. constructor; [eauto | now apply (IH rest)].
Qed.

Lemma milestone_rows_total (rows : list Parkrunner) :
  Forall (fun c => exists b, check_milestone c = Ok b) rows ->
  exists next, milestone_rows rows = Ok next.
Proof.
  induction rows as [|x rows IH]; intros H; cbn [milestone_rows]; [eauto|].
  inversion H as [|? ? [b Hb] Hrows]; subst.
  destruct (IH Hrows) as [rest Hrest]. rewrite Hb, Hrest. cbn [and_then]. eauto.
Qed.

(** The comprehension raises what the classifier raises on the first row
    on which it raises. *)
Lemma milestone_rows_raises (rows : list Parkrunner) (ex : exn) :
  milestone_rows rows = Raise ex
  <-> exists before finisher after,
        rows = before ++ finisher :: after
        /\ Forall (fun c => exists b, check_milestone c = Ok b) before
        /\ check_milestone finisher = Raise ex.
Proof.
  induction rows as [|x rows IH]; cbn [milestone_rows].
  - split; [discriminate|].
    intros (before & f & after & H & _). now destruct before.
  - destruct (check_milestone x) as [b|ex'] eqn:Hx; cbn [and_then].
    + destruct (milestone_rows rows) as [rest|ex'] eqn:Hrest; cbn [and_then].
      * split; [discriminate|].
        intros (before & f & after & H & Hb & Hf).
        destruct before as [|y before]; cbn in H; injection H as <- ->.
        -- congruence.
        -- inversion Hb; subst.
           assert (Hr : @Ok (list Parkrunner) rest = Raise ex);
             [|discriminate Hr].
           apply IH. eauto 6.
      * split.
        -- intros [= <-]. destruct (proj1 IH eq_refl)
             as (before & f & after & -> & Hb & Hf).
           exists (x :: before), f, after. split; [reflexivity|].
           split; [constructor; eauto | assumption].
        -- intros (before & f & after & H & Hb & Hf).
           destruct before as [|y before]; cbn in H; injection H as <- ->.
           ++ congruence.
           ++ inversion Hb; subst. f_equal.
              assert (Hr : Raise ex' = @Raise (list Parkrunner) ex)
                by (apply IH; eauto 6).
              now injection Hr.
    + split.
      * intros [= <-]. exists [], x, rows. split; [reflexivity|].
        split; [constructor | assumption].
      * intros (before & f & after & H & Hb & Hf).
        destruct before as [|y before]; cbn in H; injection H as <- ->.
        -- congruence.
        -- inversion Hb as [|? ? [b Hy] ?]; subst. congruence.
Qed.

(** A row on which the classifier raises makes the comprehension raise. *)
Lemma milestone_rows_raises_In (rows : list Parkrunner) (c : Parkrunner)
    (ex : exn) :
  In c rows -> check_milestone c = Raise ex ->
  exists ex', milestone_rows rows = Raise ex'.
Proof.
  intros Hin Hc. destruct (milestone_rows rows) as [next|ex'] eqn:H; [|eauto].
  apply milestone_rows_classified in H. rewrite Forall_forall in H.
  destruct (H c Hin) as [b Hb]. congruence.
Qed.

(** The rows the fetch keeps all have a run count. *)
Lemma milestone_rows_runs (rows next : list Parkrunner) :
  milestone_rows rows = Ok next ->
  Forall (fun c => exists n, runs_of c = Some n) next.
Proof.
  intros H. apply Forall_forall. intros c Hc.
  apply (milestone_rows_In rows next c H) in Hc as [_ Hc].
  exact (check_milestone_runs c true Hc).
Qed.

Lemma complete_milestone_rows (rows : list Parkrunner) :
  Forall complete rows ->
  exists next, milestone_rows rows = Ok next /\ Forall complete next.
Proof.
  intros H. destruct (milestone_rows_total rows) as [next Hnext].
  { eapply Forall_impl; [|exact H]. apply complete_check_milestone. }
  exists next. split; [assumption|].
  apply Forall_forall. intros c Hc.
  apply (milestone_rows_In rows next c Hnext) in Hc as [Hc _].
  rewrite Forall_forall in H. now apply H.
Qed.

Lemma complete_runs (p : Parkrunner) :
  complete p -> exists n, runs_of p = Some n.
Proof.
  unfold complete, triple. intros [t H].
  destruct (runs_of p); [eauto | discriminate].
Qed.

(** From rows that are complete the inner loop goes through. *)
Lemma complete_add_celebrants (e : Z) (rows : list Parkrunner) (acc : dict) :
  Forall complete rows ->
  exists d, add_celebrants e rows acc = Ok d.
Proof.
  intros H. apply add_celebrants_total.
  - eapply Forall_impl; [|exact H]. apply complete_runs.
  - eapply Forall_impl; [|exact H]. apply complete_generate_key.
Qed.

(** ** The fetch *)

Lemma truthy_idem (event_id : option Z) : truthy (truthy event_id) = truthy event_id.
Proof.
  destruct event_id as [e|]; simpl; [|reflexivity].
  destruct (e =? 0) eqn:H; simpl; [reflexivity | now rewrite H].
Qed.

Lemma truthy_Some (e : Z) : e <> 0 -> truthy (Some e) = Some e.
Proof. intros H. simpl. now apply Z.eqb_neq in H as ->. Qed.

(** The fetch writes one log record, asks for one URL, and its outcome
    depends on the network through that URL alone. *)
Lemma fetch_unfold (http : Http) (location : LocationEnum) (event_id : option Z) :
  fetch_upcoming_milestones_from_event http location event_id
  = ([Fetching (truthy event_id) (request_url location event_id)],
     match http (request_url location event_id) with
     | None => Raise RequestException
     | Some response =>
         if status_code response =? 200 then
           match Results_table response with
           | None => Raise AttributeError
           | Some rows =>
               match milestone_rows rows with
               | Raise ex => Raise ex
               | Ok next_celebrants =>
                   match truthy event_id with
                   | Some e => Ok (next_celebrants, e)
                   | None =>
                       match Results_header response with
                       | Some e => Ok (next_celebrants, e)
                       | None => Raise HeaderError
                       end
                   end
               end
           end
         else Raise (AssertionError (status_code response))
     end).
Proof.
  unfold fetch_upcoming_milestones_from_event, request_url.
  destruct (truthy event_id) as [e|]; simpl;
    unfold requests_get;
    match goal with |- context [http ?u] => destruct (http u) as [response|] end;
    simpl; try reflexivity;
    destruct (status_code response =? 200); simpl; try reflexivity;
    destruct (Results_table response) as [rows|]; simpl; try reflexivity;
    destruct (milestone_rows rows); simpl; try reflexivity;
    destruct (Results_header response); reflexivity.
Qed.

Lemma fetch_truthy (http : Http) (location : LocationEnum) (event_id : option Z) :
  fetch_upcoming_milestones_from_event http location (truthy event_id)
  = fetch_upcoming_milestones_from_event http location event_id.
Proof.
  rewrite !fetch_unfold. unfold request_url. now rewrite !truthy_idem.
Qed.

Lemma request_url_truthy (location : LocationEnum) (event_id : option Z) :
  request_url location (truthy event_id) = request_url location event_id.
Proof. unfold request_url. now rewrite truthy_idem. Qed.

Lemma fetch_latest_ok (http : Http) (location : LocationEnum)
    (rows next : list Parkrunner) (e : Z) :
  latest_ok http location rows e ->
  milestone_rows rows = Ok next ->
  fetch_upcoming_milestones_from_event http location None
  = ([Fetching None (LATEST_RESULTS_URL location)], Ok (next, e)).
Proof.
  intros (response & Hget & Hstatus & Htable & Hheader) Hnext.
  rewrite fetch_unfold. unfold request_url. simpl.
  now rewrite Hget, Hstatus, Htable, Hnext, Hheader.
Qed.

Lemma fetch_event_ok (http : Http) (location : LocationEnum)
    (rows next : list Parkrunner) (e : Z) :
  e <> 0 ->
  page_ok http (EVENT_RESULTS_URL location e) rows ->
  milestone_rows rows = Ok next ->
  fetch_upcoming_milestones_from_event http location (Some e)
  = ([Fetching (Some e) (EVENT_RESULTS_URL location e)], Ok (next, e)).
Proof.
  intros He (response & Hget & Hstatus & Htable) Hnext.
  rewrite fetch_unfold. unfold request_url. rewrite (truthy_Some e He).
  now rewrite Hget, Hstatus, Htable, Hnext.
Qed.

(** A fetch that names an event returns that very event number. *)
Lemma fetch_event_id (http : Http) (location : LocationEnum) (e e' : Z)
    (rows : list Parkrunner) :
  e <> 0 ->
  outcome (fetch_upcoming_milestones_from_event http location (Some e))
  = Ok (rows, e') ->
  e' = e.
Proof.
  intros He. rewrite fetch_unfold, outcome_pair.
  rewrite (truthy_Some e He).
  destruct (http _) as [response|]; [|discriminate].
  destruct (status_code response =? 200); [|discriminate].
  destruct (Results_table response) as [table|]; [|discriminate].
  destruct (milestone_rows table); [|discriminate].
  now intros [= _ <-].
Qed.

(** What a fetch that returns has found. *)
Lemma fetch_ok_inv (http : Http) (location : LocationEnum) (event_id : option Z)
    (next : list Parkrunner) (e : Z) :
  outcome (fetch_upcoming_milestones_from_event http location event_id)
  = Ok (next, e) ->
  exists rows,
    page_ok http (request_url location event_id) rows
    /\ milestone_rows rows = Ok next
    /\ resolves http location event_id e.
Proof.
  rewrite fetch_unfold, outcome_pair. unfold page_ok, resolves, request_url.
  destruct (truthy event_id) as [e'|];
    match goal with |- context [http ?u] =>
      destruct (http u) as [response|] eqn:Hget end; try discriminate;
    destruct (status_code response =? 200) eqn:Hstatus; try discriminate;
    apply Z.eqb_eq in Hstatus;
    destruct (Results_table response) as [rows|] eqn:Htable; try discriminate;
    destruct (milestone_rows rows) as [next'|] eqn:Hnext; try discriminate.
  - intros [= <- <-]. exists rows. eauto 6.
  - destruct (Results_header response) as [h|] eqn:Hh; [|discriminate].
    intros [= <- <-]. exists rows. eauto 10.
Qed.

Lemma fetch_ok_rows (http : Http) (location : LocationEnum) (event_id : option Z)
    (next : list Parkrunner) (e : Z) :
  outcome (fetch_upcoming_milestones_from_event http location event_id)
  = Ok (next, e) ->
  Forall (fun c => exists n, runs_of c = Some n) next.
Proof.
  intros H. destruct (fetch_ok_inv _ _ _ _ _ H) as (rows & _ & Hnext & _).
  exact (milestone_rows_runs rows next Hnext).
Qed.

Lemma page_ok_functional (http : Http) (url : string)
    (rows rows' : list Parkrunner) :
  page_ok http url rows -> page_ok http url rows' -> rows = rows'.
Proof.
  intros (r & Hr & _ & Ht) (r' & Hr' & _ & Ht'). congruence.
Qed.

(** How a fetch fails, case by case in the order of the source. *)
Lemma fetch_raises_cases (http : Http) (location : LocationEnum)
    (event_id : option Z) (ex : exn) :
  outcome (fetch_upcoming_milestones_from_event http location event_id) = Raise ex
  <-> (http (request_url location event_id) = None /\ ex = RequestException)
      \/ exists response,
           http (request_url location event_id) = Some response
           /\ ((status_code response <> 200
                /\ ex = AssertionError (status_code response))
               \/ (status_code response = 200
                   /\ Results_table response = None
                   /\ ex = AttributeError)
               \/ (status_code response = 200
                   /\ exists rows,
                        Results_table response = Some rows
                        /\ milestone_rows rows = Raise ex)
               \/ (status_code response = 200
                   /\ (exists rows next,
                         Results_table response = Some rows
                         /\ milestone_rows rows = Ok next)
                   /\ truthy event_id = None
                   /\ Results_header response = None
                   /\ ex = HeaderError)).
Proof.
  rewrite fetch_unfold, outcome_pair.
  destruct (http (request_url location event_id)) as [response|].
  - split.
    + intros H. right. exists response. split; [reflexivity|].
      destruct (Z.eqb_spec (status_code response) 200) as [Hs|Hs];
        [|injection H as <-; left; auto].
      right. destruct (Results_table response) as [rows|];
        [|injection H as <-; left; auto].
      right. destruct (milestone_rows rows) as [next|ex'] eqn:Hrows;
        [|injection H as <-; left; eauto].
      right. destruct (truthy event_id) as [e|]; [discriminate H|].
      destruct (Results_header response) as [h|]; [discriminate H|].
      injection H as <-. split; [assumption|]. split; [eauto|]. auto.
    + intros [[Hn _]|(r & Hr & Hcase)]; [discriminate Hn|].
      injection Hr as <-.
      destruct Hcase as [[Hs ->]|[(Hs & Ht & ->)|[(Hs & rows & Ht & Hrows)
                        |(Hs & (rows & next & Ht & Hrows) & Htr & Hh & ->)]]].
      * apply Z.eqb_neq in Hs. now rewrite Hs.
      * now rewrite Hs, Ht.
      * now rewrite Hs, Ht, Hrows.
      * now rewrite Hs, Ht, Hrows, Htr, Hh.
  - split.
    + intros [= <-]. left. auto.
    + intros [[_ ->]|(r & Hr & _)]; [reflexivity | discriminate Hr].
Qed.

(** The fetch fails exactly on the pages that [page_fails] describes. *)
Lemma page_fails_raises (http : Http) (location : LocationEnum)
    (event_id : option Z) :
  page_fails http location event_id
  <-> raises (fetch_upcoming_milestones_from_event http location event_id).
Proof.
  unfold page_fails, raises. rewrite fetch_unfold, outcome_pair.
  destruct (http (request_url location event_id)) as [response|];
    [|split; eauto].
  destruct (Z.eqb_spec (status_code response) 200) as [Hs|Hs].
  2: { split; [eauto | intros _; now left]. }
  destruct (Results_table response) as [rows|].
  2: { split; [eauto | intros _; right; now left]. }
  destruct (milestone_rows rows) as [next|ex] eqn:Hrows.
  - assert (Hno : ~ exists rows0 finisher ex,
               Some rows = Some rows0 /\ In finisher rows0
               /\ check_milestone finisher = Raise ex).
    { intros (rows0 & f & ex & [= <-] & Hin & Hf).
      destruct (milestone_rows_raises_In rows f ex Hin Hf) as [ex' H].
      congruence. }
    destruct (truthy event_id) as [e|].
    + split.
      * intros [H|[H|[H|[H _]]]]; try contradiction; discriminate.
      * intros [ex H]. discriminate H.
    + destruct (Results_header response) as [h|].
      * split.
        -- intros [H|[H|[H|[_ H]]]]; try contradiction; discriminate.
        -- intros [ex H]. discriminate H.
      * split; [eauto | intros _; right; right; right; auto].
  - split; [eauto|]. intros _. right. right. left.
    apply milestone_rows_raises in Hrows as (before & f & after & -> & _ & Hf).
    exists (before ++ f :: after), f, ex. split; [reflexivity|].
    split; [apply in_or_app; right; now left | assumption].
Qed.

(** Two networks that answer alike at the URL asked for give the same
    fetch, up to what the rows carry under ["data-event-id"]. *)
Lemma fetch_same_answer (http1 http2 : Http) (location : LocationEnum)
    (event_id : option Z) :
  same_answer (http1 (request_url location event_id))
              (http2 (request_url location event_id)) ->
  log_of (fetch_upcoming_milestones_from_event http1 location event_id)
  = log_of (fetch_upcoming_milestones_from_event http2 location event_id)
  /\ same_fetched
       (outcome (fetch_upcoming_milestones_from_event http1 location event_id))
       (outcome (fetch_upcoming_milestones_from_event http2 location event_id)).
Proof.
  rewrite !fetch_unfold, !log_of_pair, !outcome_pair. unfold same_answer.
  intros H. split; [reflexivity|].
  destruct (http1 _) as [[s1 t1 h1]|], (http2 _) as [[s2 t2 h2]|];
    try discriminate; [|reflexivity].
  injection H as Hs Ht Hh. cbn [status_code Results_table Results_header] in *.
  subst s2 h2.
  destruct (s1 =? 200); [|reflexivity].
  destruct t1 as [rows1|], t2 as [rows2|]; try discriminate; [|reflexivity].
  injection Ht as Ht.
  pose proof (milestone_rows_unstamp rows1) as H1.
  pose proof (milestone_rows_unstamp rows2) as H2.
  rewrite Ht in H1. rewrite H1 in H2. clear H1.
  destruct (milestone_rows rows1) as [next1|ex1],
    (milestone_rows rows2) as [next2|ex2]; try discriminate;
    [|injection H2 as ->; reflexivity].
  injection H2 as H2.
  destruct (truthy event_id); [now split|].
  destruct h1; [now split | reflexivity].
Qed.

(** ** The loop *)

Lemma scan_loop_step (http : Http) (location : LocationEnum) (n : nat)
    (event_id : option Z) (acc : dict) :
  scan_loop http location (S n) event_id acc
  = let entry := Fetching (truthy event_id) (request_url location event_id) in
    match outcome (fetch_upcoming_milestones_from_event http location event_id) with
    | Raise ex => ([entry], Raise ex)
    | Ok (rows, e) =>
        match add_celebrants e rows acc with
        | Raise ex => ([entry], Raise ex)
        | Ok acc' =>
            if e - 1 =? 0 then ([entry], Ok acc')
            else (entry :: log_of (scan_loop http location n (Some (e - 1)) acc'),
                  outcome (scan_loop http location n (Some (e - 1)) acc'))
        end
    end.
Proof.
  cbn [scan_loop]. rewrite fetch_unfold. unfold outcome, log_of, bind. cbn [snd fst].
  match goal with |- context [match ?r with Ok _ => _ | Raise _ => _ end] =>
    destruct r as [[rows e]|ex] end; [|reflexivity].
  cbn zeta. unfold lift.
  destruct (add_celebrants e rows acc) as [acc'|ex]; [|reflexivity].
  destruct (e - 1 =? 0); [reflexivity|].
  destruct (scan_loop http location n (Some (e - 1)) acc').
  reflexivity.
Qed.

Lemma detect_milestones_unfold (http : Http) (location : LocationEnum)
    (events_limit : Z) :
  detect_milestones http location events_limit
  = (log_of (scan_loop http location (Z.to_nat events_limit) None []),
     match outcome (scan_loop http location (Z.to_nat events_limit) None []) with
     | Ok all_celebrants => Ok (values all_celebrants)
     | Raise ex => Raise ex
     end).
Proof.
  unfold detect_milestones, bind, log_of, outcome, ret.
  destruct (scan_loop http location (Z.to_nat events_limit) None []) as [l [d|ex]];
    cbn [fst snd]; [now rewrite app_nil_r | reflexivity].
Qed.

(** One iteration whose fetch and inner loop are known to go through: the
    last one when the decremented event number is 0, otherwise followed by
    the rest. *)
Lemma scan_loop_last (http : Http) (location : LocationEnum) (n : nat)
    (event_id : option Z) (acc acc' : dict) (log : list log_record)
    (rows : list Parkrunner) (e : Z) :
  fetch_upcoming_milestones_from_event http location event_id
  = (log, Ok (rows, e)) ->
  add_celebrants e rows acc = Ok acc' ->
  e - 1 = 0 ->
  scan_loop http location (S n) event_id acc = (log, Ok acc').
Proof.
  intros Hfetch Hadd Hz. cbn [scan_loop]. rewrite Hfetch. unfold bind, lift.
  rewrite Hadd. apply Z.eqb_eq in Hz. rewrite Hz. unfold ret.
  now rewrite !app_nil_r.
Qed.

Lemma scan_loop_next (http : Http) (location : LocationEnum) (n : nat)
    (event_id : option Z) (acc acc' : dict) (log : list log_record)
    (rows : list Parkrunner) (e : Z) :
  fetch_upcoming_milestones_from_event http location event_id
  = (log, Ok (rows, e)) ->
  add_celebrants e rows acc = Ok acc' ->
  e - 1 <> 0 ->
  scan_loop http location (S n) event_id acc
  = (log ++ log_of (scan_loop http location n (Some (e - 1)) acc'),
     outcome (scan_loop http location n (Some (e - 1)) acc')).
Proof.
  intros Hfetch Hadd Hz. cbn [scan_loop]. rewrite Hfetch. unfold bind, lift.
  rewrite Hadd. apply Z.eqb_neq in Hz. rewrite Hz.
  destruct (scan_loop http location n (Some (e - 1)) acc') as [l r].
  unfold log_of, outcome. cbn [fst snd app]. reflexivity.
Qed.

(** The head record of the loop's log, whatever the fetch answers. *)
Lemma scan_loop_log_head (http : Http) (location : LocationEnum) (n : nat)
    (event_id : option Z) (acc : dict) :
  exists rest,
    log_of (scan_loop http location (S n) event_id acc)
    = Fetching (truthy event_id) (request_url location event_id) :: rest.
Proof.
  rewrite scan_loop_step. cbn zeta.
  destruct (outcome _) as [[rows e]|ex];
    [destruct (add_celebrants e rows acc); [destruct (e - 1 =? 0)|]|];
    rewrite log_of_pair; eauto.
Qed.

(** The dictionary only grows at its end while the loop runs. *)
Lemma scan_loop_prefix (http : Http) (location : LocationEnum) (n : nat) :
  forall (event_id : option Z) (acc final : dict),
    outcome (scan_loop http location n event_id acc) = Ok final ->
    exists added, final = acc ++ added.
Proof.
  induction n as [|n IH]; intros event_id acc final.
  - cbn. intros [= <-]. exists []. now rewrite app_nil_r.
  - rewrite scan_loop_step. cbn zeta.
    destruct (outcome (fetch_upcoming_milestones_from_event _ _ _))
      as [[rows e]|ex]; [|discriminate].
    destruct (add_celebrants e rows acc) as [acc'|ex] eqn:Hadd; [|discriminate].
    destruct (add_celebrants_inv _ _ _ _ Hadd) as (added1 & -> & _).
    destruct (e - 1 =? 0); rewrite outcome_pair.
    + intros [= <-]. eauto.
    + intros H. destruct (IH _ _ _ H) as [added2 ->].
      exists (added1 ++ added2). now rewrite app_assoc.
Qed.

Lemma scan_loop_well_keyed (http : Http) (location : LocationEnum) (n : nat) :
  forall (event_id : option Z) (acc final : dict),
    well_keyed acc ->
    outcome (scan_loop http location n event_id acc) = Ok final ->
    well_keyed final.
Proof.
  induction n as [|n IH]; intros event_id acc final Hwk.
  - cbn. now intros [= <-].
  - rewrite scan_loop_step. cbn zeta.
    destruct (outcome (fetch_upcoming_milestones_from_event _ _ _))
      as [[rows e]|ex]; [|discriminate].
    destruct (add_celebrants e rows acc) as [acc'|ex] eqn:Hadd; [|discriminate].
    destruct (add_celebrants_inv _ _ _ _ Hadd) as (added1 & _ & _ & _ & Hwk1 & _).
    specialize (Hwk1 Hwk).
    destruct (e - 1 =? 0); rewrite outcome_pair.
    + now intros [= <-].
    + intros H. exact (IH _ _ _ Hwk1 H).
Qed.

(** From a positive event number the loop only ever names positive event
    numbers, and it writes no more records than that number. *)
Lemma scan_loop_from_positive (http : Http) (location : LocationEnum) (n : nat) :
  forall (e : Z) (acc : dict),
    0 < e ->
    (forall e' u,
        In (Fetching (Some e') u) (log_of (scan_loop http location n (Some e) acc)) ->
        0 < e')
    /\ Z.of_nat (List.length (log_of (scan_loop http location n (Some e) acc))) <= e.
Proof.
  induction n as [|n IH]; intros e acc He.
  - cbn. split; [intros e' u [] | lia].
  - rewrite scan_loop_step. cbn zeta.
    assert (Hne : e <> 0) by lia. rewrite (truthy_Some e Hne).
    destruct (outcome (fetch_upcoming_milestones_from_event _ _ _))
      as [[rows e1]|ex] eqn:Hfetch.
    + apply fetch_event_id in Hfetch; [subst e1 | assumption].
      destruct (add_celebrants e rows acc) as [acc'|ex].
      * destruct (e - 1 =? 0) eqn:Hz; rewrite log_of_pair.
        -- cbn. split; [intros e' u [[= <- _]|[]]; assumption | lia].
        -- apply Z.eqb_neq in Hz.
           destruct (IH (e - 1) acc') as [IHpos IHlen]; [lia|].
           cbn [In List.length]. split.
           ++ intros e' u [[= <- _]|Hin]; [assumption | eauto].
           ++ lia.
      * rewrite log_of_pair. cbn.
        split; [intros e' u [[= <- _]|[]]; assumption | lia].
    + rewrite log_of_pair. cbn.
      split; [intros e' u [[= <- _]|[]]; assumption | lia].
Qed.

(** A fetch that fails ends the loop there and then. *)
Lemma scan_loop_abort (http : Http) (location : LocationEnum) (n : nat) :
  forall (event_id0 : option Z) (acc : dict) (event_id : option Z) (u : string)
         (ex : exn),
    In (Fetching event_id u) (log_of (scan_loop http location n event_id0 acc)) ->
    outcome (fetch_upcoming_milestones_from_event http location event_id)
    = Raise ex ->
    outcome (scan_loop http location n event_id0 acc) = Raise ex
    /\ exists before,
        log_of (scan_loop http location n event_id0 acc)
        = before ++ [Fetching event_id u].
Proof.
  induction n as [|n IH]; intros event_id0 acc event_id u ex.
  - cbn. intros [].
  - rewrite scan_loop_step. cbn zeta. intros Hin Hex.
    assert (Hhead : Fetching (truthy event_id0) (request_url location event_id0)
                    = Fetching event_id u ->
                    outcome (fetch_upcoming_milestones_from_event
                               http location event_id0) = Raise ex).
    { intros [= Ht _]. now rewrite <- fetch_truthy, Ht. }
    destruct (outcome (fetch_upcoming_milestones_from_event http location event_id0))
      as [[rows e]|ex0].
    + destruct (add_celebrants e rows acc) as [acc'|ex1].
      * destruct (e - 1 =? 0); rewrite log_of_pair, outcome_pair in *.
        -- destruct Hin as [Hin|[]]. now specialize (Hhead Hin).
        -- destruct Hin as [Hin|Hin]; [now specialize (Hhead Hin)|].
           destruct (IH _ _ _ _ _ Hin Hex) as [Hr [before Hb]].
           split; [exact Hr|].
           exists (Fetching (truthy event_id0) (request_url location event_id0)
                     :: before).
           now rewrite Hb.
      * rewrite log_of_pair in Hin. destruct Hin as [Hin|[]].
        now specialize (Hhead Hin).
    + rewrite log_of_pair, outcome_pair in *. destruct Hin as [Hin|[]]. split.
      * specialize (Hhead Hin). congruence.
      * exists []. cbn [app]. now rewrite Hin.
Qed.

(** The loop reads the network only at the URLs it logs, and never reads
    what the rows carry under ["data-event-id"]. *)
Lemma scan_loop_ext (http1 http2 : Http) (location : LocationEnum) (n : nat) :
  forall (event_id : option Z) (acc : dict),
    (forall t u,
        In (Fetching t u) (log_of (scan_loop http1 location n event_id acc)) ->
        same_answer (http1 u) (http2 u)) ->
    scan_loop http1 location n event_id acc
    = scan_loop http2 location n event_id acc.
Proof.
  induction n as [|n IH]; intros event_id acc H; [reflexivity|].
  assert (Hfetch : same_fetched
            (outcome (fetch_upcoming_milestones_from_event http1 location event_id))
            (outcome (fetch_upcoming_milestones_from_event http2 location event_id))).
  { apply fetch_same_answer. apply (H (truthy event_id)).
    destruct (scan_loop_log_head http1 location n event_id acc) as [rest ->].
    now left. }
  rewrite scan_loop_step in H. rewrite !scan_loop_step. cbn zeta in *.
  destruct (outcome (fetch_upcoming_milestones_from_event http1 location event_id))
    as [[rows1 e1]|ex1],
     (outcome (fetch_upcoming_milestones_from_event http2 location event_id))
    as [[rows2 e2]|ex2]; cbn [same_fetched] in Hfetch; try contradiction;
    [|now subst].
  destruct Hfetch as [Hrows <-].
  assert (Hacc : add_celebrants e1 rows1 acc = add_celebrants e1 rows2 acc)
    by (now rewrite <- (add_celebrants_unstamp e1 rows1), Hrows,
          add_celebrants_unstamp).
  rewrite <- Hacc.
  destruct (add_celebrants e1 rows1 acc) as [acc'|ex]; [|reflexivity].
  destruct (e1 - 1 =? 0); [reflexivity|].
  rewrite <- IH; [reflexivity|].
  intros t u Hin. apply (H t). rewrite log_of_pair. now right.
Qed.

Lemma row_of_page_truthy (http : Http) (location : LocationEnum)
    (event_id : option Z) (r : Parkrunner) :
  row_of_page http location event_id r ->
  row_of_page http location (truthy event_id) r.
Proof.
  unfold row_of_page. rewrite fetch_truthy, request_url_truthy. auto.
Qed.

Lemma StronglySorted_app {A : Type} (R : A -> A -> Prop) (l1 l2 : list A) :
  StronglySorted R l1 -> StronglySorted R l2 ->
  (forall a b, In a l1 -> In b l2 -> R a b) ->
  StronglySorted R (l1 ++ l2).
Proof.
  induction l1 as [|x l1 IH]; intros H1 H2 Hc; [exact H2|].
  inversion H1 as [|? ? H1' Hall]; subst. cbn [app]. constructor.
  - apply IH; [assumption | assumption |]. intros a b Ha. apply Hc. now right.
  - apply Forall_app. split; [assumption|].
    apply Forall_forall. intros b Hb. apply Hc; [now left | assumption].
Qed.

(** The entries a run of the loop appends: each comes from a page the run
    fetched, they stand in the order newest event first and fewest runs
    first, and none is stamped above the event number of the first fetch. *)
Lemma scan_loop_added (http : Http) (location : LocationEnum) (n : nat) :
  forall (event_id : option Z) (acc final : dict) (bound : Z),
    (forall rows e,
        outcome (fetch_upcoming_milestones_from_event http location event_id)
        = Ok (rows, e) -> e <= bound) ->
    outcome (scan_loop http location n event_id acc) = Ok final ->
    exists added,
      final = acc ++ added
      /\ StronglySorted listed_before (map snd added)
      /\ Forall (fun kv => exists s, data_event_id (snd kv) = Some (IntCell s)
                                     /\ s <= bound)
                added
      /\ (forall k v, In (k, v) added ->
            generate_key v = Ok k
            /\ exists t,
                 In (Fetching t (request_url location t))
                    (log_of (scan_loop http location n event_id acc))
                 /\ row_of_page http location t v).
Proof.
  induction n as [|n IH]; intros event_id acc final bound Hbound.
  - cbn. intros [= <-]. exists []. rewrite app_nil_r.
    split; [reflexivity|]. split; [constructor|].
    split; [constructor | intros k v []].
  - rewrite scan_loop_step. cbn zeta.
    destruct (outcome (fetch_upcoming_milestones_from_event http location event_id))
      as [[next e]|ex] eqn:Hfetch; [|discriminate].
    pose proof (Hbound next e eq_refl) as He.
    destruct (fetch_ok_inv _ _ _ _ _ Hfetch) as (rows & Hpage & Hrows & _).
    destruct (add_celebrants e next acc) as [acc'|ex] eqn:Hadd; [|discriminate].
    destruct (add_celebrants_inv _ _ _ _ Hadd) as (added1 & -> & Hnew & _ & _ & Hord).
    assert (Hfrom : forall k v, In (k, v) added1 ->
              generate_key v = Ok k
              /\ (exists s, data_event_id v = Some (IntCell s) /\ s <= bound)
              /\ data_event_id v = Some (IntCell e)
              /\ row_of_page http location (truthy event_id) v).
    { intros k v Hkv. destruct (Hnew k v Hkv) as (c & Hc & Hk & ->).
      split; [now rewrite generate_key_set_event_id|].
      split; [exists e; auto|]. split; [reflexivity|].
      apply row_of_page_truthy.
      apply (milestone_rows_In rows next c Hrows) in Hc as [Hc Hm].
      exists rows, next, e, c. auto. }
    assert (Hhead : request_url location (truthy event_id)
                    = request_url location event_id)
      by apply request_url_truthy.
    destruct (e - 1 =? 0) eqn:Hz; rewrite outcome_pair, log_of_pair.
    + intros [= <-]. exists added1. split; [reflexivity|].
      split; [exact Hord|]. split.
      * apply Forall_forall. intros [k v] Hkv. now apply Hfrom in Hkv.
      * intros k v Hkv. destruct (Hfrom k v Hkv) as (Hk & _ & _ & Hrow).
        split; [exact Hk|]. exists (truthy event_id). rewrite Hhead.
        split; [now left | assumption].
    + apply Z.eqb_neq in Hz. intros Hrun.
      assert (Hnext : forall rows' e1,
                outcome (fetch_upcoming_milestones_from_event
                           http location (Some (e - 1))) = Ok (rows', e1) ->
                e1 <= e - 1).
      { intros rows' e1 H1. apply fetch_event_id in H1; [lia | exact Hz]. }
      destruct (IH _ _ _ _ Hnext Hrun) as (added2 & -> & Hord2 & Hb2 & Hnew2).
      exists (added1 ++ added2). split; [now rewrite app_assoc|].
      split; [|split].
      * rewrite map_app. apply StronglySorted_app; [assumption | assumption |].
        intros a b Ha Hb.
        apply in_map_iff in Ha as ([ka va] & <- & Ha).
        apply in_map_iff in Hb as ([kb vb] & <- & Hb).
        destruct (Hfrom ka va Ha) as (_ & _ & Hsa & _).
        rewrite Forall_forall in Hb2. destruct (Hb2 _ Hb) as (s & Hsb & Hs).
        unfold listed_before. cbn [snd] in *. rewrite Hsa, Hsb. left. lia.
      * apply Forall_app. split.
        -- apply Forall_forall. intros [k v] Hkv. now apply Hfrom in Hkv.
        -- eapply Forall_impl; [|exact Hb2]. cbn. intros kv (s & Hs & Hle).
           exists s. split; [assumption | lia].
      * intros k v Hkv.
        apply in_app_or in Hkv as [Hkv|Hkv].
        -- destruct (Hfrom k v Hkv) as (Hk & _ & _ & Hrow).
           split; [exact Hk|]. exists (truthy event_id). rewrite Hhead.
           split; [now left | assumption].
        -- destruct (Hnew2 k v Hkv) as (Hk & t & Hin & Hrow).
           split; [exact Hk|]. exists t. split; [now right | assumption].
Qed.

(** The keys of every page a run fetched are in its final dictionary. *)
Lemma scan_loop_complete (http : Http) (location : LocationEnum) (n : nat) :
  forall (event_id : option Z) (acc final : dict),
    outcome (scan_loop http location n event_id acc) = Ok final ->
    forall t u rows e c,
      In (Fetching t u) (log_of (scan_loop http location n event_id acc)) ->
      outcome (fetch_upcoming_milestones_from_event http location t) = Ok (rows, e) ->
      In c rows ->
      exists k, generate_key c = Ok k /\ contains k final = true.
Proof.
  induction n as [|n IH]; intros event_id acc final.
  - cbn. intros _ t u rows e c [].
  - rewrite scan_loop_step. cbn zeta.
    destruct (outcome (fetch_upcoming_milestones_from_event http location event_id))
      as [[rows0 e0]|ex] eqn:Hfetch; [|discriminate].
    destruct (add_celebrants e0 rows0 acc) as [acc'|ex] eqn:Hadd; [|discriminate].
    destruct (add_celebrants_inv _ _ _ _ Hadd) as (added & Hacc' & _ & Hin0 & _).
    assert (Hhead : forall t u rows e c,
              Fetching (truthy event_id) (request_url location event_id)
              = Fetching t u ->
              outcome (fetch_upcoming_milestones_from_event http location t)
              = Ok (rows, e) ->
              In c rows ->
              exists k, generate_key c = Ok k /\ contains k acc' = true).
    { intros t u rows e c [= <- _]. rewrite fetch_truthy, Hfetch.
      intros [= <- <-] Hc. now apply Hin0. }
    destruct (e0 - 1 =? 0); rewrite outcome_pair, log_of_pair.
    + intros [= <-] t u rows e c [Heq|[]]. now apply (Hhead t u rows e).
    + intros Hrun t u rows e c [Heq|Hin] Hf Hc.
      * destruct (scan_loop_prefix _ _ _ _ _ _ Hrun) as [added' ->].
        destruct (Hhead t u rows e c Heq Hf Hc) as (k & Hk & Hcont).
        exists k. split; [assumption|]. now rewrite contains_app, Hcont.
      * exact (IH _ _ _ Hrun t u rows e c Hin Hf Hc).
Qed.

(** Where an entry of the final dictionary comes from: it was there from
    the start, or it is a row of the first fetched page that holds its
    key, stamped with the event number of that page. *)
Lemma scan_loop_first (http : Http) (location : LocationEnum) (n : nat) :
  forall (event_id : option Z) (acc final : dict),
    outcome (scan_loop http location n event_id acc) = Ok final ->
    forall k v,
      lookup k final = Some v ->
      lookup k acc = Some v
      \/ (lookup k acc = None
          /\ exists before t after next e c,
               log_of (scan_loop http location n event_id acc)
               = before ++ Fetching t (request_url location t) :: after
               /\ outcome (fetch_upcoming_milestones_from_event http location t)
                  = Ok (next, e)
               /\ In c next
               /\ generate_key c = Ok k
               /\ v = set_event_id e c
               /\ (forall t' u', In (Fetching t' u') before ->
                                 ~ page_holds http location t' k)).
Proof.
  induction n as [|n IH]; intros event_id acc final.
  - cbn. intros [= <-] k v H. now left.
  - rewrite scan_loop_step. cbn zeta.
    destruct (outcome (fetch_upcoming_milestones_from_event http location event_id))
      as [[next0 e0]|ex] eqn:Hfetch; [|discriminate].
    destruct (add_celebrants e0 next0 acc) as [acc'|ex] eqn:Hadd; [|discriminate].
    destruct (add_celebrants_inv _ _ _ _ Hadd) as (added & Hacc' & Hnew & Hin0 & _).
    set (entry := Fetching (truthy event_id) (request_url location event_id)).
    assert (Hentry : entry = Fetching (truthy event_id)
                               (request_url location (truthy event_id)))
      by (unfold entry; now rewrite request_url_truthy).
    (* what the first iteration settles *)
    assert (Hhere : forall k v rest,
              lookup k acc' = Some v ->
              lookup k acc = Some v
              \/ (lookup k acc = None
                  /\ exists before t after next e c,
                       entry :: rest
                       = before ++ Fetching t (request_url location t) :: after
                       /\ outcome (fetch_upcoming_milestones_from_event
                                     http location t) = Ok (next, e)
                       /\ In c next
                       /\ generate_key c = Ok k
                       /\ v = set_event_id e c
                       /\ (forall t' u', In (Fetching t' u') before ->
                                         ~ page_holds http location t' k))).
    { intros k v rest Hl. subst acc'.
      destruct (lookup k acc) as [w|] eqn:Hacc.
      - left. rewrite (lookup_app_Some k w acc added Hacc) in Hl. exact Hl.
      - right. split; [reflexivity|].
        rewrite (lookup_app_None k acc added Hacc) in Hl.
        apply lookup_In in Hl. destruct (Hnew k v Hl) as (c & Hc & Hk & ->).
        exists [], (truthy event_id), rest, next0, e0, c.
        split; [cbn [app]; now rewrite <- Hentry|].
        split; [now rewrite fetch_truthy|].
        split; [assumption|]. split; [assumption|].
        split; [reflexivity | intros t' u' []]. }
    (* the page of the first iteration holds no key that is still absent *)
    assert (Hnot : forall k, lookup k acc' = None ->
                             ~ page_holds http location (truthy event_id) k).
    { intros k Hl (rows & c & Hpage & Hc & Hm & Hk).
      rewrite request_url_truthy in Hpage.
      destruct (fetch_ok_inv _ _ _ _ _ Hfetch) as (rows' & Hpage' & Hrows & _).
      rewrite (page_ok_functional _ _ _ _ Hpage Hpage') in Hc.
      assert (Hcn : In c next0)
        by (apply (milestone_rows_In rows' next0 c Hrows); auto).
      destruct (Hin0 c Hcn) as (k' & Hk' & Hcont).
      assert (k' = k) by congruence. subst k'.
      apply contains_lookup in Hl. congruence. }
    destruct (e0 - 1 =? 0); rewrite outcome_pair, log_of_pair.
    + intros [= <-] k v Hl. exact (Hhere k v [] Hl).
    + intros Hrun k v Hl.
      destruct (IH _ _ _ Hrun k v Hl)
        as [Hold|(Hnone & before & t & after & next & e & c
                  & Hlog & Hf & Hc & Hk & Hv & Hfirst)].
      * exact (Hhere k v _ Hold).
      * right. split.
        -- subst acc'. destruct (lookup k acc) as [w|] eqn:Hacc; [|reflexivity].
           rewrite (lookup_app_Some k w acc added Hacc) in Hnone. discriminate.
        -- exists (entry :: before), t, after, next, e, c.
           split; [cbn [app]; now rewrite Hlog|].
           split; [assumption|]. split; [assumption|]. split; [assumption|].
           split; [assumption|].
           intros t' u' [Heq|Hin]; [|now apply (Hfirst t' u')].
           unfold entry in Heq. injection Heq as <- _. now apply Hnot.
Qed.

(** The scan's result, read off its final dictionary. *)
Lemma detect_milestones_Ok_inv (http : Http) (location : LocationEnum)
    (events_limit : Z) (celebrants : list Parkrunner) :
  outcome (detect_milestones http location events_limit) = Ok celebrants ->
  exists final,
    outcome (scan_loop http location (Z.to_nat events_limit) None []) = Ok final
    /\ celebrants = values final
    /\ log_of (detect_milestones http location events_limit)
       = log_of (scan_loop http location (Z.to_nat events_limit) None []).
Proof.
  rewrite detect_milestones_unfold, outcome_pair, log_of_pair.
  destruct (outcome (scan_loop http location (Z.to_nat events_limit) None []))
    as [final|ex]; [|discriminate].
  intros [= <-]. eauto.
Qed.

Lemma fetch_bound (http : Http) (location : LocationEnum) (event_id : option Z) :
  exists bound,
    forall rows e,
      outcome (fetch_upcoming_milestones_from_event http location event_id)
      = Ok (rows, e) -> e <= bound.
Proof.
  destruct (outcome (fetch_upcoming_milestones_from_event http location event_id))
    as [[rows0 e0]|ex].
  - exists e0. intros rows e [= _ <-]. lia.
  - exists 0. discriminate.
Qed.

(** ** The walk back through the events *)

Lemma event_log_S (location : LocationEnum) (e : Z) (k : nat) :
  event_log location e (S k)
  = Fetching (Some e) (EVENT_RESULTS_URL location e)
    :: event_log location (e - 1) k.
Proof.
  unfold event_log. cbn [seq map]. rewrite Z.sub_0_r. f_equal.
  rewrite <- seq_shift, map_map. apply map_ext. intros i.
  now replace (e - Z.of_nat (S i)) with (e - 1 - Z.of_nat i) by lia.
Qed.

Lemma event_log_length (location : LocationEnum) (e : Z) (k : nat) :
  List.length (event_log location e k) = k.
Proof. unfold event_log. now rewrite length_map, length_seq. Qed.

Lemma In_event_log (location : LocationEnum) (e : Z) (k : nat) (r : log_record) :
  In r (event_log location e k) ->
  exists i, 0 <= i /\ r = Fetching (Some (e - i)) (EVENT_RESULTS_URL location (e - i)).
Proof.
  unfold event_log. intros H. apply in_map_iff in H as (i & <- & _).
  exists (Z.of_nat i). split; [lia | reflexivity].
Qed.

Lemma NoDup_event_log_urls (location : LocationEnum) (k : nat) :
  forall e, NoDup (map url_of (event_log location e k)).
Proof.
  induction k as [|k IH]; intros e; [constructor|].
  rewrite event_log_S. cbn [map url_of]. constructor; [|apply IH].
  intros Hin. apply in_map_iff in Hin as (r & Hurl & Hr).
  apply In_event_log in Hr as (i & Hi & ->). cbn [url_of] in Hurl.
  apply EVENT_RESULTS_URL_inj in Hurl as [_ Hurl]. lia.
Qed.

(** From an event number other than 0 the loop fetches that event, the one
    before it, and so on, without a gap. *)
Lemma scan_loop_event_log (http : Http) (location : LocationEnum) (n : nat) :
  forall (e : Z) (acc : dict),
    e <> 0 ->
    exists k,
      (k <= n)%nat
      /\ log_of (scan_loop http location n (Some e) acc) = event_log location e k.
Proof.
  induction n as [|n IH]; intros e acc He.
  - exists 0%nat. split; [lia | reflexivity].
  - rewrite scan_loop_step. cbn zeta. unfold request_url.
    rewrite (truthy_Some e He).
    destruct (outcome (fetch_upcoming_milestones_from_event _ _ _))
      as [[rows e1]|ex] eqn:Hfetch.
    + apply fetch_event_id in Hfetch; [subst e1 | assumption].
      destruct (add_celebrants e rows acc) as [acc'|ex].
      * destruct (e - 1 =? 0) eqn:Hz; rewrite log_of_pair.
        -- exists 1%nat. split; [lia | now rewrite event_log_S].
        -- apply Z.eqb_neq in Hz.
           destruct (IH (e - 1) acc' Hz) as (k & Hk & Hlog).
           exists (S k). split; [lia|]. now rewrite Hlog, event_log_S.
      * rewrite log_of_pair. exists 1%nat.
        split; [lia | now rewrite event_log_S].
    + rewrite log_of_pair. exists 1%nat. split; [lia | now rewrite event_log_S].
Qed.

(** The shapes the log of a scan can have. *)
Lemma detect_milestones_log_cases (http : Http) (location : LocationEnum)
    (events_limit : Z) :
  log_of (detect_milestones http location events_limit) = []
  \/ exists e k,
       (k < Z.to_nat events_limit)%nat
       /\ log_of (detect_milestones http location events_limit)
          = Fetching None (LATEST_RESULTS_URL location)
            :: event_log location e k.
Proof.
  rewrite detect_milestones_unfold, log_of_pair.
  destruct (Z.to_nat events_limit) as [|n]; [now left|]. right.
  rewrite scan_loop_step. cbn zeta.
  change (request_url location None) with (LATEST_RESULTS_URL location).
  cbn [truthy].
  destruct (outcome (fetch_upcoming_milestones_from_event http location None))
    as [[rows0 e0]|ex].
  - destruct (add_celebrants e0 rows0 []) as [acc'|ex].
    + destruct (e0 - 1 =? 0) eqn:Hz; rewrite log_of_pair.
      * exists 0, 0%nat. split; [lia | reflexivity].
      * apply Z.eqb_neq in Hz.
        destruct (scan_loop_event_log http location n (e0 - 1) acc' Hz)
          as (k & Hk & Hlog).
        exists (e0 - 1), k. rewrite Hlog. split; [lia | reflexivity].
    + rewrite log_of_pair. exists 0, 0%nat. split; [lia | reflexivity].
  - rewrite log_of_pair. exists 0, 0%nat. split; [lia | reflexivity].
Qed.

(** No URL occurs twice in the log of a scan. *)
Lemma detect_milestones_NoDup_urls (http : Http) (location : LocationEnum)
    (events_limit : Z) :
  NoDup (map url_of (log_of (detect_milestones http location events_limit))).
Proof.
  destruct (detect_milestones_log_cases http location events_limit)
    as [->|(e & k & _ & ->)]; [constructor|].
  cbn [map url_of]. constructor; [|apply NoDup_event_log_urls].
  intros Hin. apply in_map_iff in Hin as (r & Hurl & Hr).
  apply In_event_log in Hr as (i & _ & ->). cbn [url_of] in Hurl.
  symmetry in Hurl. exact (LATEST_RESULTS_URL_not_EVENT _ _ _ Hurl).
Qed.

(** Every record of the loop's log pairs an event number with the URL the
    fetch asks for it. *)
Lemma scan_loop_log_urls (http : Http) (location : LocationEnum) (n : nat) :
  forall (event_id : option Z) (acc : dict) (t : option Z) (u : string),
    In (Fetching t u) (log_of (scan_loop http location n event_id acc)) ->
    u = request_url location t /\ truthy t = t.
Proof.
  induction n as [|n IH]; intros event_id acc t u.
  - cbn. intros [].
  - rewrite scan_loop_step. cbn zeta.
    assert (Hhead : Fetching (truthy event_id) (request_url location event_id)
                    = Fetching t u ->
                    u = request_url location t /\ truthy t = t).
    { intros [= <- <-]. now rewrite request_url_truthy, truthy_idem. }
    destruct (outcome (fetch_upcoming_milestones_from_event _ _ _))
      as [[rows e]|ex];
      [destruct (add_celebrants e rows acc) as [acc'|ex];
       [destruct (e - 1 =? 0)|]|];
      rewrite log_of_pair; intros [Heq|Hin]; auto; try contradiction.
    exact (IH _ _ _ _ Hin).
Qed.

Lemma detect_milestones_log_urls (http : Http) (location : LocationEnum)
    (events_limit : Z) (t : option Z) (u : string) :
  In (Fetching t u) (log_of (detect_milestones http location events_limit)) ->
  u = request_url location t /\ truthy t = t.
Proof.
  rewrite detect_milestones_unfold, log_of_pair. apply scan_loop_log_urls.
Qed.

(** ** Helper facts for the statements on keys and first occurrences *)

Lemma app_nonempty_neq {A : Type} (l : list A) (x : A) : l ++ [x] <> l.
Proof.
  intros H. apply (f_equal (@List.length A)) in H.
  rewrite length_app in H. cbn in H. lia.
Qed.

Lemma contains_lookup_Some (key : string) (d : dict) :
  contains key d = true -> exists v, lookup key d = Some v.
Proof.
  intros H. destruct (lookup key d) as [v|] eqn:Hl; [eauto|].
  apply contains_lookup in Hl. congruence.
Qed.

(** One record handled by the inner loop. *)
Lemma add_celebrant_inv (e : Z) (acc d : dict) (c : Parkrunner) :
  add_celebrant e acc c = Ok d ->
  exists key,
    generate_key c = Ok key
    /\ d = acc ++ (if contains key acc then [] else [(key, set_event_id e c)])
    /\ contains key d = true
    /\ (well_keyed acc -> well_keyed d).
Proof.
  rewrite add_celebrant_eq.
  destruct (generate_key c) as [key|ex] eqn:Hk; [|discriminate].
  intros [= <-]. exists key. split; [reflexivity|]. split; [reflexivity|].
  destruct (contains key acc) eqn:Hc.
  - rewrite app_nil_r. auto.
  - split.
    + rewrite contains_app. cbn. rewrite String.eqb_refl.
      now rewrite orb_true_r.
    + intros Hwk. apply well_keyed_snoc; auto.
Qed.

(** Two ways of cutting one list at an element: the cuts are the same, or
    one lies inside the front part of the other. *)
Lemma app_cons_split {A : Type} (a : list A) :
  forall (x : A) (b a' : list A) (y : A) (b' : list A),
    a ++ x :: b = a' ++ y :: b' ->
    (a = a' /\ x = y /\ b = b')
    \/ (exists m, a = a' ++ y :: m)
    \/ (exists m, a' = a ++ x :: m).
Proof.
  induction a as [|h a IH]; intros x b a' y b' H.
  - destruct a' as [|h' a'].
    + injection H as -> ->. now left.
    + injection H as -> _. right. right. now exists a'.
  - destruct a' as [|h' a'].
    + injection H as -> _. right. left. now exists a.
    + injection H as -> H.
      destruct (IH _ _ _ _ _ H) as [(-> & -> & ->)|[[m ->]|[m ->]]].
      * now left.
      * right. left. now exists m.
      * right. right. now exists m.
Qed.

(** The fetch that follows a fetch in the log of the loop is for the event
    one below the event number the earlier fetch returned. *)
Lemma scan_loop_successor (http : Http) (location : LocationEnum) (n : nat) :
  forall (event_id : option Z) (acc : dict) (before : list log_record)
         (t1 : option Z) (u1 : string) (t2 : option Z) (u2 : string)
         (after : list log_record) (next1 : list Parkrunner) (e1 : Z),
    log_of (scan_loop http location n event_id acc)
    = before ++ Fetching t1 u1 :: Fetching t2 u2 :: after ->
    outcome (fetch_upcoming_milestones_from_event http location t1)
    = Ok (next1, e1) ->
    t2 = Some (e1 - 1).
Proof.
  induction n as [|n IH];
    intros event_id acc before t1 u1 t2 u2 after next1 e1.
  - cbn. intros H. now destruct before.
  - rewrite scan_loop_step. cbn zeta.
    assert (Hshort : forall entry : log_record,
              [entry] = before ++ Fetching t1 u1 :: Fetching t2 u2 :: after ->
              False).
    { intros entry H. destruct before as [|b [|b' before]]; discriminate H. }
    destruct (outcome (fetch_upcoming_milestones_from_event http location event_id))
      as [[rows e]|ex] eqn:Hfetch;
      [|rewrite log_of_pair; intros H; now apply Hshort in H].
    destruct (add_celebrants e rows acc) as [acc'|ex];
      [|rewrite log_of_pair; intros H; now apply Hshort in H].
    destruct (e - 1 =? 0) eqn:Hz;
      [rewrite log_of_pair; intros H; now apply Hshort in H|].
    apply Z.eqb_neq in Hz. rewrite log_of_pair.
    destruct before as [|b before]; cbn [app].
    + intros [= <- _ Hrest] Hf1. rewrite fetch_truthy, Hfetch in Hf1.
      injection Hf1 as _ <-.
      destruct n as [|n]; [discriminate Hrest|].
      destruct (scan_loop_log_head http location n (Some (e - 1)) acc')
        as [rest Hhead].
      rewrite Hhead, (truthy_Some _ Hz) in Hrest. now injection Hrest as <- _ _.
    + intros [= _ Hrest]. exact (IH _ _ _ _ _ _ _ _ _ _ Hrest).
Qed.

(** A fetch that returned a row under a key loaded a page that holds the
    key. *)
Lemma fetch_page_holds (http : Http) (location : LocationEnum)
    (event_id : option Z) (next : list Parkrunner) (e : Z) (c : Parkrunner)
    (key : string) :
  outcome (fetch_upcoming_milestones_from_event http location event_id)
  = Ok (next, e) ->
  In c next ->
  generate_key c = Ok key ->
  page_holds http location event_id key.
Proof.
  intros Hfetch Hc Hk.
  destruct (fetch_ok_inv _ _ _ _ _ Hfetch) as (rows & Hpage & Hrows & _).
  apply (milestone_rows_In rows next c Hrows) in Hc as [Hc Hm].
  exists rows, c. auto.
Qed.

(** A page that holds a key, fetched by a scan that returned: the fetch
    returned a row under that key. *)
Lemma page_holds_fetched (http : Http) (location : LocationEnum)
    (event_id : option Z) (next : list Parkrunner) (e : Z) (key : string) :
  outcome (fetch_upcoming_milestones_from_event http location event_id)
  = Ok (next, e) ->
  page_holds http location event_id key ->
  exists c, In c next /\ generate_key c = Ok key.
Proof.
  intros Hfetch (rows & c & Hpage & Hc & Hm & Hk).
  destruct (fetch_ok_inv _ _ _ _ _ Hfetch) as (rows' & Hpage' & Hrows & _).
  rewrite (page_ok_functional _ _ _ _ Hpage Hpage') in Hc.
  exists c. split; [|assumption].
  apply (milestone_rows_In rows' next c Hrows). auto.
Qed.

(** * The claims *)

(** ** The classifier *)

(** C3.  For a row whose run-count text [int] reads as [n] and that
    carries an age group, the classifier answers true exactly when [n + 1]
    is one of 25, 50, 100, 250, 500, or the age group starts with "J" or
    is empty and [n + 1] is 10.  A row with an empty age group and 9 runs
    is a milestone, the same count in age group "SM35-39" is not, and a
    run count plus one of 24 never is. *)
Theorem check_milestone_classifies :
  (forall (p : Parkrunner) (runs : string) (n : Z) (agegroup : string),
      data_runs p = Some runs ->
      py_int runs = Some n ->
      data_agegroup p = Some agegroup ->
      (exists b, check_milestone p = Ok b)
      /\ (check_milestone p = Ok true <->
          In (n + 1) [25; 50; 100; 250; 500]
          \/ ((exists rest, agegroup = String "J" rest)
              \/ agegroup = EmptyString)
             /\ In (n + 1) [10]))
  /\ (forall runs name ev,
        py_int runs = Some 9 ->
        check_milestone (mkParkrunner (Some runs) name (Some "") ev) = Ok true)
  /\ (forall runs name ev,
        py_int runs = Some 9 ->
        check_milestone (mkParkrunner (Some runs) name (Some "SM35-39") ev)
        = Ok false)
  /\ (forall runs name agegroup ev,
        py_int runs = Some 23 ->
        check_milestone (mkParkrunner (Some runs) name (Some agegroup) ev)
        = Ok false).
Proof.
  split; [|split; [|split]].
  - intros p runs n agegroup Hr Hn Ha.
    assert (H : check_milestone p
                = Ok (mem (n + 1) SUPPORTED_MILESTONES
                      || ((String.prefix "J" agegroup || is_empty agegroup)
                          && mem (n + 1) SUPPORTED_JUNIOR_MILESTONES))).
    { unfold check_milestone, int. rewrite Hr. cbn [getitem and_then].
      rewrite Hn. cbn [and_then]. rewrite Ha.
      now destruct (mem (n + 1) SUPPORTED_MILESTONES). }
    rewrite H. split; [eauto|].
    assert (Hiff : forall b : bool, @Ok bool b = Ok true <-> b = true)
      by (intros b; split; congruence).
    rewrite Hiff, orb_true_iff, andb_true_iff, orb_true_iff.
    now rewrite !mem_In, prefix_J, is_empty_spec.
  - intros runs name ev H. unfold check_milestone, int.
    cbn [data_runs getitem and_then]. now rewrite H.
  - intros runs name ev H. unfold check_milestone, int.
    cbn [data_runs getitem and_then]. now rewrite H.
  - intros runs name agegroup ev H. unfold check_milestone, int.
    cbn [data_runs data_agegroup getitem and_then]. rewrite H. cbn [and_then].
    change (mem (23 + 1) SUPPORTED_MILESTONES) with false.
    change (mem (23 + 1) SUPPORTED_JUNIOR_MILESTONES) with false.
    cbv iota. now rewrite andb_false_r.
Qed.

(** ** Event number zero at the fetch boundary *)

(** C10.  A fetch called with event number 0 is the fetch called with no
    event number: the same log record, the same request for the
    latest-results page, the same outcome, the event number being read off
    that page's header; no page for event 0 is asked for. *)
Theorem fetch_zero_is_fetch_latest (http : Http) (location : LocationEnum) :
  fetch_upcoming_milestones_from_event http location (Some 0)
  = fetch_upcoming_milestones_from_event http location None
  /\ log_of (fetch_upcoming_milestones_from_event http location (Some 0))
     = [Fetching None (LATEST_RESULTS_URL location)]
  /\ outcome (fetch_upcoming_milestones_from_event http location (Some 0))
     = match http (LATEST_RESULTS_URL location) with
       | None => Raise RequestException
       | Some response =>
           if status_code response =? 200 then
             match Results_table response with
             | None => Raise AttributeError
             | Some rows =>
                 match milestone_rows rows, Results_header response with
                 | Raise ex, _ => Raise ex
                 | Ok next_celebrants, Some e => Ok (next_celebrants, e)
                 | Ok next_celebrants, None => Raise HeaderError
                 end
             end
           else Raise (AssertionError (status_code response))
       end.
Proof.
  split; [reflexivity|]. rewrite fetch_unfold. split; [reflexivity|].
  rewrite outcome_pair. unfold request_url. cbn [truthy Z.eqb].
  destruct (http (LATEST_RESULTS_URL location)) as [response|]; [|reflexivity].
  destruct (status_code response =? 200); [|reflexivity].
  destruct (Results_table response) as [rows|]; [|reflexivity].
  destruct (milestone_rows rows); reflexivity.
Qed.

(** ** Keys and triples *)

(** C1, amended.  De-duplication goes by the key text made of the three
    attribute texts.  From any dictionary, a second row is merged into the
    dictionary left by a first row exactly when its key is the key of the
    first row or was in the dictionary before; rows with the same key end
    up as one entry.  Rows with equal attribute texts always have the same
    key.  For rows whose run-count text and name hold no "-", equal keys
    mean equal attribute texts; and where moreover [int] does not read the
    two run-count texts as the same number unless they are the same text,
    equal keys mean equal triples of run count, name and age group. *)
Theorem generate_key_decides_merging (p q : Parkrunner) (kp kq : string)
    (Hp : generate_key p = Ok kp)
    (Hq : generate_key q = Ok kq) :
  (forall e1 e2 acc,
      exists acc1,
        add_celebrant e1 acc p = Ok acc1
        /\ (add_celebrant e2 acc1 q = Ok acc1
            <-> kq = kp \/ contains kq acc = true))
  /\ (forall e1 e2 acc acc1,
        well_keyed acc ->
        add_celebrant e1 acc p = Ok acc1 ->
        kq = kp ->
        exists v,
          add_celebrant e2 acc1 q = Ok acc1
          /\ filter (has_key kp) (values acc1) = [v]
          /\ lookup kp acc1 = Some v
          /\ (contains kp acc = false -> v = set_event_id e1 p))
  /\ (attributes p = attributes q ->
      kq = kp
      /\ forall e1 e2 acc acc1,
           add_celebrant e1 acc p = Ok acc1 ->
           add_celebrant e2 acc1 q = Ok acc1)
  /\ (forall rp np rq nq,
        data_runs p = Some rp -> data_name p = Some np ->
        data_runs q = Some rq -> data_name q = Some nq ->
        hyphen_free rp = true -> hyphen_free np = true ->
        hyphen_free rq = true -> hyphen_free nq = true ->
        (kq = kp <-> attributes p = attributes q)
        /\ (complete p ->
            (py_int rp = py_int rq -> rp = rq) ->
            (kq = kp <-> triple p = triple q))).
Proof.
  assert (Hattr : attributes p = attributes q -> kq = kp).
  { intros H. apply generate_key_attributes in H. congruence. }
  split; [|split; [|split]].
  4:{ intros rp np rq nq Hrp Hnp Hrq Hnq Frp Fnp Frq Fnq.
      assert (Hinj : kq = kp -> attributes p = attributes q).
      { intros ->.
        exact (generate_key_inj_hyphen_free p q rp np rq nq kp
                 Hrp Hnp Hrq Hnq Frp Fnp Frq Fnq Hp Hq). }
      split; [split; assumption|].
      intros [[[n name] agegroup] Ht] Hint. split.
      + intros H. apply Hinj in H. unfold attributes in H.
        injection H as H1 H2 H3. unfold triple, runs_of. now rewrite H1, H2, H3.
      + intros H. apply Hattr. unfold attributes.
        apply generate_key_Ok in Hp as (rp' & np' & ap & Hp1 & Hp2 & Hp3 & _).
        apply generate_key_Ok in Hq as (rq' & nq' & aq & Hq1 & Hq2 & Hq3 & _).
        rewrite Ht in H. unfold triple, runs_of in Ht, H.
        rewrite Hp1, Hp2, Hp3 in Ht. rewrite Hq1, Hq2, Hq3 in H.
        rewrite Hp1, Hp2, Hp3, Hq1, Hq2, Hq3.
        assert (rp' = rp) by congruence. assert (rq' = rq) by congruence.
        subst rp' rq'.
        destruct (py_int rp) as [m|] eqn:Ep; [|discriminate].
        destruct (py_int rq) as [m'|] eqn:Eq; [|discriminate].
        injection Ht as -> -> ->. injection H as -> -> ->.
        now rewrite Hint by reflexivity. }
  3:{ intros Ha. pose proof (Hattr Ha) as ->. split; [reflexivity|].
      intros e1 e2 acc acc1 Hadd.
      destruct (add_celebrant_inv _ _ _ _ Hadd) as (k & Hk & _ & Hc & _).
      assert (k = kp) by congruence. subst k.
      now apply (add_celebrant_present _ _ _ kp). }
  - intros e1 e2 acc. rewrite !add_celebrant_eq, Hp.
    eexists. split; [reflexivity|]. rewrite add_celebrant_eq, Hq.
    rewrite contains_app.
    destruct (contains kq acc) eqn:Hc; cbn [orb].
    + rewrite app_nil_r. tauto.
    + destruct (contains kp acc) eqn:Hcp.
      * cbn [contains]. rewrite app_nil_r. split.
        -- intros [= H]. now apply app_nonempty_neq in H.
        -- intros [->|H]; congruence.
      * cbn [contains]. rewrite orb_false_r.
        destruct (String.eqb_spec kp kq) as [->|Hne].
        -- rewrite app_nil_r. tauto.
        -- split.
           ++ intros [= H]. now apply app_nonempty_neq in H.
           ++ intros [->|H]; congruence.
  - intros e1 e2 acc acc1 Hwk Hadd ->.
    destruct (add_celebrant_inv _ _ _ _ Hadd) as (k & Hk & Hacc1 & Hc & Hwk1).
    assert (k = kp) by congruence. subst k. specialize (Hwk1 Hwk).
    destruct (contains_lookup_Some _ _ Hc) as [v Hv].
    exists v. split; [now apply (add_celebrant_present _ _ _ kp)|].
    split; [apply filter_has_key_unique; [assumption | now apply lookup_In]|].
    split; [assumption|].
    intros Hfresh. rewrite Hfresh in Hacc1. subst acc1.
    apply contains_lookup in Hfresh.
    rewrite (lookup_app_None _ _ _ Hfresh) in Hv. cbn [lookup] in Hv.
    rewrite String.eqb_refl in Hv. congruence.
Qed.

(** ** Early termination *)

(** C2, amended.  The loop stops when the decremented event number is
    exactly 0.  So whenever the latest page names a positive event number,
    no fetch is made for an event number that is not positive, and no more
    fetches are made than that number, whatever the limit. *)
Theorem no_fetch_for_nonpositive_id (http : Http) (location : LocationEnum)
    (events_limit : Z)
    (Hlatest : forall rows latest,
        outcome (fetch_upcoming_milestones_from_event http location None)
        = Ok (rows, latest) ->
        0 < latest) :
  (forall e u,
      In (Fetching (Some e) u)
         (log_of (detect_milestones http location events_limit)) ->
      0 < e)
  /\ (forall rows latest,
        outcome (fetch_upcoming_milestones_from_event http location None)
        = Ok (rows, latest) ->
        Z.of_nat (List.length (log_of (detect_milestones http location events_limit)))
        <= latest).
Proof.
  rewrite detect_milestones_unfold, log_of_pair.
  destruct (Z.to_nat events_limit) as [|n].
  - cbn. split; [intros e u [] | intros rows latest H; apply Hlatest in H; lia].
  - rewrite scan_loop_step. cbn zeta. cbn [truthy].
    destruct (outcome (fetch_upcoming_milestones_from_event http location None))
      as [[rows latest]|ex].
    + pose proof (Hlatest rows latest eq_refl) as Hpos.
      destruct (add_celebrants latest rows []) as [acc'|ex].
      * destruct (latest - 1 =? 0) eqn:Hz; rewrite log_of_pair.
        -- cbn. split; [intros e u [[=]|[]] | intros ? ? [= _ <-]; lia].
        -- apply Z.eqb_neq in Hz.
           destruct (scan_loop_from_positive http location n (latest - 1) acc')
             as [Hp Hl]; [lia|].
           cbn [In List.length]. split.
           ++ intros e u [[=]|Hin]. eauto.
           ++ intros ? ? [= _ <-]. lia.
      * rewrite log_of_pair. cbn.
        split; [intros e u [[=]|[]] | intros ? ? [= _ <-]; lia].
    + rewrite log_of_pair. cbn.
      split; [intros e u [[=]|[]] | discriminate].
Qed.

(** C8.  When the latest page names event 3, the pages of events 2 and 1
    load, and the rows of the three pages carry their attributes, a scan
    with limit 100 makes exactly three fetches, for the latest page, event
    2 and event 1, and ends with a result. *)
Theorem three_events_three_fetches (http : Http) (location : LocationEnum)
    (rows3 rows2 rows1 : list Parkrunner)
    (H3 : latest_ok http location rows3 3)
    (H2 : page_ok http (EVENT_RESULTS_URL location 2) rows2)
    (H1 : page_ok http (EVENT_RESULTS_URL location 1) rows1)
    (C3 : Forall complete rows3)
    (C2 : Forall complete rows2)
    (C1 : Forall complete rows1) :
  log_of (detect_milestones http location 100)
  = [Fetching None (LATEST_RESULTS_URL location);
     Fetching (Some 2) (EVENT_RESULTS_URL location 2);
     Fetching (Some 1) (EVENT_RESULTS_URL location 1)]
  /\ List.length (log_of (detect_milestones http location 100)) = 3%nat
  /\ exists celebrants,
       outcome (detect_milestones http location 100) = Ok celebrants.
Proof.
  destruct (complete_milestone_rows _ C3) as (next3 & M3 & N3).
  destruct (complete_milestone_rows _ C2) as (next2 & M2 & N2).
  destruct (complete_milestone_rows _ C1) as (next1 & M1 & N1).
  destruct (complete_add_celebrants 3 next3 [] N3) as [d3 A3].
  destruct (complete_add_celebrants 2 next2 d3 N2) as [d2 A2].
  destruct (complete_add_celebrants 1 next1 d2 N1) as [d1 A1].
  assert (Hscan : scan_loop http location (Z.to_nat 100) None []
                  = ([Fetching None (LATEST_RESULTS_URL location);
                      Fetching (Some 2) (EVENT_RESULTS_URL location 2);
                      Fetching (Some 1) (EVENT_RESULTS_URL location 1)],
                     Ok d1)).
  { change (Z.to_nat 100) with (S (S (S 97))).
    rewrite (scan_loop_next _ _ _ _ _ _ _ _ _
               (fetch_latest_ok _ _ _ _ _ H3 M3) A3) by discriminate.
    change (3 - 1) with 2.
    rewrite (scan_loop_next _ _ _ _ _ _ _ _ _
               (fetch_event_ok _ _ _ _ 2 ltac:(discriminate) H2 M2) A2)
      by discriminate.
    change (2 - 1) with 1.
    rewrite (scan_loop_last _ _ _ _ _ _ _ _ _
               (fetch_event_ok _ _ _ _ 1 ltac:(discriminate) H1 M1) A1)
      by reflexivity.
    reflexivity. }
  rewrite detect_milestones_unfold, Hscan, log_of_pair, !outcome_pair.
  split; [reflexivity|]. split; [reflexivity|]. eauto.
Qed.

(** ** Failure *)

(** C5.  If the page of any fetch made during a scan fails to load or to
    parse (the request raises, the status is not 200, there is no results
    table, a row cannot be classified, or the header of the latest page
    cannot be read), the scan ends with the exception of that fetch and
    returns no collection; the failed fetch is the last one made, and its
    URL was not asked for before: nothing is retried and nothing is
    fetched after it. *)
Theorem fetch_failure_aborts_scan (http : Http) (location : LocationEnum)
    (events_limit : Z) (event_id : option Z) (url : string)
    (Hmade : In (Fetching event_id url)
                (log_of (detect_milestones http location events_limit)))
    (Hfails : page_fails http location event_id) :
  (exists ex,
      outcome (fetch_upcoming_milestones_from_event http location event_id)
      = Raise ex
      /\ outcome (detect_milestones http location events_limit) = Raise ex)
  /\ (forall celebrants,
        outcome (detect_milestones http location events_limit) <> Ok celebrants)
  /\ (exists before,
        log_of (detect_milestones http location events_limit)
        = before ++ [Fetching event_id url]
        /\ ~ In url (map url_of before)
        /\ ~ In (Fetching event_id url) before)
  /\ count_occ string_dec
       (map url_of (log_of (detect_milestones http location events_limit))) url
     = 1%nat.
Proof.
  pose proof (detect_milestones_NoDup_urls http location events_limit) as Hnd.
  apply page_fails_raises in Hfails as [ex Hex].
  rewrite detect_milestones_unfold in *. rewrite log_of_pair in *.
  rewrite outcome_pair.
  destruct (scan_loop_abort http location _ _ _ _ _ _ Hmade Hex)
    as [Hrun [before Hlast]].
  rewrite Hrun.
  assert (Hfresh : ~ In url (map url_of before)).
  { rewrite Hlast, map_app in Hnd. cbn [map url_of] in Hnd.
    intros Hin. apply NoDup_remove_2 in Hnd. apply Hnd.
    rewrite app_nil_r. exact Hin. }
  split; [exists ex; auto|]. split; [discriminate|]. split.
  - exists before. split; [exact Hlast|]. split; [exact Hfresh|].
    intros Hin. apply Hfresh. apply in_map_iff.
    now exists (Fetching event_id url).
  - rewrite Hlast, map_app, count_occ_app. cbn [map url_of count_occ].
    destruct (string_dec url url) as [_|Hne]; [|contradiction].
    apply (count_occ_not_In string_dec) in Hfresh. rewrite Hfresh. reflexivity.
Qed.

(** ** Determinism *)

(** C6.  The scan is a function of the location, the limit and the
    answers of the network to the URLs it asks for: two scans of the same
    location with the same limit, against networks that answer alike on
    every URL the first scan asks for, give the same log, and the same
    records with the same stamps in the same order or the same exception.
    Stamps that an earlier scan has left on the rows make no difference. *)
Theorem detect_milestones_deterministic (http1 http2 : Http)
    (location : LocationEnum) (events_limit : Z)
    (Hsame : forall t u,
        In (Fetching t u) (log_of (detect_milestones http1 location events_limit)) ->
        same_answer (http1 u) (http2 u)) :
  detect_milestones http1 location events_limit
  = detect_milestones http2 location events_limit.
Proof.
  rewrite detect_milestones_unfold, log_of_pair in Hsame.
  unfold detect_milestones.
  now rewrite (scan_loop_ext http1 http2 location _ None [] Hsame).
Qed.

(** ** Growth of the accumulation dictionary *)

(** C7.  From any state of the loop on, the dictionary at the end is the
    dictionary at that state with entries appended: every entry already
    there keeps its place, its record and its stamp.  The same holds for
    each record handled inside one iteration.  What the scan returns is the
    values of the final dictionary, and nothing else. *)
Theorem accumulation_map_grows_monotonically (http : Http)
    (location : LocationEnum) (n : nat) (event_id : option Z)
    (acc final : dict)
    (Hrun : outcome (scan_loop http location n event_id acc) = Ok final) :
  (exists added, final = acc ++ added)
  /\ (forall key v, lookup key acc = Some v -> lookup key final = Some v)
  /\ (forall e d d' c,
        add_celebrant e d c = Ok d' ->
        (exists added, d' = d ++ added)
        /\ (forall key v, lookup key d = Some v -> lookup key d' = Some v))
  /\ (forall e rows d d',
        add_celebrants e rows d = Ok d' ->
        (exists added, d' = d ++ added)
        /\ (forall key v, lookup key d = Some v -> lookup key d' = Some v))
  /\ (forall events_limit,
        outcome (detect_milestones http location events_limit)
        = match outcome (scan_loop http location (Z.to_nat events_limit) None []) with
          | Ok all_celebrants => Ok (values all_celebrants)
          | Raise ex => Raise ex
          end).
Proof.
  destruct (scan_loop_prefix http location n _ _ _ Hrun) as [added ->].
  split; [eauto|]. split; [|split; [|split]].
  - intros key v. apply lookup_app_Some.
  - intros e d d' c H.
    destruct (add_celebrant_inv _ _ _ _ H) as (k & _ & -> & _).
    split; [eauto|]. intros key v. apply lookup_app_Some.
  - intros e rows d d' H.
    destruct (add_celebrants_inv _ _ _ _ H) as (added' & -> & _).
    split; [eauto|]. intros key v. apply lookup_app_Some.
  - intros events_limit. now rewrite detect_milestones_unfold, outcome_pair.
Qed.

(** ** The end-to-end example *)

(** C9.  When the latest page names event 10 and lists A with 24 runs and
    no age group and B with 49 runs in age group SW30, and the page of
    event 9 lists A with 23 runs, a scan with limit 2 returns exactly two
    entries: A with 24 runs and B with 49 runs, both stamped with event
    10. *)
Theorem end_to_end_example (http : Http) (location : LocationEnum)
    (ev1 ev2 ev3 : option cell)
    (I24 : py_int "24" = Some 24)
    (I49 : py_int "49" = Some 49)
    (I23 : py_int "23" = Some 23)
    (H10 : latest_ok http location
             [mkParkrunner (Some "24") (Some "A") (Some "") ev1;
              mkParkrunner (Some "49") (Some "B") (Some "SW30") ev2] 10)
    (H9 : page_ok http (EVENT_RESULTS_URL location 9)
            [mkParkrunner (Some "23") (Some "A") (Some "") ev3]) :
  detect_milestones http location 2
  = ([Fetching None (LATEST_RESULTS_URL location);
      Fetching (Some 9) (EVENT_RESULTS_URL location 9)],
     Ok [mkParkrunner (Some "24") (Some "A") (Some "") (Some (IntCell 10));
         mkParkrunner (Some "49") (Some "B") (Some "SW30") (Some (IntCell 10))]).
Proof.
  assert (M10 : milestone_rows
                  [mkParkrunner (Some "24") (Some "A") (Some "") ev1;
                   mkParkrunner (Some "49") (Some "B") (Some "SW30") ev2]
                = Ok [mkParkrunner (Some "24") (Some "A") (Some "") ev1;
                      mkParkrunner (Some "49") (Some "B") (Some "SW30") ev2]).
  { cbn [milestone_rows]. unfold check_milestone, int.
    cbn [data_runs data_agegroup getitem and_then]. rewrite I24, I49.
    reflexivity. }
  assert (M9 : milestone_rows [mkParkrunner (Some "23") (Some "A") (Some "") ev3]
               = Ok []).
  { cbn [milestone_rows]. unfold check_milestone, int.
    cbn [data_runs data_agegroup getitem and_then]. rewrite I23.
    reflexivity. }
  assert (A10 : add_celebrants 10
                  [mkParkrunner (Some "24") (Some "A") (Some "") ev1;
                   mkParkrunner (Some "49") (Some "B") (Some "SW30") ev2] []
                = Ok [("24-A-", mkParkrunner (Some "24") (Some "A") (Some "")
                                  (Some (IntCell 10)));
                      ("49-B-SW30", mkParkrunner (Some "49") (Some "B")
                                      (Some "SW30") (Some (IntCell 10)))]).
  { unfold add_celebrants, sorted. cbn [decorate]. unfold runs_key, int.
    cbn [data_runs getitem and_then]. rewrite I24, I49. reflexivity. }
  unfold detect_milestones. change (Z.to_nat 2) with 2%nat.
  rewrite (scan_loop_next _ _ _ _ _ _ _ _ _
             (fetch_latest_ok _ _ _ _ _ H10 M10) A10) by discriminate.
  change (10 - 1) with 9.
  erewrite (scan_loop_next _ _ _ _ _ _ _ _ _
              (fetch_event_ok _ _ _ _ 9 ltac:(discriminate) H9 M9))
    by (reflexivity || discriminate).
  reflexivity.
Qed.

(** ** First occurrence wins *)

(** C4, amended.  A record whose key is already in the dictionary is
    discarded.  When two consecutive fetches of a scan that returns, made
    anywhere in the scan, both load a page holding a qualifying row with
    the same key, the result has exactly one entry under that key: a
    qualifying row of the first page of the scan that holds the key,
    stamped with the event number of that page.  That page is the first of
    the two or one fetched before them.  When no page fetched before them
    holds the key it is the first of the two: the entry carries its event
    number, the second fetch is for the event one below, and the row of
    the second page is not in the result. *)
Theorem first_occurrence_wins (http : Http) (location : LocationEnum)
    (events_limit : Z) (celebrants : list Parkrunner)
    (before after : list log_record) (t1 t2 : option Z) (u1 u2 : string)
    (key : string)
    (Hscan : outcome (detect_milestones http location events_limit)
             = Ok celebrants)
    (Hlog : log_of (detect_milestones http location events_limit)
            = before ++ Fetching t1 u1 :: Fetching t2 u2 :: after)
    (H1 : page_holds http location t1 key)
    (H2 : page_holds http location t2 key) :
  (forall e acc c,
      generate_key c = Ok key -> contains key acc = true ->
      add_celebrant e acc c = Ok acc)
  /\ (exists earlier first later rows e c,
        before ++ [Fetching t1 u1]
        = earlier ++ Fetching first (request_url location first) :: later
        /\ (forall t u, In (Fetching t u) earlier ->
                        ~ page_holds http location t key)
        /\ page_ok http (request_url location first) rows
        /\ resolves http location first e
        /\ In c rows
        /\ check_milestone c = Ok true
        /\ generate_key c = Ok key
        /\ filter (has_key key) celebrants = [set_event_id e c])
  /\ ((forall t u, In (Fetching t u) before -> ~ page_holds http location t key) ->
      exists rows e1 c,
        page_ok http (request_url location t1) rows
        /\ resolves http location t1 e1
        /\ t2 = Some (e1 - 1)
        /\ In c rows
        /\ check_milestone c = Ok true
        /\ generate_key c = Ok key
        /\ filter (has_key key) celebrants = [set_event_id e1 c]
        /\ exists rows2 c2,
             page_ok http (request_url location t2) rows2
             /\ In c2 rows2
             /\ check_milestone c2 = Ok true
             /\ generate_key c2 = Ok key
             /\ resolves http location t2 (e1 - 1)
             /\ ~ In (set_event_id (e1 - 1) c2) celebrants).
Proof.
  split; [intros e acc c; apply add_celebrant_present|].
  destruct (detect_milestones_Ok_inv _ _ _ _ Hscan) as (final & Hrun & -> & Hlogs).
  rewrite Hlogs in Hlog.
  pose proof (scan_loop_well_keyed http location _ _ _ _ well_keyed_nil Hrun)
    as Hwk.
  assert (Hin1 : In (Fetching t1 u1)
                    (log_of (scan_loop http location (Z.to_nat events_limit)
                               None [])))
    by (rewrite Hlog; apply in_or_app; right; now left).
  (* the fetch of the first of the two pages went through *)
  destruct (outcome (fetch_upcoming_milestones_from_event http location t1))
    as [[next1 e1]|ex] eqn:Hf1.
  2:{ destruct (scan_loop_abort http location _ _ _ _ _ _ Hin1 Hf1) as [Hr _].
      congruence. }
  destruct (page_holds_fetched _ _ _ _ _ _ Hf1 H1) as (c1 & Hc1 & Hk1).
  destruct (scan_loop_complete http location _ _ _ _ Hrun
              t1 u1 next1 e1 c1 Hin1 Hf1 Hc1) as (k & Hk & Hcont).
  assert (k = key) by congruence. subst k.
  destruct (contains_lookup_Some _ _ Hcont) as [v Hv].
  destruct (scan_loop_first http location _ _ _ _ Hrun key v Hv)
    as [Hold|(_ & earlier & first & later & next & e & c
              & Hcut & Hf & Hc & Hkc & -> & Hfirst)];
    [discriminate|].
  assert (Hone : filter (has_key key) (values final) = [set_event_id e c])
    by (apply filter_has_key_unique; [assumption | now apply lookup_In]).
  destruct (fetch_ok_inv _ _ _ _ _ Hf) as (rows & Hpage & Hrows & Hres).
  apply (milestone_rows_In rows next c Hrows) in Hc as [Hc Hm].
  assert (Hholds : page_holds http location first key).
  { apply (fetch_page_holds _ _ _ _ _ c key Hf); [|assumption].
    apply (milestone_rows_In rows next c Hrows). auto. }
  (* where the first page holding the key is cut out of the log *)
  assert (Hplace : (earlier = before
                    /\ Fetching first (request_url location first)
                       = Fetching t1 u1)
                   \/ exists m,
                        before
                        = earlier ++ Fetching first (request_url location first)
                            :: m).
  { rewrite Hlog in Hcut.
    destruct (app_cons_split _ _ _ _ _ _ Hcut) as [(-> & <- & _)|[Hb|[m ->]]].
    - now left.
    - now right.
    - exfalso. apply (Hfirst t1 u1); [|exact H1].
      apply in_or_app. right. now left. }
  split.
  - destruct Hplace as [[-> Heq]|[m ->]].
    + exists before, first, [], rows, e, c.
      split; [now rewrite Heq|]. auto 10.
    + exists earlier, first, (m ++ [Fetching t1 u1]), rows, e, c.
      split; [now rewrite <- app_assoc|]. auto 10.
  - intros Hnone.
    destruct Hplace as [[-> Heq]|[m ->]].
    + injection Heq as -> _.
      assert (He : e = e1) by congruence. subst e.
      pose proof (scan_loop_successor http location (Z.to_nat events_limit)
                    None [] before t1 u1 t2 u2 after next1 e1 Hlog Hf1) as Ht2.
      exists rows, e1, c. do 6 (split; [assumption|]).
      split; [assumption|].
      (* the row of the second page is the one discarded *)
      destruct H2 as (rows2 & c2 & Hp2 & Hc2 & Hm2 & Hk2).
      exists rows2, c2. do 4 (split; [assumption|]).
      assert (Hin2 : In (Fetching t2 u2)
                        (log_of (scan_loop http location (Z.to_nat events_limit)
                                   None [])))
        by (rewrite Hlog; apply in_or_app; right; right; now left).
      destruct (scan_loop_log_urls _ _ _ _ _ _ _ Hin2) as [_ Htruthy].
      split.
      * unfold resolves. rewrite Htruthy, Ht2. reflexivity.
      * intros Hin.
        assert (Hkept : In (set_event_id (e1 - 1) c2)
                           (filter (has_key key) (values final))).
        { apply filter_In. split; [assumption|].
          apply has_key_spec. now rewrite generate_key_set_event_id. }
        rewrite Hone in Hkept. destruct Hkept as [Hkept|[]].
        apply (f_equal data_event_id) in Hkept. cbn in Hkept.
        injection Hkept as Hkept. lia.
    + exfalso. apply (Hnone first (request_url location first)); [|exact Hholds].
      apply in_or_app. right. now left.
Qed.

(** * Further properties of the code *)

(** ** The sort *)

Lemma sorted_Ok_keys (key : Parkrunner -> result Z) (l ordered : list Parkrunner) :
  sorted key l = Ok ordered ->
  Forall (fun x => exists n, key x = Ok n) l.
Proof.
  unfold sorted. intros H.
  apply and_then_Ok in H as (decorated & Hd & _).
  destruct (decorate_inv key l decorated Hd) as [<- Hall].
  apply Forall_map. eapply Forall_impl; [|exact Hall]. cbn. eauto.
Qed.

Lemma neg_runs_key_Ok (x : Parkrunner) (n : Z) :
  neg_runs_key x = Ok n <-> runs_of x = Some (- n).
Proof.
  unfold neg_runs_key. rewrite and_then_Ok. split.
  - intros (m & Hm & [= <-]). apply runs_key_runs_of in Hm.
    now rewrite Z.opp_involutive.
  - intros H. exists (- n). rewrite runs_key_runs_of.
    split; [assumption|]. now rewrite Z.opp_involutive.
Qed.

Lemma key_le_neg_runs (a b : Parkrunner) :
  key_le neg_runs_key a b <-> runs_le b a.
Proof.
  unfold key_le, runs_le. split.
  - intros (m & n & Ha & Hb & Hle).
    apply neg_runs_key_Ok in Ha. apply neg_runs_key_Ok in Hb.
    exists (- n), (- m). split; [assumption|]. split; [assumption | lia].
  - intros (m & n & Hb & Ha & Hle).
    exists (- n), (- m). rewrite !neg_runs_key_Ok, !Z.opp_involutive.
    split; [assumption|]. split; [assumption | lia].
Qed.

Lemma key_is_neg_runs (k : Z) (r : Parkrunner) :
  key_is neg_runs_key (- k) r = key_is runs_key k r.
Proof.
  unfold key_is, neg_runs_key.
  destruct (runs_key r) as [n|ex]; cbn [and_then]; [|reflexivity].
  destruct (Z.eqb_spec (- n) (- k)), (Z.eqb_spec n k); try reflexivity; lia.
Qed.

Lemma StronglySorted_impl {A : Type} (R R' : A -> A -> Prop) (l : list A) :
  (forall a b, R a b -> R' a b) ->
  StronglySorted R l -> StronglySorted R' l.
Proof.
  intros HR Hs. induction Hs as [|a l Hs IH Ha]; constructor; [assumption|].
  eapply Forall_impl; [|exact Ha]. cbn. auto.
Qed.

(** X1.  The sort inside the scan is a stable ascending sort by run
    count.  It returns when [int] reads the run count of every row, and
    then its result is a rearrangement of the input, every record in it
    has at most the run count of every later one, and records with the
    same run count keep the order they had on the page.  Otherwise it
    raises what the key raises on some row. *)
Theorem sorted_stable_ascending (l : list Parkrunner) :
  (forall ordered,
      sorted runs_key l = Ok ordered ->
      Permutation ordered l
      /\ StronglySorted runs_le ordered
      /\ (forall k, filter (key_is runs_key k) ordered
                    = filter (key_is runs_key k) l))
  /\ ((exists ordered, sorted runs_key l = Ok ordered)
      <-> Forall (fun x => exists n, runs_of x = Some n) l)
  /\ (forall ex,
        sorted runs_key l = Raise ex ->
        exists x, In x l /\ runs_key x = Raise ex).
Proof.
  split; [|split].
  - intros ordered H. destruct (sorted_inv _ _ _ H) as (Hp & Hs & Hst).
    split; [assumption|]. split; [|assumption].
    eapply StronglySorted_impl; [|exact Hs]. intros a b. apply key_le_runs.
  - split.
    + intros [ordered H]. apply sorted_Ok_keys in H.
      eapply Forall_impl; [|exact H]. cbn. intros x [n Hn].
      exists n. now apply runs_key_runs_of.
    + intros H. apply sorted_total.
      eapply Forall_impl; [|exact H]. cbn. intros x [n Hn].
      exists n. now apply runs_key_runs_of.
  - intros ex. apply sorted_raises.
Qed.

(** ** The inner loop *)

(** X4.  Going through the rows of one event a second time, with whatever
    event number, changes nothing: every key is already there. *)
Theorem add_celebrants_idempotent (e e' : Z) (rows : list Parkrunner)
    (acc d : dict)
    (Hadd : add_celebrants e rows acc = Ok d) :
  add_celebrants e' rows d = Ok d.
Proof.
  destruct (add_celebrants_inv _ _ _ _ Hadd) as (added & _ & _ & Hin & _).
  unfold add_celebrants in *.
  destruct (sorted runs_key rows) as [ordered|ex] eqn:Hs; [|discriminate].
  cbn [and_then]. apply add_each_present.
  intros c Hc. apply Hin.
  destruct (sorted_inv _ _ _ Hs) as (Hp & _).
  now apply (Permutation_in _ Hp).
Qed.

(** X19.  Handling one record leaves the entry under its key as it was
    when there is one, and otherwise stores the record stamped with the
    event number; entries under every other key are untouched.  It raises
    only when the key of the record cannot be made. *)
Theorem add_celebrant_lookup (e : Z) (acc : dict) (c : Parkrunner) :
  match generate_key c with
  | Ok key =>
      exists d,
        add_celebrant e acc c = Ok d
        /\ lookup key d
           = match lookup key acc with
             | Some v => Some v
             | None => Some (set_event_id e c)
             end
        /\ (forall key', key' <> key -> lookup key' d = lookup key' acc)
  | Raise ex => add_celebrant e acc c = Raise ex
  end.
Proof.
  rewrite add_celebrant_eq.
  destruct (generate_key c) as [key|ex]; [|reflexivity].
  eexists. split; [reflexivity|].
  destruct (contains key acc) eqn:Hc.
  - rewrite app_nil_r. split; [|reflexivity].
    destruct (lookup key acc) eqn:Hl; [reflexivity|].
    apply contains_lookup in Hl. congruence.
  - apply contains_lookup in Hc. split.
    + rewrite Hc, lookup_app_None by assumption.
      cbn [lookup]. now rewrite String.eqb_refl.
    + intros key' Hkey.
      destruct (lookup key' acc) as [v|] eqn:Hl.
      * now apply lookup_app_Some.
      * rewrite lookup_app_None by assumption. cbn [lookup].
        destruct (String.eqb_spec key key'); [congruence | reflexivity].
Qed.

(** ** When a fetch succeeds and how it fails *)

Lemma milestone_rows_Ok_iff (table next : list Parkrunner) :
  milestone_rows table = Ok next
  <-> Forall (fun c => exists b, check_milestone c = Ok b) table
      /\ next = filter accepts table.
Proof.
  revert next. induction table as [|c table IH]; intros next.
  - cbn. split; [intros [= <-]; auto | intros [_ ->]; reflexivity].
  - cbn [milestone_rows filter]. unfold accepts at 1.
    destruct (check_milestone c) as [b|ex] eqn:Hc; cbn [and_then].
    + destruct (milestone_rows table) as [rest|ex] eqn:Hrest; cbn [and_then].
      * destruct (proj1 (IH rest) eq_refl) as [Hall ->]. split.
        -- intros [= <-]. split; [constructor; eauto|]. now destruct b.
        -- intros [_ ->]. now destruct b.
      * split; [discriminate|]. intros [Hall _].
        inversion Hall as [|? ? _ Hall']; subst.
        discriminate (proj2 (IH (filter accepts table)) (conj Hall' eq_refl)).
    + split; [discriminate|]. intros [Hall _].
      inversion Hall as [|? ? [b Hb] _]; subst. congruence.
Qed.

(** X5.  A fetch for a given event number other than 0 succeeds exactly
    when the page of that event loads with status 200 and a results table
    whose rows can all be classified; it then returns the rows of the
    table that the classifier accepts, in page order, and the event number
    it was given, and it never reads the header.  A fetch for the latest
    event needs the header as well and returns the event number found
    there. *)
Theorem fetch_succeeds_iff (http : Http) (location : LocationEnum)
    (rows : list Parkrunner) (e' : Z) :
  (forall e, e <> 0 ->
     (outcome (fetch_upcoming_milestones_from_event http location (Some e))
      = Ok (rows, e')
      <-> e' = e
          /\ exists table,
               page_ok http (EVENT_RESULTS_URL location e) table
               /\ Forall (fun c => exists b, check_milestone c = Ok b) table
               /\ rows = filter accepts table))
  /\ (outcome (fetch_upcoming_milestones_from_event http location None)
      = Ok (rows, e')
      <-> exists table,
            latest_ok http location table e'
            /\ Forall (fun c => exists b, check_milestone c = Ok b) table
            /\ rows = filter accepts table).
Proof.
  split.
  - intros e He. split.
    + intros H. destruct (fetch_ok_inv _ _ _ _ _ H) as (table & Hp & Hr & Hid).
      unfold request_url in Hp. unfold resolves in Hid.
      rewrite (truthy_Some e He) in Hp, Hid.
      apply milestone_rows_Ok_iff in Hr as [Hall ->].
      split; [exact Hid | eauto].
    + intros [-> (table & Hp & Hall & ->)].
      rewrite (fetch_event_ok _ _ table (filter accepts table) _ He Hp).
      * apply outcome_pair.
      * now apply milestone_rows_Ok_iff.
  - split.
    + intros H. rewrite fetch_unfold, outcome_pair in H.
      change (request_url location None) with (LATEST_RESULTS_URL location) in H.
      cbn [truthy] in H.
      destruct (http (LATEST_RESULTS_URL location)) as [response|] eqn:Hr;
        [|discriminate].
      destruct (Z.eqb_spec (status_code response) 200) as [Hs|Hs];
        [|discriminate].
      destruct (Results_table response) as [table|] eqn:Ht; [|discriminate].
      destruct (milestone_rows table) as [next|ex] eqn:Hm; [|discriminate].
      destruct (Results_header response) as [h|] eqn:Hh; [|discriminate].
      injection H as <- <-.
      apply milestone_rows_Ok_iff in Hm as [Hall ->].
      exists table. split; [exists response; auto|]. auto.
    + intros (table & Hl & Hall & ->).
      rewrite (fetch_latest_ok _ _ table (filter accepts table) _ Hl).
      * apply outcome_pair.
      * now apply milestone_rows_Ok_iff.
Qed.

Lemma check_milestone_raises (p : Parkrunner) (ex : exn) :
  check_milestone p = Raise ex
  <-> (data_runs p = None /\ ex = KeyError "data-runs")
      \/ (exists runs, data_runs p = Some runs
                       /\ py_int runs = None /\ ex = ValueError)
      \/ (exists runs n,
            data_runs p = Some runs
            /\ py_int runs = Some n
            /\ mem (n + 1) SUPPORTED_MILESTONES = false
            /\ data_agegroup p = None
            /\ ex = KeyError "data-agegroup").
Proof.
  unfold check_milestone, int. split.
  - destruct (data_runs p) as [runs|]; cbn [getitem and_then].
    2:{ intros [= <-]. left. auto. }
    destruct (py_int runs) as [n|] eqn:Hn; cbn [and_then].
    2:{ intros [= <-]. right. left. exists runs. auto. }
    destruct (mem (n + 1) SUPPORTED_MILESTONES) eqn:Hm; [discriminate|].
    destruct (data_agegroup p); cbn [getitem and_then]; [discriminate|].
    intros [= <-]. right. right. exists runs, n. auto.
  - intros [[Hr ->]|[(runs & Hr & Hn & ->)|(runs & n & Hr & Hn & Hm & Ha & ->)]];
      rewrite Hr; cbn [getitem and_then].
    + reflexivity.
    + now rewrite Hn.
    + rewrite Hn. cbn [and_then]. now rewrite Hm, Ha.
Qed.

(** X17.  A fetch fails in five ways and no other, checked in this order:
    the request itself raises; the status is not 200, which raises the
    assertion error carrying the status whatever else the page holds; the
    page has no results table; the classifier raises on a row of the
    table, which is then the exception of the fetch; and, for the latest
    event only, the event number cannot be read off the header.  The
    classifier raises when a row has no run count, when [int] cannot read
    it, or when the run count is no senior milestone and the row has no
    age group. *)
Theorem fetch_raises_iff (http : Http) (location : LocationEnum)
    (event_id : option Z) (ex : exn) :
  (outcome (fetch_upcoming_milestones_from_event http location event_id) = Raise ex
   <-> (http (request_url location event_id) = None /\ ex = RequestException)
       \/ exists response,
            http (request_url location event_id) = Some response
            /\ ((status_code response <> 200
                 /\ ex = AssertionError (status_code response))
                \/ (status_code response = 200
                    /\ Results_table response = None
                    /\ ex = AttributeError)
                \/ (status_code response = 200
                    /\ exists before finisher after,
                         Results_table response
                         = Some (before ++ finisher :: after)
                         /\ Forall (fun c => exists b, check_milestone c = Ok b)
                                   before
                         /\ check_milestone finisher = Raise ex)
                \/ (status_code response = 200
                    /\ (exists rows,
                          Results_table response = Some rows
                          /\ Forall (fun c => exists b, check_milestone c = Ok b)
                                    rows)
                    /\ truthy event_id = None
                    /\ Results_header response = None
                    /\ ex = HeaderError)))
  /\ (forall finisher,
        check_milestone finisher = Raise ex
        <-> (data_runs finisher = None /\ ex = KeyError "data-runs")
            \/ (exists runs, data_runs finisher = Some runs
                             /\ py_int runs = None /\ ex = ValueError)
            \/ (exists runs n,
                  data_runs finisher = Some runs
                  /\ py_int runs = Some n
                  /\ mem (n + 1) SUPPORTED_MILESTONES = false
                  /\ data_agegroup finisher = None
                  /\ ex = KeyError "data-agegroup")).
Proof.
  split; [|intros finisher; apply check_milestone_raises].
  rewrite fetch_raises_cases. split.
  - intros [H|(response & Hr & Hcase)]; [now left|].
    right. exists response. split; [assumption|].
    destruct Hcase as [H|[H|[(Hs & rows & Ht & Hm)|(Hs & (rows & next & Ht & Hm) & H)]]].
    + now left.
    + right. now left.
    + right. right. left. split; [assumption|].
      apply milestone_rows_raises in Hm
        as (before & finisher & after & -> & Hall & Hf).
      exists before, finisher, after. auto.
    + right. right. right. split; [assumption|]. split; [|assumption].
      exists rows. split; [assumption|].
      now apply (milestone_rows_classified rows next).
  - intros [H|(response & Hr & Hcase)]; [now left|].
    right. exists response. split; [assumption|].
    destruct Hcase
      as [H|[H|[(Hs & before & finisher & after & Ht & Hall & Hf)
               |(Hs & (rows & Ht & Hall) & H)]]].
    + now left.
    + right. now left.
    + right. right. left. split; [assumption|].
      exists (before ++ finisher :: after). split; [assumption|].
      apply milestone_rows_raises. exists before, finisher, after. auto.
    + right. right. right. split; [assumption|]. split; [|assumption].
      destruct (milestone_rows_total rows Hall) as [next Hn].
      exists rows, next. auto.
Qed.

(** ** What a scan returns *)

Lemma check_milestone_set_event_id (e : Z) (c : Parkrunner) :
  check_milestone (set_event_id e c) = check_milestone c.
Proof. reflexivity. Qed.

Lemma complete_set_event_id (e : Z) (c : Parkrunner) :
  complete c -> complete (set_event_id e c).
Proof. intros [t Ht]. now exists t. Qed.

(** A row the classifier accepts and that has a key carries all that the
    program reads of it. *)
Lemma accepted_complete (c : Parkrunner) (b : bool) (key : string) :
  check_milestone c = Ok b -> generate_key c = Ok key -> complete c.
Proof.
  intros Hm Hk. apply check_milestone_runs in Hm as [n Hn].
  apply generate_key_Ok in Hk as (runs & name & agegroup & _ & Hname & Hag & _).
  exists (n, name, agegroup). unfold triple. now rewrite Hn, Hname, Hag.
Qed.

(** The records of a result carry their attributes and a stamp. *)
Lemma detect_milestones_returns (http : Http) (location : LocationEnum)
    (events_limit : Z) (celebrants : list Parkrunner) :
  outcome (detect_milestones http location events_limit) = Ok celebrants ->
  Forall (fun p => complete p /\ exists e, data_event_id p = Some (IntCell e))
         celebrants.
Proof.
  intros Hrun.
  destruct (detect_milestones_Ok_inv _ _ _ _ Hrun) as (final & Hfinal & -> & _).
  destruct (fetch_bound http location None) as [bound Hb].
  destruct (scan_loop_added _ _ _ _ _ _ _ Hb Hfinal)
    as (added & -> & _ & Hs & Hnew).
  cbn [app]. unfold values. apply Forall_map. apply Forall_forall.
  intros [k v] Hkv. cbn [snd].
  rewrite Forall_forall in Hs. destruct (Hs _ Hkv) as (s & Hstamp & _).
  split; [|eauto].
  destruct (Hnew k v Hkv) as (Hk & t & _ & rows & next & e & c & _ & _ & _ & Hm & ->).
  rewrite generate_key_set_event_id in Hk.
  apply complete_set_event_id. exact (accepted_complete c true k Hm Hk).
Qed.

(** X6.  Every record a scan returns is a row of a page that this scan
    fetched and that loaded properly: a row the classifier accepts, that
    carries run count, name and age group, stamped with the event number
    resolved for that page. *)
Theorem detect_milestones_sound (http : Http) (location : LocationEnum)
    (events_limit : Z) (celebrants : list Parkrunner) (r : Parkrunner)
    (Hrun : outcome (detect_milestones http location events_limit) = Ok celebrants)
    (Hr : In r celebrants) :
  check_milestone r = Ok true
  /\ complete r
  /\ exists t,
       In (Fetching t (request_url location t))
          (log_of (detect_milestones http location events_limit))
       /\ row_of_page http location t r.
Proof.
  pose proof (detect_milestones_returns _ _ _ _ Hrun) as Hall.
  rewrite Forall_forall in Hall. destruct (Hall r Hr) as [Hcomplete _].
  destruct (detect_milestones_Ok_inv _ _ _ _ Hrun) as (final & Hfinal & -> & ->).
  destruct (fetch_bound http location None) as [bound Hb].
  destruct (scan_loop_added _ _ _ _ _ _ _ Hb Hfinal)
    as (added & -> & _ & _ & Hnew).
  cbn [app] in Hr. apply in_map_iff in Hr as ([k v] & <- & Hkv).
  destruct (Hnew k v Hkv) as (_ & t & Hin & Hrow). cbn [snd] in *.
  split; [|split; [assumption | eauto]].
  destruct Hrow as (rows & next & e & c & _ & _ & _ & Hm & ->). exact Hm.
Qed.

Lemma NoDup_map_Ok (l : list string) :
  NoDup l -> NoDup (map (@Ok string) l).
Proof.
  induction 1 as [|x l Hx Hl IH]; cbn [map]; constructor; [|assumption].
  intros Hin. apply in_map_iff in Hin as (y & [= ->] & Hy). contradiction.
Qed.

(** X7.  Every record of a scan's result has a key and no two have the
    same, each carries an event number, and none carries one above the
    event number of the latest page. *)
Theorem detect_milestones_distinct_and_stamped (http : Http)
    (location : LocationEnum) (events_limit : Z) (celebrants : list Parkrunner)
    (Hrun : outcome (detect_milestones http location events_limit) = Ok celebrants) :
  NoDup (map generate_key celebrants)
  /\ Forall (fun r => exists key, generate_key r = Ok key) celebrants
  /\ Forall (fun r => exists e, data_event_id r = Some (IntCell e)) celebrants
  /\ (forall rows latest,
        outcome (fetch_upcoming_milestones_from_event http location None)
        = Ok (rows, latest) ->
        Forall (fun r => exists e, data_event_id r = Some (IntCell e)
                                   /\ e <= latest)
               celebrants).
Proof.
  pose proof (detect_milestones_returns _ _ _ _ Hrun) as Hall.
  destruct (detect_milestones_Ok_inv _ _ _ _ Hrun) as (final & Hfinal & -> & _).
  pose proof (scan_loop_well_keyed _ _ _ _ _ _ well_keyed_nil Hfinal) as Hwk.
  split; [|split; [|split]].
  - rewrite (well_keyed_values final Hwk), <- map_map.
    apply NoDup_map_Ok, Hwk.
  - eapply Forall_impl; [|exact Hall]. cbn. intros r [Hc _].
    now apply complete_generate_key.
  - eapply Forall_impl; [|exact Hall]. cbn. tauto.
  - intros rows latest Hfetch.
    assert (Hb : forall rows' e,
               outcome (fetch_upcoming_milestones_from_event http location None)
               = Ok (rows', e) -> e <= latest)
      by (rewrite Hfetch; intros rows' e [= _ <-]; lia).
    destruct (scan_loop_added _ _ _ _ _ _ _ Hb Hfinal) as (added & -> & _ & Hs & _).
    cbn [app]. unfold values. now apply Forall_map.
Qed.

(** X8.  A scan's result lists the records of a newer event before those
    of an older one, and the records of one event by ascending run count. *)
Theorem detect_milestones_order (http : Http) (location : LocationEnum)
    (events_limit : Z) (celebrants : list Parkrunner)
    (Hrun : outcome (detect_milestones http location events_limit) = Ok celebrants) :
  StronglySorted listed_before celebrants.
Proof.
  destruct (detect_milestones_Ok_inv _ _ _ _ Hrun) as (final & Hfinal & -> & _).
  destruct (fetch_bound http location None) as [bound Hb].
  destruct (scan_loop_added _ _ _ _ _ _ _ Hb Hfinal) as (added & -> & Hord & _).
  exact Hord.
Qed.

(** X9.  A scan that returns leaves no milestone out: for every row, of
    every page it fetched, that the classifier accepts, the row has a key
    and the result holds a record with that key. *)
Theorem detect_milestones_complete (http : Http) (location : LocationEnum)
    (events_limit : Z) (celebrants : list Parkrunner)
    (t : option Z) (rows : list Parkrunner) (c : Parkrunner)
    (Hrun : outcome (detect_milestones http location events_limit) = Ok celebrants)
    (Hfetched : In (Fetching t (request_url location t))
                   (log_of (detect_milestones http location events_limit)))
    (Hpage : page_ok http (request_url location t) rows)
    (Hrow : In c rows)
    (Hmilestone : check_milestone c = Ok true) :
  exists key r,
    generate_key c = Ok key /\ In r celebrants /\ generate_key r = Ok key.
Proof.
  destruct (detect_milestones_Ok_inv _ _ _ _ Hrun) as (final & Hfinal & -> & Hlog).
  rewrite Hlog in Hfetched.
  destruct (outcome (fetch_upcoming_milestones_from_event http location t))
    as [[next e]|ex] eqn:Hfetch.
  - destruct (fetch_ok_inv _ _ _ _ _ Hfetch) as (table & Hpage' & Hrows & _).
    rewrite (page_ok_functional _ _ _ _ Hpage' Hpage) in Hrows.
    assert (Hnext : In c next)
      by (apply (milestone_rows_In rows next c Hrows); auto).
    destruct (scan_loop_complete _ _ _ _ _ _ Hfinal _ _ _ _ c Hfetched Hfetch Hnext)
      as (key & Hkey & Hc).
    apply contains_In, in_map_iff in Hc as ([k v] & Hk & Hkv). cbn [fst] in Hk.
    subst k.
    pose proof (scan_loop_well_keyed _ _ _ _ _ _ well_keyed_nil Hfinal) as [_ Hwk].
    rewrite Forall_forall in Hwk. specialize (Hwk _ Hkv). cbn [fst snd] in Hwk.
    exists key, v. split; [assumption|]. split; [|assumption].
    unfold values. apply in_map_iff. exists (key, v). auto.
  - destruct (scan_loop_abort _ _ _ _ _ _ _ _ Hfetched Hfetch) as [Hex _].
    congruence.
Qed.

(** X10.  With a limit of zero or less the scan fetches nothing and
    returns the empty list. *)
Theorem detect_milestones_no_iterations (http : Http) (location : LocationEnum)
    (events_limit : Z) (Hlimit : events_limit <= 0) :
  detect_milestones http location events_limit = ([], Ok []).
Proof.
  unfold detect_milestones.
  replace (Z.to_nat events_limit) with 0%nat by lia. reflexivity.
Qed.

(** ** The walk back through the events, seen from outside *)

(** X11.  A scan with a positive limit first fetches the latest page.  If
    that fetch fails nothing else is fetched.  If it resolves event number
    [latest], the fetches that follow are for [latest - 1], [latest - 2],
    and so on, each exactly one less than the one before; the scan never
    makes more fetches than its limit. *)
Theorem detect_milestones_log_shape (http : Http) (location : LocationEnum)
    (events_limit : Z) (Hlimit : 0 < events_limit) :
  (raises (fetch_upcoming_milestones_from_event http location None) ->
   log_of (detect_milestones http location events_limit)
   = [Fetching None (LATEST_RESULTS_URL location)])
  /\ (forall rows latest,
        outcome (fetch_upcoming_milestones_from_event http location None)
        = Ok (rows, latest) ->
        exists k,
          log_of (detect_milestones http location events_limit)
          = Fetching None (LATEST_RESULTS_URL location)
            :: event_log location (latest - 1) k)
  /\ Z.of_nat (List.length (log_of (detect_milestones http location events_limit)))
     <= events_limit.
Proof.
  rewrite detect_milestones_unfold, log_of_pair. unfold raises.
  destruct (Z.to_nat events_limit) as [|n] eqn:Hn; [lia|].
  rewrite scan_loop_step. cbn zeta.
  change (request_url location None) with (LATEST_RESULTS_URL location).
  cbn [truthy].
  destruct (outcome (fetch_upcoming_milestones_from_event http location None))
    as [[rows0 e0]|ex].
  - destruct (add_celebrants e0 rows0 []) as [acc'|ex].
    + destruct (e0 - 1 =? 0) eqn:Hz; rewrite log_of_pair.
      * cbn [List.length]. split; [intros [ex Hex]; discriminate|].
        split; [|lia]. intros rows latest [= _ <-]. exists 0%nat. reflexivity.
      * apply Z.eqb_neq in Hz.
        destruct (scan_loop_event_log http location n (e0 - 1) acc' Hz)
          as (k & Hk & Hlog).
        rewrite Hlog.
        split; [intros [ex Hex]; discriminate|]. split.
        -- intros rows latest [= _ <-]. now exists k.
        -- cbn [List.length]. rewrite event_log_length. lia.
    + rewrite log_of_pair. cbn [List.length].
      split; [intros [ex' Hex]; discriminate|]. split; [|lia].
      intros rows latest [= _ <-]. exists 0%nat. reflexivity.
  - rewrite log_of_pair. cbn [List.length]. split; [reflexivity|].
    split; [discriminate | lia].
Qed.

(** From a positive event number, with every earlier page loading and
    holding rows that carry their attributes, the loop fetches as many
    events as its iterations or the event number allow, whichever is
    less, and returns. *)
Lemma scan_loop_full_history (http : Http) (location : LocationEnum) (n : nat) :
  forall (e : Z) (acc : dict),
    0 < e ->
    (forall i, 0 < i <= e ->
               exists rows, page_ok http (EVENT_RESULTS_URL location i) rows
                            /\ Forall complete rows) ->
    exists final,
      scan_loop http location n (Some e) acc
      = (event_log location e (Nat.min n (Z.to_nat e)), Ok final).
Proof.
  induction n as [|n IH]; intros e acc He Hpages.
  - exists acc. reflexivity.
  - destruct (Hpages e) as (rows & Hrows & Hcomplete); [lia|].
    assert (Hne : e <> 0) by lia.
    destruct (complete_milestone_rows _ Hcomplete) as (next & Hnext & Hn).
    destruct (complete_add_celebrants e next acc Hn) as [acc' Hacc'].
    pose proof (fetch_event_ok _ _ _ _ _ Hne Hrows Hnext) as Hfetch.
    destruct (Z.eq_dec (e - 1) 0) as [Hz|Hz].
    + rewrite (scan_loop_last _ _ _ _ _ _ _ _ _ Hfetch Hacc' Hz).
      replace (Nat.min (S n) (Z.to_nat e)) with 1%nat by lia.
      eexists. rewrite event_log_S. reflexivity.
    + rewrite (scan_loop_next _ _ _ _ _ _ _ _ _ Hfetch Hacc' Hz).
      destruct (IH (e - 1) acc') as [final Hfinal];
        [lia | intros i Hi; apply Hpages; lia |].
      rewrite Hfinal, log_of_pair, outcome_pair. cbn [app].
      replace (Nat.min (S n) (Z.to_nat e))
        with (S (Nat.min n (Z.to_nat (e - 1)))) by lia.
      eexists. rewrite event_log_S. reflexivity.
Qed.

(** X12.  When the latest page names a positive event number, the page of
    every earlier event loads, and the rows of all these pages carry
    their attributes, a scan with a positive limit returns a result after
    exactly as many fetches as the limit or the latest event number,
    whichever is less. *)
Theorem detect_milestones_full_history (http : Http) (location : LocationEnum)
    (events_limit latest : Z) (rows : list Parkrunner)
    (Hlimit : 0 < events_limit)
    (Hlatest : latest_ok http location rows latest)
    (Hcomplete : Forall complete rows)
    (Hpositive : 0 < latest)
    (Hpages : forall i, 0 < i < latest ->
                exists rows', page_ok http (EVENT_RESULTS_URL location i) rows'
                              /\ Forall complete rows') :
  (exists celebrants,
      outcome (detect_milestones http location events_limit) = Ok celebrants)
  /\ Z.of_nat (List.length (log_of (detect_milestones http location events_limit)))
     = Z.min events_limit latest.
Proof.
  rewrite detect_milestones_unfold, log_of_pair, outcome_pair.
  destruct (Z.to_nat events_limit) as [|n] eqn:Hn; [lia|].
  destruct (complete_milestone_rows _ Hcomplete) as (next & Hnext & Hcn).
  destruct (complete_add_celebrants latest next [] Hcn) as [acc' Hacc'].
  pose proof (fetch_latest_ok _ _ _ _ _ Hlatest Hnext) as Hfetch.
  destruct (Z.eq_dec (latest - 1) 0) as [Hz|Hz].
  - rewrite (scan_loop_last _ _ _ _ _ _ _ _ _ Hfetch Hacc' Hz).
    rewrite log_of_pair, outcome_pair. cbn [List.length]. split; [eauto | lia].
  - rewrite (scan_loop_next _ _ _ _ _ _ _ _ _ Hfetch Hacc' Hz).
    destruct (scan_loop_full_history http location n (latest - 1) acc')
      as [final Hfinal]; [lia | intros i Hi; apply Hpages; lia |].
    rewrite Hfinal, !log_of_pair, !outcome_pair.
    rewrite length_app, event_log_length. cbn [List.length].
    split; [eauto | lia].
Qed.

(** ** URLs *)

(** X13.  The URLs the fetch builds tell pages apart: the results URLs of
    two events are the same only for the same location and the same event
    number, no event's URL is the latest-results URL of any location, and
    the two locations have different latest-results URLs. *)
Theorem results_urls_distinct :
  (forall location location' e e',
      EVENT_RESULTS_URL location e = EVENT_RESULTS_URL location' e' ->
      location = location' /\ e = e')
  /\ (forall location location' e,
        LATEST_RESULTS_URL location <> EVENT_RESULTS_URL location' e)
  /\ (forall location location',
        LATEST_RESULTS_URL location = LATEST_RESULTS_URL location' ->
        location = location').
Proof.
  split; [exact EVENT_RESULTS_URL_inj|].
  split; [exact LATEST_RESULTS_URL_not_EVENT|].
  intros [] []; intros H; try reflexivity; discriminate H.
Qed.

(** X14.  Within one scan no URL is requested twice. *)
Theorem detect_milestones_fetches_each_page_once (http : Http)
    (location : LocationEnum) (events_limit : Z) :
  NoDup (map url_of (log_of (detect_milestones http location events_limit))).
Proof. apply detect_milestones_NoDup_urls. Qed.

(** ** A longer scan *)

Lemma scan_loop_more_iterations (http : Http) (location : LocationEnum)
    (n m : nat) :
  forall (event_id : option Z) (acc longer : dict),
    outcome (scan_loop http location (n + m) event_id acc) = Ok longer ->
    exists final added more,
      outcome (scan_loop http location n event_id acc) = Ok final
      /\ longer = final ++ added
      /\ log_of (scan_loop http location (n + m) event_id acc)
         = log_of (scan_loop http location n event_id acc) ++ more.
Proof.
  induction n as [|n IH]; intros event_id acc longer.
  - cbn [Nat.add]. intros H.
    destruct (scan_loop_prefix _ _ _ _ _ _ H) as [added ->].
    exists acc, added, (log_of (scan_loop http location m event_id acc)).
    split; [reflexivity|]. split; reflexivity.
  - cbn [Nat.add]. rewrite !scan_loop_step. cbn zeta.
    destruct (outcome (fetch_upcoming_milestones_from_event http location event_id))
      as [[rows e]|ex]; [|discriminate].
    destruct (add_celebrants e rows acc) as [acc'|ex]; [|discriminate].
    destruct (e - 1 =? 0).
    + rewrite !outcome_pair, !log_of_pair. intros [= <-].
      eexists _, [], []. rewrite !app_nil_r. auto.
    + rewrite !outcome_pair, !log_of_pair. intros H.
      destruct (IH _ _ _ H) as (final & added & more & Hfinal & -> & ->).
      exists final, added, more. auto.
Qed.

(** X18.  Raising the limit only appends: when a scan with the larger
    limit returns, the scan with the smaller limit returns too, its
    result is the beginning of the larger result, and its fetches are the
    first fetches of the larger scan. *)
Theorem detect_milestones_limit_monotone (http : Http) (location : LocationEnum)
    (events_limit events_limit' : Z) (longer : list Parkrunner)
    (Hle : events_limit <= events_limit')
    (Hrun : outcome (detect_milestones http location events_limit') = Ok longer) :
  exists celebrants added more,
    outcome (detect_milestones http location events_limit) = Ok celebrants
    /\ longer = celebrants ++ added
    /\ log_of (detect_milestones http location events_limit')
       = log_of (detect_milestones http location events_limit) ++ more.
Proof.
  destruct (detect_milestones_Ok_inv _ _ _ _ Hrun) as (final' & Hfinal' & -> & ->).
  replace (Z.to_nat events_limit')
    with (Z.to_nat events_limit + (Z.to_nat events_limit' - Z.to_nat events_limit))%nat
    in * by lia.
  destruct (scan_loop_more_iterations _ _ _ _ _ _ _ Hfinal')
    as (final & added & more & Hfinal & -> & ->).
  exists (values final), (values added), more.
  rewrite (detect_milestones_unfold http location events_limit).
  rewrite outcome_pair, log_of_pair, Hfinal.
  split; [reflexivity|]. split; [|reflexivity].
  unfold values. apply map_app.
Qed.

(** ** How a scan fails *)

Lemma generate_key_raises (c : Parkrunner) (ex : exn) :
  generate_key c = Raise ex
  <-> (data_runs c = None /\ ex = KeyError "data-runs")
      \/ (data_runs c <> None /\ data_name c = None /\ ex = KeyError "data-name")
      \/ (data_runs c <> None /\ data_name c <> None
          /\ data_agegroup c = None /\ ex = KeyError "data-agegroup").
Proof.
  unfold generate_key.
  destruct (data_runs c) as [runs|], (data_name c) as [name|],
    (data_agegroup c) as [agegroup|]; cbn [getitem and_then];
    (split;
     [ intros H; try discriminate H; injection H as <-;
       first [ left; split; [reflexivity | reflexivity]
             | right; left; repeat split; discriminate
             | right; right; repeat split; discriminate ]
     | intros [[H1 H2]|[(H1 & H2 & H3)|(H1 & H2 & H3 & H4)]];
       try discriminate; try congruence ]).
Qed.

(** The loop raises at its last fetch: that fetch raised, or one of the
    rows it returned has no key. *)
Lemma scan_loop_raises (http : Http) (location : LocationEnum) (n : nat) :
  forall (event_id : option Z) (acc : dict) (ex : exn),
    outcome (scan_loop http location n event_id acc) = Raise ex ->
    exists before t,
      log_of (scan_loop http location n event_id acc)
      = before ++ [Fetching t (request_url location t)]
      /\ (outcome (fetch_upcoming_milestones_from_event http location t)
          = Raise ex
          \/ exists next e c,
               outcome (fetch_upcoming_milestones_from_event http location t)
               = Ok (next, e)
               /\ In c next
               /\ generate_key c = Raise ex).
Proof.
  induction n as [|n IH]; intros event_id acc ex.
  - cbn. discriminate.
  - rewrite scan_loop_step. cbn zeta.
    rewrite <- (request_url_truthy location event_id).
    destruct (outcome (fetch_upcoming_milestones_from_event http location event_id))
      as [[next e]|ex0] eqn:Hfetch.
    + destruct (add_celebrants e next acc) as [acc'|ex1] eqn:Hadd.
      * destruct (e - 1 =? 0); rewrite outcome_pair, log_of_pair;
          [discriminate|].
        intros H. destruct (IH _ _ _ H) as (before & t & -> & Hcase).
        exists (Fetching (truthy event_id)
                  (request_url location (truthy event_id)) :: before), t.
        split; [reflexivity | assumption].
      * rewrite outcome_pair, log_of_pair. intros [= ->].
        exists [], (truthy event_id). split; [reflexivity|]. right.
        rewrite fetch_truthy. exists next, e.
        unfold add_celebrants in Hadd.
        destruct (sorted runs_key next) as [ordered|ex'] eqn:Hs;
          cbn [and_then] in Hadd.
        -- apply add_each_raises in Hadd as (c & Hc & Hk).
           destruct (sorted_inv _ _ _ Hs) as (Hp & _).
           exists c. split; [exact Hfetch|].
           split; [now apply (Permutation_in _ Hp) | assumption].
        -- injection Hadd as ->.
           apply sorted_raises in Hs as (x & Hx & Hr).
           pose proof (fetch_ok_rows _ _ _ _ _ Hfetch) as Hruns.
           rewrite Forall_forall in Hruns. destruct (Hruns x Hx) as [m Hm].
           apply runs_key_runs_of in Hm. congruence.
    + rewrite outcome_pair, log_of_pair. intros [= ->].
      exists [], (truthy event_id). split; [reflexivity|]. left.
      now rewrite fetch_truthy.
Qed.

(** X20.  A scan raises exactly when a fetch it made raised or returned a
    qualifying row of which no key can be made.  The exception is then
    the one of the last fetch, or a [KeyError] for the name or the age
    group that a row returned by the last fetch lacks; nothing is fetched
    afterwards. *)
Theorem detect_milestones_raises_iff (http : Http) (location : LocationEnum)
    (events_limit : Z) :
  (raises (detect_milestones http location events_limit)
   <-> exists t u,
         In (Fetching t u) (log_of (detect_milestones http location events_limit))
         /\ (raises (fetch_upcoming_milestones_from_event http location t)
             \/ exists next e c,
                  outcome (fetch_upcoming_milestones_from_event http location t)
                  = Ok (next, e)
                  /\ In c next
                  /\ raises (lift (generate_key c))))
  /\ (forall ex,
        outcome (detect_milestones http location events_limit) = Raise ex ->
        exists before t,
          log_of (detect_milestones http location events_limit)
          = before ++ [Fetching t (request_url location t)]
          /\ (outcome (fetch_upcoming_milestones_from_event http location t)
              = Raise ex
              \/ exists next e c,
                   outcome (fetch_upcoming_milestones_from_event http location t)
                   = Ok (next, e)
                   /\ In c next
                   /\ check_milestone c = Ok true
                   /\ generate_key c = Raise ex
                   /\ (ex = KeyError "data-name"
                       \/ ex = KeyError "data-agegroup"))).
Proof.
  assert (Hlast : forall ex,
        outcome (detect_milestones http location events_limit) = Raise ex ->
        exists before t,
          log_of (detect_milestones http location events_limit)
          = before ++ [Fetching t (request_url location t)]
          /\ (outcome (fetch_upcoming_milestones_from_event http location t)
              = Raise ex
              \/ exists next e c,
                   outcome (fetch_upcoming_milestones_from_event http location t)
                   = Ok (next, e)
                   /\ In c next
                   /\ check_milestone c = Ok true
                   /\ generate_key c = Raise ex
                   /\ (ex = KeyError "data-name"
                       \/ ex = KeyError "data-agegroup"))).
  { intros ex. rewrite detect_milestones_unfold, outcome_pair, log_of_pair.
    destruct (outcome (scan_loop http location (Z.to_nat events_limit) None []))
      as [final|ex'] eqn:Hrun; [discriminate|].
    intros [= ->].
    destruct (scan_loop_raises _ _ _ _ _ _ Hrun)
      as (before & t & Hlog & [Hf|(next & e & c & Hf & Hc & Hk)]).
    - exists before, t. auto.
    - exists before, t. split; [assumption|]. right. exists next, e, c.
      destruct (fetch_ok_inv _ _ _ _ _ Hf) as (rows & _ & Hrows & _).
      apply (milestone_rows_In rows next c Hrows) in Hc as Hc'.
      destruct Hc' as [_ Hm].
      split; [assumption|]. split; [assumption|]. split; [assumption|].
      split; [assumption|].
      destruct (check_milestone_runs c true Hm) as [m Hruns].
      unfold runs_of in Hruns.
      apply generate_key_raises in Hk
        as [[Hr _]|[(_ & _ & ->)|(_ & _ & _ & ->)]]; auto.
      rewrite Hr in Hruns. discriminate. }
  split; [|exact Hlast]. split.
  - intros [ex Hex]. destruct (Hlast ex Hex) as (before & t & Hlog & Hcase).
    exists t, (request_url location t). split.
    + rewrite Hlog. apply in_or_app. right. now left.
    + destruct Hcase as [Hf|(next & e & c & Hf & Hc & _ & Hk & _)].
      * left. now exists ex.
      * right. exists next, e, c. split; [assumption|]. split; [assumption|].
        now exists ex.
  - intros (t & u & Hin & Hcase).
    destruct (outcome (detect_milestones http location events_limit))
      as [celebrants|ex] eqn:Hrun; [|now exists ex].
    exfalso.
    destruct (detect_milestones_Ok_inv _ _ _ _ Hrun) as (final & Hfinal & _ & Hlog).
    rewrite Hlog in Hin.
    destruct Hcase as [[ex Hf]|(next & e & c & Hf & Hc & [ex Hk])].
    + destruct (scan_loop_abort _ _ _ _ _ _ _ _ Hin Hf) as [Hr _]. congruence.
    + destruct (scan_loop_complete _ _ _ _ _ _ Hfinal _ _ _ _ c Hin Hf Hc)
        as (k & Hkey & _).
      unfold lift in Hk. rewrite outcome_pair in Hk. congruence.
Qed.

(** ** The table *)

Lemma table_row_Ok (p : Parkrunner) (r : list cell) :
  table_row p = Ok r
  <-> exists runs name agegroup event_id,
        data_runs p = Some runs
        /\ data_name p = Some name
        /\ data_agegroup p = Some agegroup
        /\ data_event_id p = Some event_id
        /\ r = [StrCell runs; StrCell name; StrCell agegroup; event_id].
Proof.
  unfold table_row.
  destruct (data_runs p) as [runs|], (data_name p) as [name|],
    (data_agegroup p) as [agegroup|], (data_event_id p) as [event_id|];
    cbn [getitem and_then];
    (split;
     [ intros H; try discriminate H; injection H as <-;
       exists runs, name, agegroup, event_id; auto
     | intros (r' & n' & a' & e' & H1 & H2 & H3 & H4 & ->);
       try discriminate; congruence ]).
Qed.

Lemma table_rows_Ok (l : list Parkrunner) :
  forall rows,
    table_rows l = Ok rows <-> Forall2 (fun p r => table_row p = Ok r) l rows.
Proof.
  induction l as [|p l IH]; intros rows; cbn [table_rows].
  - split; [intros [= <-]; constructor | intros H; now inversion H].
  - rewrite and_then_Ok. split.
    + intros (r & Hr & H). apply and_then_Ok in H as (rs & Hrs & [= <-]).
      constructor; [assumption | now apply IH].
    + intros H. inversion H as [|? r ? rs Hr Hrs]; subst.
      exists r. split; [assumption|].
      apply and_then_Ok. exists rs. split; [now apply IH | reflexivity].
Qed.

Lemma Forall2_In_left {A B : Type} (R : A -> B -> Prop) (l : list A)
    (l' : list B) (x : A) :
  Forall2 R l l' -> In x l -> exists y, In y l' /\ R x y.
Proof.
  induction 1 as [|a b l l' Hab Hl IH]; intros Hin; [contradiction|].
  destruct Hin as [->|Hin].
  - exists b. split; [now left | assumption].
  - destruct (IH Hin) as (y & Hy & Hxy). exists y. split; [now right | assumption].
Qed.

Lemma table_rows_raises (l : list Parkrunner) (err : exn) :
  table_rows l = Raise err -> exists p, In p l /\ table_row p = Raise err.
Proof.
  induction l as [|p l IH]; cbn [table_rows]; [discriminate|].
  destruct (table_row p) as [r|ex] eqn:Hr; cbn [and_then].
  - destruct (table_rows l) as [rs|ex]; cbn [and_then]; [discriminate|].
    intros [= ->]. destruct (IH eq_refl) as (q & Hq & Hrq).
    exists q. split; [now right | assumption].
  - intros [= ->]. exists p. split; [now left | assumption].
Qed.

Lemma table_rows_total (l : list Parkrunner) :
  Forall (fun p => exists r, table_row p = Ok r) l ->
  exists rows, table_rows l = Ok rows.
Proof.
  induction 1 as [|p l [r Hr] Hl [rows Hrows]].
  - exists []. reflexivity.
  - exists (r :: rows). cbn [table_rows]. now rewrite Hr, Hrows.
Qed.

Lemma table_row_complete (p : Parkrunner) :
  complete p ->
  match data_event_id p with
  | Some _ => exists r, table_row p = Ok r
  | None => table_row p = Raise (KeyError "data-event-id")
  end.
Proof.
  intros [[[n name] agegroup] Ht]. unfold triple, runs_of in Ht.
  unfold table_row.
  destruct (data_runs p) as [runs|]; [|discriminate].
  destruct (py_int runs); [|discriminate].
  destruct (data_name p); [|discriminate].
  destruct (data_agegroup p); [|discriminate].
  cbn [getitem and_then]. destruct (data_event_id p); eauto.
Qed.

Lemma table_row_Ok_complete (p : Parkrunner) (r : list cell) (n : Z) :
  table_row p = Ok r -> runs_of p = Some n ->
  complete p /\ data_event_id p <> None.
Proof.
  intros Hr Hn.
  apply table_row_Ok in Hr as (runs & name & agegroup & e & H1 & H2 & H3 & H4 & _).
  split; [|congruence].
  exists (n, name, agegroup). unfold triple. now rewrite Hn, H2, H3.
Qed.

Lemma complete_neg_runs_key (p : Parkrunner) :
  complete p -> exists n, neg_runs_key p = Ok n.
Proof.
  intros Hc. destruct (complete_runs p Hc) as [n Hn].
  exists (- n). apply neg_runs_key_Ok. now rewrite Z.opp_involutive.
Qed.

(** The report on records that carry their attributes and a stamp. *)
Lemma print_celebrants_Ok (celebrants : list Parkrunner) :
  Forall (fun p => complete p /\ data_event_id p <> None) celebrants ->
  exists ordered rows,
    print_celebrants celebrants
    = Ok {| table := rows;
            headers := ["Events"; "Parkrunner"; "Age group"; "Last event ID"] |}
    /\ Forall2 (fun p r =>
                  exists runs name agegroup event_id,
                    data_runs p = Some runs
                    /\ data_name p = Some name
                    /\ data_agegroup p = Some agegroup
                    /\ data_event_id p = Some event_id
                    /\ r = [StrCell runs; StrCell name; StrCell agegroup;
                            event_id])
               ordered rows
    /\ Permutation ordered celebrants
    /\ StronglySorted (fun a b => runs_le b a) ordered
    /\ (forall k, filter (key_is runs_key k) ordered
                  = filter (key_is runs_key k) celebrants).
Proof.
  intros Hall. unfold print_celebrants.
  destruct (sorted_total neg_runs_key celebrants) as [ordered Hs].
  { eapply Forall_impl; [|exact Hall]. cbn. intros p [Hc _].
    now apply complete_neg_runs_key. }
  rewrite Hs. cbn [and_then].
  destruct (sorted_inv _ _ _ Hs) as (Hperm & Hsorted & Hstable).
  assert (Hord : Forall (fun p => exists r, table_row p = Ok r) ordered).
  { apply Forall_forall. intros p Hp. rewrite Forall_forall in Hall.
    destruct (Hall p (Permutation_in _ Hperm Hp)) as [Hc He].
    pose proof (table_row_complete p Hc) as Hrow.
    destruct (data_event_id p); [assumption | contradiction]. }
  destruct (table_rows_total ordered Hord) as [rows Hrows].
  rewrite Hrows. cbn [and_then]. exists ordered, rows.
  split; [reflexivity|]. split; [|split; [assumption|split]].
  - apply table_rows_Ok in Hrows.
    eapply Forall2_impl; [|exact Hrows]. intros p r. apply table_row_Ok.
  - eapply StronglySorted_impl; [|exact Hsorted].
    intros a b. apply key_le_neg_runs.
  - intros k. rewrite <- !(filter_ext _ _ (key_is_neg_runs k)). apply Hstable.
Qed.

(** X2.  Given records that carry run count, name, age group and an event
    number, the report is one table row per record, holding the texts of
    run count, name and age group and the event number, under the four
    headers; the rows run from the highest run count to the lowest, and
    records with the same run count keep their order. *)
Theorem print_celebrants_descending (celebrants : list Parkrunner)
    (Hcomplete : Forall complete celebrants)
    (Hstamped : Forall (fun p => data_event_id p <> None) celebrants) :
  exists ordered rows,
    print_celebrants celebrants
    = Ok {| table := rows;
            headers := ["Events"; "Parkrunner"; "Age group"; "Last event ID"] |}
    /\ Forall2 (fun p r =>
                  exists runs name agegroup event_id,
                    data_runs p = Some runs
                    /\ data_name p = Some name
                    /\ data_agegroup p = Some agegroup
                    /\ data_event_id p = Some event_id
                    /\ r = [StrCell runs; StrCell name; StrCell agegroup;
                            event_id])
               ordered rows
    /\ Permutation ordered celebrants
    /\ StronglySorted (fun a b => runs_le b a) ordered
    /\ (forall k, filter (key_is runs_key k) ordered
                  = filter (key_is runs_key k) celebrants).
Proof.
  apply print_celebrants_Ok. apply Forall_forall. intros p Hp.
  rewrite Forall_forall in Hcomplete, Hstamped. auto.
Qed.

(** X3.  The report goes through exactly when every record carries a run
    count that [int] reads, a name, an age group and an event number.
    Given records that carry the first three, it fails exactly when some
    record carries no event number, and then with the [KeyError] for
    ["data-event-id"]. *)
Theorem print_celebrants_key_error (celebrants : list Parkrunner) :
  ((exists call, print_celebrants celebrants = Ok call)
   <-> Forall (fun p => complete p /\ data_event_id p <> None) celebrants)
  /\ (Forall complete celebrants ->
      (print_celebrants celebrants = Raise (KeyError "data-event-id")
       <-> exists p, In p celebrants /\ data_event_id p = None)
      /\ (forall err, print_celebrants celebrants = Raise err ->
                      err = KeyError "data-event-id")).
Proof.
  assert (Hiff : (exists call, print_celebrants celebrants = Ok call)
                 <-> Forall (fun p => complete p /\ data_event_id p <> None)
                            celebrants).
  { split.
    - intros [call H]. unfold print_celebrants in H.
      apply and_then_Ok in H as (ordered & Hs & H).
      apply and_then_Ok in H as (rows & Hrows & _).
      pose proof (sorted_Ok_keys _ _ _ Hs) as Hkeys.
      destruct (sorted_inv _ _ _ Hs) as (Hperm & _).
      apply table_rows_Ok in Hrows.
      apply Forall_forall. intros p Hp.
      rewrite Forall_forall in Hkeys. destruct (Hkeys p Hp) as [n Hn].
      apply neg_runs_key_Ok in Hn.
      apply (Permutation_in _ (Permutation_sym Hperm)) in Hp.
      destruct (Forall2_In_left _ _ _ _ Hrows Hp) as (r & _ & Hr).
      exact (table_row_Ok_complete p r _ Hr Hn).
    - intros H. destruct (print_celebrants_Ok celebrants H) as (o & rows & Hp & _).
      eauto. }
  split; [exact Hiff|]. intros Hcomplete.
  assert (Herr : forall err, print_celebrants celebrants = Raise err ->
                             err = KeyError "data-event-id"
                             /\ exists p, In p celebrants /\ data_event_id p = None).
  { intros err H. unfold print_celebrants in H.
    destruct (sorted_total neg_runs_key celebrants) as [ordered Hs].
    { eapply Forall_impl; [|exact Hcomplete]. cbn.
      apply complete_neg_runs_key. }
    rewrite Hs in H. cbn [and_then] in H.
    destruct (sorted_inv _ _ _ Hs) as (Hperm & _).
    destruct (table_rows ordered) as [rows|ex] eqn:Hrows; [discriminate|].
    injection H as ->.
    apply table_rows_raises in Hrows as (p & Hp & Hr).
    apply (Permutation_in _ Hperm) in Hp.
    rewrite Forall_forall in Hcomplete.
    pose proof (table_row_complete p (Hcomplete p Hp)) as Hrow.
    destruct (data_event_id p) eqn:He.
    - destruct Hrow as [r Hr']. congruence.
    - split; [congruence | eauto]. }
  split; [split|].
  - intros H. now apply Herr in H.
  - intros (p & Hp & He).
    destruct (print_celebrants celebrants) as [call|err] eqn:Hprint.
    + pose proof (proj1 Hiff (ex_intro _ call eq_refl)) as Hex.
      rewrite Forall_forall in Hex.
      destruct (Hex p Hp) as [_ Hne]. contradiction.
    + destruct (Herr err eq_refl) as [-> _]. reflexivity.
  - intros err H. now apply Herr in H.
Qed.

(** ** The program *)

(** X15.  The program prints whatever the scan returns, one table row per
    record under the four headers: the report never fails on the result
    of a scan.  The program fails exactly when the scan fails, with the
    exception of the scan, and it makes the requests of the scan. *)
Theorem main_prints_what_the_scan_returns (http : Http) :
  log_of (main http) = log_of (detect_milestones http LOCATION EVENTS_LIMIT)
  /\ (forall e,
        outcome (main http) = Raise e
        <-> outcome (detect_milestones http LOCATION EVENTS_LIMIT) = Raise e)
  /\ (forall milestoners,
        outcome (detect_milestones http LOCATION EVENTS_LIMIT) = Ok milestoners ->
        exists call,
          outcome (main http) = Ok call
          /\ print_celebrants milestoners = Ok call
          /\ List.length (table call) = List.length milestoners
          /\ headers call
             = ["Events"; "Parkrunner"; "Age group"; "Last event ID"]).
Proof.
  unfold main.
  destruct (detect_milestones http LOCATION EVENTS_LIMIT) as [log [milestoners|ex]]
    eqn:Hscan; unfold bind, lift; rewrite ?outcome_pair, ?log_of_pair.
  - assert (Hrun : outcome (detect_milestones http LOCATION EVENTS_LIMIT)
                   = Ok milestoners) by (now rewrite Hscan).
    apply detect_milestones_returns in Hrun.
    assert (Hall : Forall (fun p => complete p /\ data_event_id p <> None)
                          milestoners).
    { eapply Forall_impl; [|exact Hrun]. cbn. intros p [Hc [e He]].
      split; [assumption | congruence]. }
    destruct (print_celebrants_Ok milestoners Hall)
      as (ordered & rows & Hcall & Hrows & Hperm & _).
    rewrite Hcall.
    split; [apply app_nil_r|]. split; [split; discriminate|].
    intros ? [= <-]. eexists. split; [reflexivity|]. split; [exact Hcall|].
    cbn [table headers]. split; [|reflexivity].
    rewrite <- (Forall2_length Hrows). now apply Permutation_length.
  - split; [reflexivity|]. split; [split; congruence | discriminate].
Qed.

(** X16.  The program makes at most five requests, and every one of them
    is for a results page of the Cytadela location. *)
Theorem main_requests (http : Http) :
  (List.length (log_of (main http)) <= 5)%nat
  /\ Forall (fun r => String.prefix "http://www.parkrun.pl/poznan/results/"
                        (url_of r) = true)
            (log_of (main http)).
Proof.
  assert (Hlog : log_of (main http)
                 = log_of (detect_milestones http LOCATION EVENTS_LIMIT)).
  { unfold main, bind, lift.
    destruct (detect_milestones http LOCATION EVENTS_LIMIT) as [log [m|ex]];
      rewrite !log_of_pair; [apply app_nil_r | reflexivity]. }
  rewrite Hlog.
  destruct (detect_milestones_log_cases http LOCATION EVENTS_LIMIT)
    as [->|(e & k & Hk & ->)].
  - split; [cbn; lia | constructor].
  - cbn [List.length]. rewrite event_log_length. split.
    + change (Z.to_nat EVENTS_LIMIT) with 5%nat in Hk. lia.
    + constructor; [reflexivity|].
      apply Forall_forall. intros r Hr.
      apply In_event_log in Hr as (i & _ & ->). cbn [url_of].
      change (EVENT_RESULTS_URL LOCATION (e - i))
        with ("http://www.parkrun.pl/poznan/results/"
                ++ (str_int (e - i) ++ "/"))%string.
      apply prefix_append.
Qed.

End Program.

(** * The statements on concrete pages

    Python's [int] is taken to be [decimal_int] here. *)

(** ** Where the claims as stated fail *)

(** C1, as the claim states it, fails in both directions.  Two rows with
    different triples have the same key and are merged into one entry; and
    two rows with the same triple, whose run counts are written "24" and
    "024", have different keys and are kept as two entries. *)
Lemma generate_key_not_injective_on_triples :
  (generate_key runner_hyphen_name = generate_key runner_hyphen_group
   /\ triple decimal_int runner_hyphen_name
      <> triple decimal_int runner_hyphen_group
   /\ add_celebrant 10 [] runner_hyphen_name
      = Ok [("24-A-B-C", set_event_id 10 runner_hyphen_name)]
   /\ add_celebrant 9 [("24-A-B-C", set_event_id 10 runner_hyphen_name)]
        runner_hyphen_group
      = Ok [("24-A-B-C", set_event_id 10 runner_hyphen_name)])
  /\ (triple decimal_int runner_A = triple decimal_int runner_A_zero
      /\ generate_key runner_A <> generate_key runner_A_zero
      /\ add_celebrant 10 [] runner_A = Ok [("24-A-", set_event_id 10 runner_A)]
      /\ add_celebrant 9 [("24-A-", set_event_id 10 runner_A)] runner_A_zero
         = Ok [("24-A-", set_event_id 10 runner_A);
               ("024-A-", set_event_id 9 runner_A_zero)]).
Proof.
  split.
  - split; [reflexivity|]. split; [discriminate|]. split; reflexivity.
  - split; [reflexivity|]. split; [discriminate|]. split; reflexivity.
Qed.

(** C2, as the claim states it, fails: when the header of the latest page
    reads 0 the decremented event number is -1, the loop goes on, and
    pages for events -1 and -2 are asked for. *)
Lemma fetch_attempted_for_negative_id :
  log_of (detect_milestones decimal_int http_from_zero CYTADELA 3)
  = [Fetching None "http://www.parkrun.pl/poznan/results/latestresults/";
     Fetching (Some (-1)) "http://www.parkrun.pl/poznan/results/-1/";
     Fetching (Some (-2)) "http://www.parkrun.pl/poznan/results/-2/"]
  /\ In (Fetching (Some (-1)) (EVENT_RESULTS_URL CYTADELA (-1)))
        (log_of (detect_milestones decimal_int http_from_zero CYTADELA 3))
  /\ -1 <= 0.
Proof.
  split; [reflexivity|]. split; [|lia]. right. left. reflexivity.
Qed.

(** C4, as the claim states it, fails in two ways.  A triple that occurs
    on two consecutive scanned events and qualifies has no entry in the
    result, because a row with another triple and the same key came
    first.  And a triple that occurs on two consecutive scanned events,
    with its run count written "24" on one and "024" on the other, has two
    entries in the result. *)
Lemma first_occurrence_is_by_key_not_by_triple :
  (latest_ok http_collision CYTADELA [runner_hyphen_name; runner_hyphen_group] 10
   /\ page_ok http_collision (EVENT_RESULTS_URL CYTADELA 9) [runner_hyphen_group]
   /\ check_milestone decimal_int runner_hyphen_group = Ok true
   /\ outcome (detect_milestones decimal_int http_collision CYTADELA 2)
      = Ok [set_event_id 10 runner_hyphen_name]
   /\ triple decimal_int (set_event_id 10 runner_hyphen_name)
      <> triple decimal_int runner_hyphen_group)
  /\ (latest_ok http_leading_zero CYTADELA [runner_A] 10
      /\ page_ok http_leading_zero (EVENT_RESULTS_URL CYTADELA 9) [runner_A_zero]
      /\ triple decimal_int runner_A_zero = triple decimal_int runner_A
      /\ check_milestone decimal_int runner_A = Ok true
      /\ check_milestone decimal_int runner_A_zero = Ok true
      /\ outcome (detect_milestones decimal_int http_leading_zero CYTADELA 2)
         = Ok [set_event_id 10 runner_A; set_event_id 9 runner_A_zero]
      /\ triple decimal_int (set_event_id 10 runner_A)
         = triple decimal_int (set_event_id 9 runner_A_zero)).
Proof.
  split.
  - split; [eexists; repeat split; reflexivity|].
    split; [eexists; repeat split; reflexivity|].
    split; [reflexivity|]. split; [reflexivity | discriminate].
  - split; [eexists; repeat split; reflexivity|].
    split; [eexists; repeat split; reflexivity|].
    repeat split; reflexivity.
Qed.

(** ** The statements at work *)

Lemma generate_key_decides_merging_witness :
  (forall e1 e2 acc,
      exists acc1,
        add_celebrant e1 acc runner_hyphen_name = Ok acc1
        /\ (add_celebrant e2 acc1 runner_hyphen_group = Ok acc1
            <-> "24-A-B-C" = "24-A-B-C" \/ contains "24-A-B-C" acc = true))
  /\ (forall e1 e2 acc acc1,
        well_keyed acc ->
        add_celebrant e1 acc runner_hyphen_name = Ok acc1 ->
        "24-A-B-C" = "24-A-B-C" ->
        exists v,
          add_celebrant e2 acc1 runner_hyphen_group = Ok acc1
          /\ filter (has_key "24-A-B-C") (values acc1) = [v]
          /\ lookup "24-A-B-C" acc1 = Some v
          /\ (contains "24-A-B-C" acc = false ->
              v = set_event_id e1 runner_hyphen_name)).
Proof.
  destruct (generate_key_decides_merging decimal_int
              runner_hyphen_name runner_hyphen_group "24-A-B-C" "24-A-B-C"
              eq_refl eq_refl) as (H1 & H2 & _).
  split; [exact H1 | exact H2].
Defined.

Lemma check_milestone_classifies_witness :
  check_milestone decimal_int (row "9" "A" "") = Ok true
  /\ check_milestone decimal_int (row "9" "A" "SM35-39") = Ok false
  /\ check_milestone decimal_int (row "23" "A" "JM10") = Ok false
  /\ (check_milestone decimal_int (row "9" "A" "JW10") = Ok true
      <-> In (9 + 1) [25; 50; 100; 250; 500]
          \/ ((exists rest, "JW10" = String "J" rest) \/ "JW10" = EmptyString)
             /\ In (9 + 1) [10]).
Proof.
  destruct (check_milestone_classifies decimal_int) as (H & H9 & H9s & H23).
  split; [apply H9; reflexivity|].
  split; [apply H9s; reflexivity|].
  split; [apply H23; reflexivity|].
  apply (H (row "9" "A" "JW10") "9" 9 "JW10"); reflexivity.
Defined.

Lemma no_fetch_for_nonpositive_id_witness :
  (forall e u,
      In (Fetching (Some e) u)
         (log_of (detect_milestones decimal_int http_three CYTADELA 100)) ->
      0 < e)
  /\ (forall rows latest,
        outcome (fetch_upcoming_milestones_from_event decimal_int
                   http_three CYTADELA None)
        = Ok (rows, latest) ->
        Z.of_nat (List.length
                    (log_of (detect_milestones decimal_int http_three CYTADELA 100)))
        <= latest).
Proof.
  apply (no_fetch_for_nonpositive_id decimal_int http_three CYTADELA 100).
  intros rows latest H. vm_compute in H. injection H as _ <-. reflexivity.
Defined.

Lemma three_events_three_fetches_witness :
  log_of (detect_milestones decimal_int http_three CYTADELA 100)
  = [Fetching None (LATEST_RESULTS_URL CYTADELA);
     Fetching (Some 2) (EVENT_RESULTS_URL CYTADELA 2);
     Fetching (Some 1) (EVENT_RESULTS_URL CYTADELA 1)]
  /\ List.length (log_of (detect_milestones decimal_int http_three CYTADELA 100))
     = 3%nat
  /\ exists celebrants,
       outcome (detect_milestones decimal_int http_three CYTADELA 100)
       = Ok celebrants.
Proof.
  apply (three_events_three_fetches decimal_int http_three CYTADELA
           [runner_B] [runner_A] []).
  - eexists. repeat split; reflexivity.
  - eexists. repeat split; reflexivity.
  - eexists. repeat split; reflexivity.
  - repeat constructor. eexists. reflexivity.
  - repeat constructor. eexists. reflexivity.
  - constructor.
Defined.

Lemma first_occurrence_wins_witness :
  (forall e acc c,
      generate_key c = Ok "24-A-" -> contains "24-A-" acc = true ->
      add_celebrant e acc c = Ok acc)
  /\ (exists earlier first later rows e c,
        [Fetching None "http://www.parkrun.pl/poznan/results/latestresults/"]
          ++ [Fetching (Some 9) "http://www.parkrun.pl/poznan/results/9/"]
        = earlier ++ Fetching first (request_url CYTADELA first) :: later
        /\ (forall t u, In (Fetching t u) earlier ->
                        ~ page_holds decimal_int http_stale CYTADELA t "24-A-")
        /\ page_ok http_stale (request_url CYTADELA first) rows
        /\ resolves http_stale CYTADELA first e
        /\ In c rows
        /\ check_milestone decimal_int c = Ok true
        /\ generate_key c = Ok "24-A-"
        /\ filter (has_key "24-A-")
             [set_event_id 10 runner_B; set_event_id 9 runner_A]
           = [set_event_id e c])
  /\ ((forall t u,
          In (Fetching t u)
             [Fetching None "http://www.parkrun.pl/poznan/results/latestresults/"] ->
          ~ page_holds decimal_int http_stale CYTADELA t "24-A-") ->
      exists rows e1 c,
        page_ok http_stale (request_url CYTADELA (Some 9)) rows
        /\ resolves http_stale CYTADELA (Some 9) e1
        /\ Some 8 = Some (e1 - 1)
        /\ In c rows
        /\ check_milestone decimal_int c = Ok true
        /\ generate_key c = Ok "24-A-"
        /\ filter (has_key "24-A-")
             [set_event_id 10 runner_B; set_event_id 9 runner_A]
           = [set_event_id e1 c]
        /\ exists rows2 c2,
             page_ok http_stale (request_url CYTADELA (Some 8)) rows2
             /\ In c2 rows2
             /\ check_milestone decimal_int c2 = Ok true
             /\ generate_key c2 = Ok "24-A-"
             /\ resolves http_stale CYTADELA (Some 8) (e1 - 1)
             /\ ~ In (set_event_id (e1 - 1) c2)
                     [set_event_id 10 runner_B; set_event_id 9 runner_A]).
Proof.
  apply (first_occurrence_wins decimal_int http_stale CYTADELA 3
           [set_event_id 10 runner_B; set_event_id 9 runner_A]
           [Fetching None "http://www.parkrun.pl/poznan/results/latestresults/"]
           []
           (Some 9) (Some 8)
           "http://www.parkrun.pl/poznan/results/9/"
           "http://www.parkrun.pl/poznan/results/8/"
           "24-A-").
  - reflexivity.
  - reflexivity.
  - exists [runner_A], runner_A.
    split; [eexists; repeat split; reflexivity|].
    split; [now left|]. split; reflexivity.
  - exists [runner_A], runner_A.
    split; [eexists; repeat split; reflexivity|].
    split; [now left|]. split; reflexivity.
Defined.

Lemma fetch_failure_aborts_scan_witness :
  (exists ex,
      outcome (fetch_upcoming_milestones_from_event decimal_int
                 http_bad_row CYTADELA (Some 8))
      = Raise ex
      /\ outcome (detect_milestones decimal_int http_bad_row CYTADELA 3)
         = Raise ex)
  /\ (forall celebrants,
        outcome (detect_milestones decimal_int http_bad_row CYTADELA 3)
        <> Ok celebrants)
  /\ (exists before,
        log_of (detect_milestones decimal_int http_bad_row CYTADELA 3)
        = before ++ [Fetching (Some 8) "http://www.parkrun.pl/poznan/results/8/"]
        /\ ~ In "http://www.parkrun.pl/poznan/results/8/" (map url_of before)
        /\ ~ In (Fetching (Some 8) "http://www.parkrun.pl/poznan/results/8/")
                before)
  /\ count_occ string_dec
       (map url_of (log_of (detect_milestones decimal_int http_bad_row CYTADELA 3)))
       "http://www.parkrun.pl/poznan/results/8/"
     = 1%nat.
Proof.
  apply (fetch_failure_aborts_scan decimal_int http_bad_row CYTADELA 3 (Some 8)
           "http://www.parkrun.pl/poznan/results/8/").
  - right. right. left. reflexivity.
  - right. right. left.
    exists [runner_no_agegroup], runner_no_agegroup, (KeyError "data-agegroup").
    split; [reflexivity|]. split; [now left | reflexivity].
Defined.

Lemma detect_milestones_deterministic_witness :
  detect_milestones decimal_int http_example CYTADELA 2
  = detect_milestones decimal_int http_example_again CYTADELA 2.
Proof.
  apply (detect_milestones_deterministic decimal_int
           http_example http_example_again CYTADELA 2).
  intros t u H. vm_compute in H.
  destruct H as [[= _ <-]|[[= _ <-]|[]]]; reflexivity.
Defined.

Lemma accumulation_map_grows_monotonically_witness :
  exists final,
    outcome (scan_loop decimal_int http_example CYTADELA 1 (Some 9)
               [("49-B-SW30", set_event_id 10 runner_B)]) = Ok final
    /\ (exists added, final = [("49-B-SW30", set_event_id 10 runner_B)] ++ added)
    /\ lookup "49-B-SW30" final = Some (set_event_id 10 runner_B).
Proof.
  eexists. split; [reflexivity|].
  destruct (accumulation_map_grows_monotonically decimal_int
              http_example CYTADELA 1 (Some 9)
              [("49-B-SW30", set_event_id 10 runner_B)] _ eq_refl)
    as (Hadd & Hkeep & _).
  split; [exact Hadd|]. apply Hkeep. reflexivity.
Defined.

Lemma end_to_end_example_witness :
  detect_milestones decimal_int http_example CYTADELA 2
  = ([Fetching None (LATEST_RESULTS_URL CYTADELA);
      Fetching (Some 9) (EVENT_RESULTS_URL CYTADELA 9)],
     Ok [mkParkrunner (Some "24") (Some "A") (Some "") (Some (IntCell 10));
         mkParkrunner (Some "49") (Some "B") (Some "SW30") (Some (IntCell 10))]).
Proof.
  apply (end_to_end_example decimal_int http_example CYTADELA None None None).
  - reflexivity.
  - reflexivity.
  - reflexivity.
  - eexists. repeat split; reflexivity.
  - eexists. repeat split; reflexivity.
Defined.

Lemma sorted_stable_ascending_witness :
  Permutation [runner_A; runner_B] [runner_B; runner_A]
  /\ StronglySorted (runs_le decimal_int) [runner_A; runner_B]
  /\ (forall k, filter (key_is (runs_key decimal_int) k) [runner_A; runner_B]
                = filter (key_is (runs_key decimal_int) k) [runner_B; runner_A]).
Proof.
  apply (proj1 (sorted_stable_ascending decimal_int [runner_B; runner_A])
           [runner_A; runner_B]).
  reflexivity.
Defined.

Lemma print_celebrants_descending_witness :
  exists ordered rows,
    print_celebrants decimal_int
      [set_event_id 10 runner_A; set_event_id 10 runner_B]
    = Ok {| table := rows;
            headers := ["Events"; "Parkrunner"; "Age group"; "Last event ID"] |}
    /\ Forall2 (fun p r =>
                  exists runs name agegroup event_id,
                    data_runs p = Some runs
                    /\ data_name p = Some name
                    /\ data_agegroup p = Some agegroup
                    /\ data_event_id p = Some event_id
                    /\ r = [StrCell runs; StrCell name; StrCell agegroup;
                            event_id])
               ordered rows
    /\ Permutation ordered [set_event_id 10 runner_A; set_event_id 10 runner_B]
    /\ StronglySorted (fun a b => runs_le decimal_int b a) ordered
    /\ (forall k, filter (key_is (runs_key decimal_int) k) ordered
                  = filter (key_is (runs_key decimal_int) k)
                      [set_event_id 10 runner_A; set_event_id 10 runner_B]).
Proof.
  apply (print_celebrants_descending decimal_int
           [set_event_id 10 runner_A; set_event_id 10 runner_B]).
  - repeat constructor; eexists; reflexivity.
  - repeat constructor; discriminate.
Defined.

Lemma print_celebrants_key_error_witness :
  (print_celebrants decimal_int [set_event_id 10 runner_B; runner_A]
   = Raise (KeyError "data-event-id")
   <-> exists p, In p [set_event_id 10 runner_B; runner_A]
                 /\ data_event_id p = None)
  /\ (forall err,
        print_celebrants decimal_int [set_event_id 10 runner_B; runner_A]
        = Raise err ->
        err = KeyError "data-event-id").
Proof.
  apply (proj2 (print_celebrants_key_error decimal_int
                  [set_event_id 10 runner_B; runner_A])).
  repeat constructor; eexists; reflexivity.
Defined.

Lemma add_celebrants_idempotent_witness :
  add_celebrants decimal_int 9 [runner_B; runner_A]
    [("24-A-", set_event_id 10 runner_A); ("49-B-SW30", set_event_id 10 runner_B)]
  = Ok [("24-A-", set_event_id 10 runner_A);
        ("49-B-SW30", set_event_id 10 runner_B)].
Proof.
  apply (add_celebrants_idempotent decimal_int 10 9 [runner_B; runner_A] []).
  reflexivity.
Defined.

Lemma detect_milestones_sound_witness :
  check_milestone decimal_int (set_event_id 10 runner_B) = Ok true
  /\ complete decimal_int (set_event_id 10 runner_B)
  /\ exists t,
       In (Fetching t (request_url CYTADELA t))
          (log_of (detect_milestones decimal_int http_example CYTADELA 2))
       /\ row_of_page decimal_int http_example CYTADELA t
            (set_event_id 10 runner_B).
Proof.
  apply (detect_milestones_sound decimal_int http_example CYTADELA 2
           [set_event_id 10 runner_A; set_event_id 10 runner_B]).
  - reflexivity.
  - right. left. reflexivity.
Defined.

Lemma detect_milestones_distinct_and_stamped_witness :
  NoDup (map generate_key [set_event_id 10 runner_A; set_event_id 10 runner_B])
  /\ Forall (fun r => exists key, generate_key r = Ok key)
            [set_event_id 10 runner_A; set_event_id 10 runner_B]
  /\ Forall (fun r => exists e, data_event_id r = Some (IntCell e))
            [set_event_id 10 runner_A; set_event_id 10 runner_B]
  /\ (forall rows latest,
        outcome (fetch_upcoming_milestones_from_event decimal_int
                   http_example CYTADELA None)
        = Ok (rows, latest) ->
        Forall (fun r => exists e, data_event_id r = Some (IntCell e)
                                   /\ e <= latest)
               [set_event_id 10 runner_A; set_event_id 10 runner_B]).
Proof.
  apply (detect_milestones_distinct_and_stamped decimal_int
           http_example CYTADELA 2).
  reflexivity.
Defined.

Lemma detect_milestones_order_witness :
  StronglySorted (listed_before decimal_int)
    [set_event_id 3 runner_B; set_event_id 2 runner_A].
Proof.
  apply (detect_milestones_order decimal_int http_three CYTADELA 100).
  reflexivity.
Defined.

Lemma detect_milestones_complete_witness :
  exists key r,
    generate_key runner_B = Ok key
    /\ In r [set_event_id 10 runner_A; set_event_id 10 runner_B]
    /\ generate_key r = Ok key.
Proof.
  apply (detect_milestones_complete decimal_int http_example CYTADELA 2
           [set_event_id 10 runner_A; set_event_id 10 runner_B]
           None [runner_A; runner_B] runner_B).
  - reflexivity.
  - left. reflexivity.
  - eexists. repeat split; reflexivity.
  - right. left. reflexivity.
  - reflexivity.
Defined.

Lemma detect_milestones_no_iterations_witness :
  detect_milestones decimal_int http_example CYTADELA (-3) = ([], Ok []).
Proof.
  apply (detect_milestones_no_iterations decimal_int http_example CYTADELA (-3)).
  discriminate.
Defined.

Lemma detect_milestones_log_shape_witness :
  (raises (fetch_upcoming_milestones_from_event decimal_int
             http_three CYTADELA None) ->
   log_of (detect_milestones decimal_int http_three CYTADELA 100)
   = [Fetching None (LATEST_RESULTS_URL CYTADELA)])
  /\ (forall rows latest,
        outcome (fetch_upcoming_milestones_from_event decimal_int
                   http_three CYTADELA None)
        = Ok (rows, latest) ->
        exists k,
          log_of (detect_milestones decimal_int http_three CYTADELA 100)
          = Fetching None (LATEST_RESULTS_URL CYTADELA)
            :: event_log CYTADELA (latest - 1) k)
  /\ Z.of_nat (List.length
                 (log_of (detect_milestones decimal_int http_three CYTADELA 100)))
     <= 100.
Proof.
  apply (detect_milestones_log_shape decimal_int http_three CYTADELA 100).
  reflexivity.
Defined.

Lemma detect_milestones_full_history_witness :
  (exists celebrants,
      outcome (detect_milestones decimal_int http_three CYTADELA 100)
      = Ok celebrants)
  /\ Z.of_nat (List.length
                 (log_of (detect_milestones decimal_int http_three CYTADELA 100)))
     = Z.min 100 3.
Proof.
  apply (detect_milestones_full_history decimal_int http_three CYTADELA 100 3
           [runner_B]).
  - reflexivity.
  - eexists. repeat split; reflexivity.
  - repeat constructor. eexists. reflexivity.
  - reflexivity.
  - intros i Hi.
    assert (Hcases : i = 1 \/ i = 2) by lia.
    destruct Hcases as [-> | ->].
    + exists []. split; [eexists; repeat split; reflexivity | constructor].
    + exists [runner_A].
      split; [eexists; repeat split; reflexivity|].
      repeat constructor. eexists. reflexivity.
Defined.

Lemma detect_milestones_limit_monotone_witness :
  exists celebrants added more,
    outcome (detect_milestones decimal_int http_three CYTADELA 1) = Ok celebrants
    /\ [set_event_id 3 runner_B; set_event_id 2 runner_A] = celebrants ++ added
    /\ log_of (detect_milestones decimal_int http_three CYTADELA 100)
       = log_of (detect_milestones decimal_int http_three CYTADELA 1) ++ more.
Proof.
  apply (detect_milestones_limit_monotone decimal_int http_three CYTADELA 1 100).
  - discriminate.
  - reflexivity.
Defined.
